(** * A transactional in-memory key/value store: model of [database.cpp]

    The development follows [src/database.cpp] function by function: the
    structs become records, the two maps of [DatabasePrivate] finite maps,
    and every member function a function from the database to an [outcome],
    which is a normal return, a C++ exception, or undefined behaviour.

    The store is run by one thread; every [std::mutex] is kept as a flag
    saying whether that thread holds it.  Calls whose C++ precondition fails
    have no defined result and end in [Undefined]:
    - locking a mutex the thread already holds,
    - unlocking a mutex the thread does not hold,
    - dereferencing an end iterator or a null pointer.
    The storage of erased map nodes is not tracked: erasing an entry drops
    its flags with it.

    Contents: the data model and the operations; the conditions and
    relations used in the statements; step lemmas for the operations; what
    the loops of [commitTransaction] change and what they do on live entries;
    the order of the instruction maps in every reachable store; the claims
    of the specification, each proved or evaluated at the input on which the
    code leaves it. *)

From Stdlib Require Import String Ascii Bool List Sorted OrdersEx.
From stdpp Require Import base option gmap strings list fin_maps.

Local Open Scope string_scope.

(** ** Data model (database.cpp, lines 19-81) *)

Inductive MutatingInstructionTypes := Put | Erase.

(** [std::mutex]: [true] when held by the running thread. *)
Definition mutex := bool.

Record DataItem := mkDataItem {
  value : string;
  read_mutex : mutex;
  write_mutex : mutex;
  alive : bool
}.

(** [DataItem(std::string value)]: both mutexes free, [alive = true]. *)
Definition newDataItem (v : string) : DataItem :=
  {| value := v; read_mutex := false; write_mutex := false; alive := true |}.

(** [std::string*] fields are [option string]; [None] is [nullptr]. *)
Record Instruction := mkInstruction {
  key : string;
  initial_value : option string;
  final_value : option string;
  instruction_type : MutatingInstructionTypes
}.

(** [std::map<std::string, Instruction>]: iterated in key order by commit, so
    it is kept as an association list sorted by [std::string]'s [operator<]. *)
Definition InstructionMap := list (string * Instruction).

Record Transaction := mkTransaction {
  instructions : InstructionMap;
  trans_lock : mutex;
  trans_alive : bool            (* [alive] in the source *)
}.

(** [Transaction(nullptr)] *)
Definition newTransaction : Transaction :=
  {| instructions := []; trans_lock := false; trans_alive := true |}.

(** [DatabasePrivate]: [data] is a [std::map], [transactions] a
    [std::unordered_map]; neither is ever iterated. *)
Record Database := mkDatabase {
  data : gmap string DataItem;
  transactions : gmap string Transaction
}.

Definition emptyDatabase : Database :=
  {| data := ∅; transactions := ∅ |}.

Definition set_data (d : gmap string DataItem) (db : Database) : Database :=
  {| data := d; transactions := transactions db |}.

Definition set_transactions (t : gmap string Transaction) (db : Database) : Database :=
  {| data := data db; transactions := t |}.

(** The entry under [k] replaced by [it]. *)
Definition with_item (k : string) (it : DataItem) (db : Database) : Database :=
  set_data (<[k := it]> (data db)) db.

(** The transaction under [tid] replaced by [t]. *)
Definition with_trans (tid : string) (t : Transaction) (db : Database) : Database :=
  set_transactions (<[tid := t]> (transactions db)) db.

(** ** Operations of the instruction map *)

(** [instructions.find(key)] *)
Fixpoint imap_find (k : string) (m : InstructionMap) : option Instruction :=
  match m with
  | [] => None
  | (k', i) :: m' => if String.eqb k k' then Some i else imap_find k m'
  end.

(** [instructions.emplace(key, inst)]: inserts at the key's rank, and leaves
    the map alone when the key is already there. *)
Fixpoint imap_emplace (k : string) (i : Instruction) (m : InstructionMap) : InstructionMap :=
  match m with
  | [] => [(k, i)]
  | (k', i') :: m' =>
      if String.eqb k k' then m
      else if String.ltb k k' then (k, i) :: m
      else (k', i') :: imap_emplace k i m'
  end.

(** Assignment through [instructions.at(key)], for a key that is present. *)
Fixpoint imap_update (k : string) (f : Instruction → Instruction) (m : InstructionMap) : InstructionMap :=
  match m with
  | [] => []
  | (k', i) :: m' =>
      if String.eqb k k' then (k', f i) :: m' else (k', i) :: imap_update k f m'
  end.

(** ** Results of a call *)

(** What a call can throw.  The first six are the [std::runtime_error]s of
    the source, told apart by their message; [OutOfRange] is the
    [std::out_of_range] of [std::map::at]. *)
Inductive exception :=
| ZombieKey              (* "Put failed on key ...: zombie key" *)
| WriteLost              (* "Put failed on key ...: could not complete" *)
| NoSuchTransaction      (* "No existing transaction ...", "... not existing", "No transaction ... to rollback" *)
| DuplicateTransaction   (* "Transaction with name: ... already exists" *)
| CommitFailed           (* "Commit of transaction ... failed" *)
| TransactionConflict    (* "... commits on tampered data: transaction aborted" *)
| OutOfRange.

(** Names a mutex: the read or write mutex of the entry under a key, or the
    lock of a transaction. *)
Inductive mutex_name :=
| ReadMutex (k : string)
| WriteMutex (k : string)
| TransLock (tid : string).

Inductive undefined_behaviour :=
| RelockOwned (m : mutex_name)      (* [lock] on a mutex the thread holds *)
| UnlockNotOwned (m : mutex_name)   (* [unlock] on a mutex the thread does not hold *)
| DerefEnd                          (* [*it] with [it] at [end()] or [rend()] *)
| DerefNull.                        (* [*p] with [p == nullptr] *)

Inductive outcome (A : Type) :=
| Ret (a : A) (db : Database)
| Throw (e : exception) (db : Database)
| Undefined (u : undefined_behaviour).
Arguments Ret {A} a db.
Arguments Throw {A} e db.
Arguments Undefined {A} u.

(** A member function: the database in, an outcome out. *)
Definition M (A : Type) : Type := Database → outcome A.

Definition ret {A} (a : A) : M A := λ db, Ret a db.

Definition bind {A B} (m : M A) (f : A → M B) : M B :=
  λ db, match m db with
        | Ret a db' => f a db'
        | Throw e db' => Throw e db'
        | Undefined u => Undefined u
        end.

Definition throw {A} (e : exception) : M A := λ db, Throw e db.

Definition undefined {A} (u : undefined_behaviour) : M A := λ _, Undefined u.

Declare Scope db_scope.
Delimit Scope db_scope with db.
Notation "x <- c1 ;; c2" := (bind c1 (λ x, c2))
  (at level 100, c1 at next level, right associativity) : db_scope.
Notation "c1 ;; c2" := (bind c1 (λ _, c2))
  (at level 100, right associativity) : db_scope.
Local Open Scope db_scope.

(** Runs [cleanup] when [m] returns and when it throws: the destructor of a
    [ScopeLock]. *)
Definition finally {A} (m : M A) (cleanup : M unit) : M A :=
  λ db, match m db with
        | Ret a db' => (cleanup ;; ret a) db'
        | Throw e db' => (cleanup ;; throw e) db'
        | Undefined u => Undefined u
        end.

(** [try { m } catch (const std::out_of_range&) { handler }] *)
Definition catch_out_of_range {A} (m : M A) (handler : M A) : M A :=
  λ db, match m db with
        | Throw OutOfRange db' => handler db'
        | r => r
        end.

Definition gets {A} (f : Database → A) : M A := λ db, Ret (f db) db.

(** [ScopeLock lock(m); body]: the lock is released when the scope is left,
    by return or by exception. *)
Definition with_lock {A} (acquire release : M unit) (body : M A) : M A :=
  acquire ;; finally body release.

(** ** Helpers (database.cpp, lines 94-140) *)

Definition dataHasKey (k : string) (db : Database) : bool :=
  bool_decide (is_Some (data db !! k)).

Definition keyIsAlive (k : string) (db : Database) : bool :=
  dataHasKey k db && from_option alive false (data db !! k).

Definition transactionsHasId (tid : string) (db : Database) : bool :=
  bool_decide (is_Some (transactions db !! tid)).

Definition transactionIsAlive (tid : string) (db : Database) : bool :=
  transactionsHasId tid db && from_option trans_alive false (transactions db !! tid).

(** ** Access to the two maps *)

(** [data->at(k)] *)
Definition data_at (k : string) : M DataItem :=
  λ db, match data db !! k with
        | Some it => Ret it db
        | None => Throw OutOfRange db
        end.

(** Writing a member of [data->at(k)]. *)
Definition data_modify (k : string) (f : DataItem → DataItem) : M unit :=
  it <- data_at k ;; λ db, Ret tt (set_data (<[k := f it]> (data db)) db).

(** [data->emplace(k, v)]: no effect when the key is there. *)
Definition data_emplace (k v : string) : M unit :=
  λ db, match data db !! k with
        | Some _ => Ret tt db
        | None => Ret tt (set_data (<[k := newDataItem v]> (data db)) db)
        end.

(** [data->erase(k)] *)
Definition data_erase (k : string) : M unit :=
  λ db, Ret tt (set_data (delete k (data db)) db).

(** [transactions->at(tid)] *)
Definition trans_at (tid : string) : M Transaction :=
  λ db, match transactions db !! tid with
        | Some t => Ret t db
        | None => Throw OutOfRange db
        end.

Definition trans_modify (tid : string) (f : Transaction → Transaction) : M unit :=
  t <- trans_at tid ;;
  λ db, Ret tt (set_transactions (<[tid := f t]> (transactions db)) db).

(** [transactions->erase(tid)] *)
Definition trans_erase (tid : string) : M unit :=
  λ db, Ret tt (set_transactions (delete tid (transactions db)) db).

(** [transactions->at(tid).instructions.at(k)] *)
Definition instruction_at (tid k : string) : M Instruction :=
  t <- trans_at tid ;;
  match imap_find k (instructions t) with
  | Some inst => ret inst
  | None => throw OutOfRange
  end.

Definition set_instructions (m : InstructionMap) (t : Transaction) : Transaction :=
  {| instructions := m; trans_lock := trans_lock t; trans_alive := trans_alive t |}.

(** Writing a member of [transactions->at(tid).instructions.at(k)]. *)
Definition instruction_modify (tid k : string) (f : Instruction → Instruction) : M unit :=
  instruction_at tid k ;;
  trans_modify tid (λ t, set_instructions (imap_update k f (instructions t)) t).

(** Check if key has already been modified by the transaction. *)
Definition transactionHasKey (tid k : string) : M bool :=
  t <- trans_at tid ;; ret (bool_decide (is_Some (imap_find k (instructions t)))).

(** ** Mutexes *)

Definition set_read_mutex (b : mutex) (it : DataItem) : DataItem :=
  {| value := value it; read_mutex := b; write_mutex := write_mutex it; alive := alive it |}.

Definition set_write_mutex (b : mutex) (it : DataItem) : DataItem :=
  {| value := value it; read_mutex := read_mutex it; write_mutex := b; alive := alive it |}.

Definition set_value (v : string) (it : DataItem) : DataItem :=
  {| value := v; read_mutex := read_mutex it; write_mutex := write_mutex it; alive := alive it |}.

Definition set_alive (b : bool) (it : DataItem) : DataItem :=
  {| value := value it; read_mutex := read_mutex it; write_mutex := write_mutex it; alive := b |}.

Definition set_trans_lock (b : mutex) (t : Transaction) : Transaction :=
  {| instructions := instructions t; trans_lock := b; trans_alive := trans_alive t |}.

Definition set_trans_alive (b : bool) (t : Transaction) : Transaction :=
  {| instructions := instructions t; trans_lock := trans_lock t; trans_alive := b |}.

(** [data->at(k).read_mutex.lock()] *)
Definition lock_read (k : string) : M unit :=
  it <- data_at k ;;
  if read_mutex it then undefined (RelockOwned (ReadMutex k))
  else data_modify k (set_read_mutex true).

(** [data->at(k).read_mutex.unlock()] *)
Definition unlock_read (k : string) : M unit :=
  it <- data_at k ;;
  if read_mutex it then data_modify k (set_read_mutex false)
  else undefined (UnlockNotOwned (ReadMutex k)).

(** [data->at(k).write_mutex.lock()] *)
Definition lock_write (k : string) : M unit :=
  it <- data_at k ;;
  if write_mutex it then undefined (RelockOwned (WriteMutex k))
  else data_modify k (set_write_mutex true).

(** [data->at(k).write_mutex.unlock()] *)
Definition unlock_write (k : string) : M unit :=
  it <- data_at k ;;
  if write_mutex it then data_modify k (set_write_mutex false)
  else undefined (UnlockNotOwned (WriteMutex k)).

(** [transactions->at(tid).trans_lock.lock()] *)
Definition lock_trans (tid : string) : M unit :=
  t <- trans_at tid ;;
  if trans_lock t then undefined (RelockOwned (TransLock tid))
  else trans_modify tid (set_trans_lock true).

(** The destructor of a [ScopeLock] on [trans_lock].  When the transaction
    has been erased in the scope there is no flag left to reset: the release
    of the mutex that went away with the transaction is left out of the
    model, which goes on as if the scope were left without it. *)
Definition unlock_trans (tid : string) : M unit :=
  λ db, match transactions db !! tid with
        | None => Ret tt db
        | Some t =>
            if trans_lock t then trans_modify tid (set_trans_lock false) db
            else Undefined (UnlockNotOwned (TransLock tid))
        end.

(** ** Auto-commit operations *)

(** [Database::put(key, value)], lines 151-170. *)
Definition put (k v : string) : M unit :=
  has <- gets (dataHasKey k) ;;
  (if has then
     al <- gets (keyIsAlive k) ;;
     if negb al then throw ZombieKey
     else
       (* std::lock(write_mutex, read_mutex), adopted by lock_w and lock_r *)
       with_lock (lock_write k ;; lock_read k) (unlock_read k ;; unlock_write k)
         (data_modify k (set_value v))
   else data_emplace k v) ;;
  with_lock (lock_write k) (unlock_write k)
    (it <- data_at k ;;
     if negb (String.eqb (value it) v) then throw WriteLost else ret tt).

(** [Database::get(key)], lines 201-210. *)
Definition get (k : string) : M (option string) :=
  al <- gets (keyIsAlive k) ;;
  if al then
    with_lock (lock_read k) (unlock_read k)
      (it <- data_at k ;; ret (Some (value it)))
  else ret None.

(** [Database::erase(key)], lines 231-240.  The entry goes away with both of
    its mutexes, locked as they are.  What the source does next, the release
    by [lock_r] and [lock_w] of the two mutexes it has destroyed, is left out
    of the model, which goes on as if the call returned there. *)
Definition erase (k : string) : M unit :=
  al <- gets (keyIsAlive k) ;;
  if al then lock_write k ;; lock_read k ;; data_erase k
  else ret tt.

(** ** Transaction-scoped operations *)

(** [Database::put(key, value, transaction_id)], lines 172-199. *)
Definition put_t (k v tid : string) : M unit :=
  al <- gets (transactionIsAlive tid) ;;
  if al then
    with_lock (lock_trans tid) (unlock_trans tid)
      (has <- transactionHasKey tid k ;;
       if has then
         (* key has already been given an instruction during transaction *)
         inst <- instruction_at tid k ;;
         match final_value inst with
         | None => undefined DerefNull
         | Some _ =>
             instruction_modify tid k
               (λ i, {| key := key i; initial_value := initial_value i;
                        final_value := Some v; instruction_type := instruction_type i |}) ;;
             instruction_modify tid k
               (λ i, {| key := key i; initial_value := initial_value i;
                        final_value := final_value i; instruction_type := Put |})
         end
       else
         (* construct new instruction *)
         let inst := {| key := k; initial_value := None;
                        final_value := Some v; instruction_type := Put |} in
         hasd <- gets (dataHasKey k) ;;
         inst' <- (if hasd then
                     it <- data_at k ;;
                     ret {| key := key inst; initial_value := Some (value it);
                            final_value := final_value inst;
                            instruction_type := instruction_type inst |}
                   else ret inst) ;;
         trans_modify tid (λ t, set_instructions (imap_emplace k inst' (instructions t)) t))
  else throw NoSuchTransaction.

(** [Database::get(key, transaction_id)], lines 212-229.  The scope of the
    lock ends before the fall through to [get]. *)
Definition get_t (k tid : string) : M (option string) :=
  al <- gets (transactionIsAlive tid) ;;
  if al then
    staged <- with_lock (lock_trans tid) (unlock_trans tid)
                (has <- transactionHasKey tid k ;;
                 if has then
                   inst <- instruction_at tid k ;;
                   (* a copy of the string behind result_ptr, or nullptr *)
                   ret (Some (final_value inst))
                 else ret None) ;;
    match staged with
    | Some result => ret result
    | None =>
        (* if key not yet modified by the transaction, return its current value *)
        get k
    end
  else throw NoSuchTransaction.

(** [Database::erase(key, transaction_id)], lines 242-252. *)
Definition erase_t (k tid : string) : M unit :=
  has <- gets (transactionsHasId tid) ;;
  if has then
    hk <- transactionHasKey tid k ;;
    if hk then
      instruction_modify tid k
        (λ i, {| key := key i; initial_value := initial_value i;
                 final_value := final_value i; instruction_type := Erase |})
    else ret tt
  else ret tt.

(** [Database::createTransaction], lines 254-262. *)
Definition createTransaction (tid : string) : M unit :=
  has <- gets (transactionsHasId tid) ;;
  if negb has then
    λ db, Ret tt (set_transactions (<[tid := newTransaction]> (transactions db)) db)
  else throw DuplicateTransaction.

(** [Database::rollbackTransaction], lines 264-276. *)
Definition rollbackTransaction (tid : string) : M unit :=
  has <- gets (transactionsHasId tid) ;;
  if negb has then throw NoSuchTransaction
  else
    with_lock (lock_trans tid) (unlock_trans tid)
      (trans_modify tid (set_trans_alive false)) ;;
    trans_erase tid.

(** ** Commit (database.cpp, lines 278-370) *)

Definition is_null {A} (p : option A) : bool :=
  match p with None => true | Some _ => false end.

(** The test of lines 318-322: has the entry been modified since the
    transaction first staged the key? *)
Definition tampered (inst : Instruction) (db : Database) : bool :=
  (is_null (initial_value inst) && keyIsAlive (key inst) db)
  || (negb (is_null (initial_value inst)) && negb (keyIsAlive (key inst) db))
  || (negb (is_null (initial_value inst)) && keyIsAlive (key inst) db
      && match data db !! key inst, initial_value inst with
         | Some it, Some v0 => negb (String.eqb (value it) v0)
         | _, _ => false        (* shut out by the two tests before it *)
         end).

(** First loop, lines 295-306: lock the write mutex of every live entry. *)
Fixpoint commit_lock (tid : string) (rollback : M unit) (l : InstructionMap) : M unit :=
  match l with
  | [] => ret tt
  | (_, inst) :: l' =>
      catch_out_of_range
        (al <- gets (keyIsAlive (key inst)) ;;
         if al then lock_write (key inst) else ret tt)
        (rollback ;; throw CommitFailed) ;;
      commit_lock tid rollback l'
  end.

(** The [switch] of lines 326-341. *)
Definition apply_instruction (inst : Instruction) : M unit :=
  match instruction_type inst with
  | Put =>
      has <- gets (dataHasKey (key inst)) ;;
      if has then
        with_lock (lock_read (key inst)) (unlock_read (key inst))
          match final_value inst with
          | Some v => data_modify (key inst) (set_value v)
          | None => undefined DerefNull
          end
      else
        match final_value inst with
        | Some v => data_emplace (key inst) v
        | None => undefined DerefNull
        end
  | Erase =>
      with_lock (lock_read (key inst)) (unlock_read (key inst))
        (data_modify (key inst) (set_alive false))
  end.

(** Second loop, lines 312-343.  Returns [last_key] and the position of
    [key_instruction_exec] when the loop is left: the instructions not
    executed, empty when the loop ran to [end()]. *)
Fixpoint commit_exec (l : InstructionMap) (last_key : string) : M (string * InstructionMap) :=
  match l with
  | [] => ret (last_key, [])
  | (_, inst) :: l' =>
      t <- gets (tampered inst) ;;
      if t then ret (last_key, l)       (* break *)
      else apply_instruction inst ;; commit_exec l' (key inst)
  end.

(** Lines 346-350: step back from [rbegin()] to the instruction of
    [last_key].  [None] when the walk runs into [rend()]. *)
Fixpoint commit_step_back (last_key : string) (rl : InstructionMap) : option InstructionMap :=
  match rl with
  | [] => None
  | (_, inst) :: rl' =>
      if negb (String.eqb (key inst) last_key) then commit_step_back last_key rl'
      else Some rl
  end.

(** Third loop, lines 352-360. *)
Fixpoint commit_release (rl : InstructionMap) : M unit :=
  match rl with
  | [] => ret tt
  | (_, inst) :: rl' =>
      unlock_write (key inst) ;;
      match instruction_type inst with
      | Erase => data_erase (key inst)
      | Put => ret tt
      end ;;
      commit_release rl'
  end.

(** [Database::commitTransaction]. *)
Definition commitTransaction (tid : string) : M unit :=
  al <- gets (transactionIsAlive tid) ;;
  if negb al then throw NoSuchTransaction
  else
    with_lock (lock_trans tid) (unlock_trans tid)
      (al <- gets (transactionIsAlive tid) ;;
       if negb al then ret tt
       else
         t <- trans_at tid ;;
         let l := instructions t in
         commit_lock tid (rollbackTransaction tid) l ;;
         match l with
         | [] => undefined DerefEnd        (* key_instruction_exec->second.key at end() *)
         | (_, first) :: _ =>
             stopped <- commit_exec l (key first) ;;
             let '(last_key, rest) := stopped in
             match commit_step_back last_key (rev l) with
             | None => undefined DerefEnd
             | Some rl =>
                 commit_release rl ;;
                 match rest with
                 | _ :: _ => trans_erase tid ;; throw TransactionConflict
                 | [] => trans_erase tid
                 end
             end
         end).

(** ** Running a client *)

(** [try { m } catch (std::runtime_error e) { }], as main.cpp wraps its
    calls; evaluates to what was caught. *)
Definition try_catch {A} (m : M A) : M (option exception) :=
  λ db, match m db with
        | Ret _ db' => Ret None db'
        | Throw OutOfRange db' => Throw OutOfRange db'
        | Throw e db' => Ret (Some e) db'
        | Undefined u => Undefined u
        end.

Definition result_of {A} (o : outcome A) : option A :=
  match o with Ret a _ => Some a | _ => None end.

(** The single-threaded opening of main.cpp (lines 13-54), with the values
    its assertions look at. *)
Definition main_prefix : M (list (option string)) :=
  put "example" "foo" ;;
  r1 <- get "example" ;;
  erase "example" ;;
  r2 <- get "example" ;;
  erase "example" ;;
  createTransaction "abc" ;;
  try_catch (createTransaction "abc") ;;
  put_t "a" "foo" "abc" ;;
  r3 <- get_t "a" "abc" ;;
  r4 <- get "a" ;;
  createTransaction "xyz" ;;
  put_t "a" "bar" "xyz" ;;
  r5 <- get_t "a" "xyz" ;;
  ret [r1; r2; r3; r4; r5].

(** ** Clients used in the examples below *)

(** Two live keys, both staged by "t"; the second is then overwritten
    outside the transaction. *)
Definition conflict_on_second_key : M unit :=
  put "a" "1" ;; put "b" "2" ;;
  createTransaction "t" ;; put_t "a" "x" "t" ;; put_t "b" "y" "t" ;;
  put "b" "z".

(** "t" stages and then removes a key that does not exist yet; the key is
    then created outside the transaction. *)
Definition conflict_on_removed_key : M unit :=
  createTransaction "t" ;; put_t "a" "x" "t" ;; erase_t "a" "t" ;;
  put "a" "y".

(** "t" stages a live key, which is then removed outside the transaction. *)
Definition staged_key_removed : M unit :=
  put "a" "1" ;;
  createTransaction "t" ;; put_t "a" "x" "t" ;;
  erase "a".

(** "t" stages a key that does not exist and removes it again. *)
Definition stage_then_remove : M unit :=
  createTransaction "t" ;; put_t "k" "v" "t" ;; erase_t "k" "t".

(** "t" removes a live key and a key that does not exist. *)
Definition remove_live_and_missing : M unit :=
  put "a" "1" ;;
  createTransaction "t" ;;
  put_t "a" "x" "t" ;; erase_t "a" "t" ;;
  put_t "b" "y" "t" ;; erase_t "b" "t".

(** main.cpp, lines 29-30, on a store without "a". *)
Definition stage_new_key : M unit :=
  createTransaction "xyz" ;; put_t "a" "bar" "xyz".

(** "t" stages a live key, and the removal of a key that the store does not
    have. *)
Definition stage_live_and_missing : M unit :=
  put "a" "1" ;;
  createTransaction "t" ;;
  put_t "a" "x" "t" ;;
  put_t "b" "y" "t" ;; erase_t "b" "t".

(** A store with one entry, at rest. *)
Definition example_store : Database :=
  with_item "example" (newDataItem "bar") emptyDatabase.

(** ** Conditions on the state *)

(** Neither mutex of the entry is held: no call is at work on it. *)
Definition guards_free (it : DataItem) : Prop :=
  write_mutex it = false ∧ read_mutex it = false.

(** The key is absent, or it is an existing live key at rest. *)
Definition absent_or_live (k : string) (db : Database) : Prop :=
  match data db !! k with
  | None => True
  | Some it => alive it = true ∧ guards_free it
  end.

(** A live entry under the key, if there is one, is at rest. *)
Definition at_rest (k : string) (db : Database) : Prop :=
  ∀ it, data db !! k = Some it → alive it = true → guards_free it.

(** The three cases of a conflict, in the words of the specification: the
    snapshot is absent and the key is alive; the snapshot is present and the
    key is not alive; the snapshot is present, the key is alive and its value
    differs from the snapshot. *)
Definition snapshot_conflict (inst : Instruction) (db : Database) : Prop :=
  (initial_value inst = None ∧ keyIsAlive (key inst) db = true)
  ∨ (is_Some (initial_value inst) ∧ keyIsAlive (key inst) db = false)
  ∨ (∃ v0 it, initial_value inst = Some v0 ∧ keyIsAlive (key inst) db = true
              ∧ data db !! key inst = Some it ∧ value it ≠ v0).

(** ** What a call may change *)

(** [changes R E m]: whenever [m] returns or throws, the database it leaves
    is related by [R] to the one it started from, and what it throws is in
    [E]. *)
Definition changes {A} (R : relation Database) (E : exception → Prop) (m : M A) : Prop :=
  ∀ db, match m db with
        | Ret _ db' => R db db'
        | Throw e db' => E e ∧ R db db'
        | Undefined _ => True
        end.

(** What clients can read of an entry. *)
Definition content (it : DataItem) : string * bool := (value it, alive it).

(** Same transactions, and the same entries but for the one under [k]. *)
Definition only_entry (k : string) : relation Database :=
  λ db db', transactions db' = transactions db
            ∧ ∀ k', k' ≠ k → data db' !! k' = data db !! k'.

(** Same transactions, same keys, values and liveness; mutexes apart. *)
Definition same_contents : relation Database :=
  λ db db', transactions db' = transactions db
            ∧ ∀ k, content <$> data db' !! k = content <$> data db !! k.

(** Only the mutexes of the entry under [k] differ. *)
Definition guards_of (k : string) : relation Database :=
  λ db db', only_entry k db db' ∧ same_contents db db'.

(** The map of transactions is the same. *)
Definition keeps_transactions : relation Database :=
  λ db db', transactions db' = transactions db.

(** Any exception. *)
Definition unrestricted : exception → Prop := λ _, True.

(** No two instructions of the map are for the same key. *)
Definition distinct_keys (l : InstructionMap) : Prop :=
  NoDup (map (λ p, key p.2) l).

(** ** The effect of a commit on live entries *)

(** One pass over the instructions; each one rewrites the entry of its key
    by [g], or erases it when [g] gives [None]. *)
Definition apply_all (g : Instruction → DataItem → option DataItem)
    (l : InstructionMap) (d : gmap string DataItem) : gmap string DataItem :=
  foldl (λ d p, partial_alter (λ o, o ≫= g p.2) (key p.2) d) d l.

(** What the three loops of commit do to the entry of a staged key. *)
Definition locked_item (inst : Instruction) (it : DataItem) : option DataItem :=
  Some (set_write_mutex true it).

Definition executed_item (inst : Instruction) (it : DataItem) : option DataItem :=
  match instruction_type inst with
  | Put => (λ v, set_value v it) <$> final_value inst
  | Erase => Some (set_alive false it)
  end.

Definition released_item (inst : Instruction) (it : DataItem) : option DataItem :=
  match instruction_type inst with
  | Put => Some (set_write_mutex false it)
  | Erase => None
  end.

(** [last_key] when the execution loop has run over all of [l]. *)
Definition last_key_of (l : InstructionMap) (first : string) : string :=
  foldl (λ _ p, key p.2) first l.

(** The entry of the staged key is alive and at rest, it still holds the
    value of the snapshot, and the instruction has a value to publish. *)
Definition staged_on_live (inst : Instruction) (db : Database) : Prop :=
  ∃ it v, data db !! key inst = Some it ∧ alive it = true ∧ guards_free it
          ∧ initial_value inst = Some (value it) ∧ final_value inst = Some v.

(** ** The instruction map as a [std::map] *)

(** [std::string]'s [operator<]. *)
Definition key_lt (a b : string) : Prop := String.ltb a b = true.

(** Keys in strictly ascending order, each instruction filed under its own
    key. *)
Definition ordered_instructions (l : InstructionMap) : Prop :=
  StronglySorted (λ p q, key_lt p.1 q.1) l ∧ Forall (λ p, key p.2 = p.1) l.

(** Every transaction of the store has an ordered instruction map. *)
Definition well_staged (db : Database) : Prop :=
  ∀ tid t, transactions db !! tid = Some t → ordered_instructions (instructions t).

Definition keeps_well_staged : relation Database :=
  λ db db', well_staged db → well_staged db'.

(** ** Runs of a client *)

Inductive call :=
| CallPut (k v : string)
| CallGet (k : string)
| CallErase (k : string)
| CallPutT (k v tid : string)
| CallGetT (k tid : string)
| CallEraseT (k tid : string)
| CallCreate (tid : string)
| CallRollback (tid : string)
| CallCommit (tid : string).

Definition run_call (c : call) : M unit :=
  match c with
  | CallPut k v => put k v
  | CallGet k => get k ;; ret tt
  | CallErase k => erase k
  | CallPutT k v tid => put_t k v tid
  | CallGetT k tid => get_t k tid ;; ret tt
  | CallEraseT k tid => erase_t k tid
  | CallCreate tid => createTransaction tid
  | CallRollback tid => rollbackTransaction tid
  | CallCommit tid => commitTransaction tid
  end.

(** The stores a single thread can get to from the empty one, going on
    after calls that returned and after calls that threw. *)
Inductive reachable : Database → Prop :=
| reachable_empty : reachable emptyDatabase
| reachable_ret c db db' :
    reachable db → run_call c db = Ret tt db' → reachable db'
| reachable_throw c db e db' :
    reachable db → run_call c db = Throw e db' → reachable db'.

(** The stores a single thread can get to without a commit that threw. *)
Inductive undisturbed : Database → Prop :=
| undisturbed_empty : undisturbed emptyDatabase
| undisturbed_ret c db db' :
    undisturbed db → run_call c db = Ret tt db' → undisturbed db'
| undisturbed_throw c db e db' :
    undisturbed db → (∀ tid, c ≠ CallCommit tid) →
    run_call c db = Throw e db' → undisturbed db'.

(** ** Conditions kept by every call *)

(** The entries are the same, mutexes and all. *)
Definition keeps_data : relation Database :=
  λ db db', data db' = data db.

(** No mutex of the kind [held] is held afterwards that was not held
    before. *)
Definition keeps_free (held : DataItem → mutex) : relation Database :=
  λ db db', ∀ k it', data db' !! k = Some it' → held it' = true →
            ∃ it, data db !! k = Some it ∧ held it = true.

Definition keeps_reads : relation Database := keeps_free read_mutex.

Definition keeps_writes : relation Database := keeps_free write_mutex.

(** The entry is on the way to be destroyed. *)
Definition dead (it : DataItem) : bool := negb (alive it).

(** No entry is dead afterwards that was not dead before. *)
Definition keeps_alive : relation Database := keeps_free dead.

(** Every entry is alive and at rest. *)
Definition entries_at_rest (db : Database) : Prop :=
  ∀ k it, data db !! k = Some it → alive it = true ∧ guards_free it.

(** No read mutex is held. *)
Definition reads_free (db : Database) : Prop :=
  ∀ k it, data db !! k = Some it → read_mutex it = false.

(** A transaction between two calls: alive, its lock free, and a value
    behind the [final_value] of each of its instructions. *)
Definition settled (t : Transaction) : Prop :=
  trans_alive t = true ∧ trans_lock t = false
  ∧ Forall (λ p, is_Some (final_value p.2)) (instructions t).

Definition transactions_settled (db : Database) : Prop :=
  ∀ tid t, transactions db !! tid = Some t → settled t.

Definition keeps_settled : relation Database :=
  λ db db', transactions_settled db → transactions_settled db'.

(** The calls of a client one after the other, going on after an exception
    as [reachable] does; [None] when a call is undefined. *)
Fixpoint run_calls (cs : list call) (db : Database) : option Database :=
  match cs with
  | [] => Some db
  | c :: cs' =>
      match run_call c db with
      | Ret _ db' => run_calls cs' db'
      | Throw _ db' => run_calls cs' db'
      | Undefined _ => None
      end
  end.

(** The two members an instruction gets on a second [put] of its key. *)
Definition restaged (v : string) (i : Instruction) : Instruction :=
  {| key := key i; initial_value := initial_value i;
     final_value := Some v; instruction_type := Put |}.

(** The answer of [get] read off the entry. *)
Definition visible_value (k : string) (db : Database) : option string :=
  match data db !! k with
  | Some it => if alive it then Some (value it) else None
  | None => None
  end.

(** The store a call leaves behind, when it returns and when it throws. *)
Definition final_store {A} (o : outcome A) : option Database :=
  match o with
  | Ret _ db' => Some db'
  | Throw _ db' => Some db'
  | Undefined _ => None
  end.

(** The call has a defined behaviour: it returns or it throws. *)
Definition defined {A} (o : outcome A) : Prop := is_Some (final_store o).

(** The entries are the same but for those under the keys [ks]. *)
Definition only_keys (ks : list string) : relation Database :=
  λ db db', ∀ k, k ∉ ks → data db' !! k = data db !! k.

(** The store after a run of calls from the empty one. *)
Definition store_after (cs : list call) : Database :=
  default emptyDatabase (run_calls cs emptyDatabase).

(** The calls of [conflict_on_second_key]. *)
Definition staging_session : list call :=
  [CallPut "a" "1"; CallPut "b" "2"; CallCreate "t";
   CallPutT "a" "x" "t"; CallPutT "b" "y" "t"; CallPut "b" "z"].

(** The same with the commit, which reports the conflict on "b". *)
Definition conflict_session : list call := staging_session ++ [CallCommit "t"].

(** One live key staged by "t" and then overwritten outside of it. *)
Definition single_conflict_session : list call :=
  [CallPut "a" "1"; CallCreate "t"; CallPutT "a" "x" "t"; CallPut "a" "2"].

(** One live key staged by "t", and nothing in the way of the commit. *)
Definition clean_session : list call :=
  [CallPut "a" "1"; CallCreate "t"; CallPutT "a" "x" "t"].

(** The same with the commit, which returns. *)
Definition committed_session : list call := clean_session ++ [CallCommit "t"].

(** A live key staged by "t" and then removed in the transaction. *)
Definition removal_session : list call :=
  [CallPut "a" "1"; CallCreate "t"; CallPutT "a" "x" "t"; CallEraseT "a" "t"].

(** * Facts about the model *)

(** ** One step at a time *)

Section Steps.
Context {A B : Type}.

Lemma bind_Ret (m : M A) (f : A → M B) db a db' :
  m db = Ret a db' → (x <- m ;; f x) db = f a db'.
Proof. unfold bind. by intros ->. Qed.

Lemma bind_Throw (m : M A) (f : A → M B) db e db' :
  m db = Throw e db' → (x <- m ;; f x) db = Throw e db'.
Proof. unfold bind. by intros ->. Qed.

Lemma bind_Undefined (m : M A) (f : A → M B) db u :
  m db = Undefined u → (x <- m ;; f x) db = Undefined u.
Proof. unfold bind. by intros ->. Qed.

Lemma bind_gets (g : Database → A) (f : A → M B) db :
  (x <- gets g ;; f x) db = f (g db) db.
Proof. reflexivity. Qed.

Lemma bind_inv (m : M A) (f : A → M B) db r :
  (x <- m ;; f x) db = r →
  (∃ a db', m db = Ret a db' ∧ f a db' = r)
  ∨ (∃ e db', m db = Throw e db' ∧ r = Throw e db')
  ∨ (∃ u, m db = Undefined u ∧ r = Undefined u).
Proof. unfold bind. destruct (m db); naive_solver. Qed.
End Steps.

Lemma finally_Ret {A} (m : M A) (cleanup : M unit) db a db' db'' :
  m db = Ret a db' → cleanup db' = Ret tt db'' → finally m cleanup db = Ret a db''.
Proof. unfold finally, bind, ret. by intros -> ->. Qed.

Lemma dataHasKey_Some k db it : data db !! k = Some it → dataHasKey k db = true.
Proof. unfold dataHasKey. intros ->. by apply bool_decide_eq_true_2. Qed.

Lemma dataHasKey_None k db : data db !! k = None → dataHasKey k db = false.
Proof. unfold dataHasKey. intros ->. apply bool_decide_eq_false_2. by intros [? ?]. Qed.

Lemma keyIsAlive_Some k db it : data db !! k = Some it → keyIsAlive k db = alive it.
Proof. intros H. unfold keyIsAlive. by rewrite (dataHasKey_Some _ _ _ H), H. Qed.

Lemma keyIsAlive_None k db : data db !! k = None → keyIsAlive k db = false.
Proof. intros H. unfold keyIsAlive. by rewrite (dataHasKey_None _ _ H). Qed.

Lemma transactionsHasId_Some tid db t :
  transactions db !! tid = Some t → transactionsHasId tid db = true.
Proof. unfold transactionsHasId. intros ->. by apply bool_decide_eq_true_2. Qed.

Lemma transactionsHasId_None tid db :
  transactions db !! tid = None → transactionsHasId tid db = false.
Proof. unfold transactionsHasId. intros ->. apply bool_decide_eq_false_2. by intros [? ?]. Qed.

Lemma transactionIsAlive_Some tid db t :
  transactions db !! tid = Some t → transactionIsAlive tid db = trans_alive t.
Proof. intros H. unfold transactionIsAlive. by rewrite (transactionsHasId_Some _ _ _ H), H. Qed.

Lemma transactionIsAlive_None tid db :
  transactions db !! tid = None → transactionIsAlive tid db = false.
Proof. intros H. unfold transactionIsAlive. by rewrite (transactionsHasId_None _ _ H). Qed.

Lemma data_with_item k it db : data (with_item k it db) !! k = Some it.
Proof. apply lookup_insert_eq. Qed.

Lemma data_with_item_ne k k' it db : k ≠ k' → data (with_item k it db) !! k' = data db !! k'.
Proof. apply lookup_insert_ne. Qed.

Lemma transactions_with_trans tid t db : transactions (with_trans tid t db) !! tid = Some t.
Proof. apply lookup_insert_eq. Qed.

Lemma with_item_id k it db : data db !! k = Some it → with_item k it db = db.
Proof.
  intros H. destruct db as [d ts]. unfold with_item, set_data. cbn in *.
  by rewrite insert_id.
Qed.

Lemma with_item_twice k it it' db : with_item k it' (with_item k it db) = with_item k it' db.
Proof. unfold with_item, set_data. cbn. by rewrite insert_insert_eq. Qed.

Lemma with_trans_id tid t db : transactions db !! tid = Some t → with_trans tid t db = db.
Proof.
  intros H. destruct db as [d ts]. unfold with_trans, set_transactions. cbn in *.
  by rewrite insert_id.
Qed.

Lemma with_trans_twice tid t t' db : with_trans tid t' (with_trans tid t db) = with_trans tid t' db.
Proof. unfold with_trans, set_transactions. cbn. by rewrite insert_insert_eq. Qed.

Section Primitives.
Variables (db : Database) (k : string) (it : DataItem).
Hypothesis Hit : data db !! k = Some it.

Lemma data_at_Some : data_at k db = Ret it db.
Proof. unfold data_at. by rewrite Hit. Qed.

Lemma data_modify_Some f : data_modify k f db = Ret tt (with_item k (f it) db).
Proof. unfold data_modify. by rewrite (bind_Ret _ _ _ _ _ data_at_Some). Qed.

Lemma lock_write_free :
  write_mutex it = false → lock_write k db = Ret tt (with_item k (set_write_mutex true it) db).
Proof.
  intros H. unfold lock_write. rewrite (bind_Ret _ _ _ _ _ data_at_Some), H.
  apply data_modify_Some.
Qed.

Lemma lock_write_held :
  write_mutex it = true → lock_write k db = Undefined (RelockOwned (WriteMutex k)).
Proof. intros H. unfold lock_write. by rewrite (bind_Ret _ _ _ _ _ data_at_Some), H. Qed.

Lemma unlock_write_held :
  write_mutex it = true → unlock_write k db = Ret tt (with_item k (set_write_mutex false it) db).
Proof.
  intros H. unfold unlock_write. rewrite (bind_Ret _ _ _ _ _ data_at_Some), H.
  apply data_modify_Some.
Qed.

Lemma unlock_write_free :
  write_mutex it = false → unlock_write k db = Undefined (UnlockNotOwned (WriteMutex k)).
Proof. intros H. unfold unlock_write. by rewrite (bind_Ret _ _ _ _ _ data_at_Some), H. Qed.

Lemma lock_read_free :
  read_mutex it = false → lock_read k db = Ret tt (with_item k (set_read_mutex true it) db).
Proof.
  intros H. unfold lock_read. rewrite (bind_Ret _ _ _ _ _ data_at_Some), H.
  apply data_modify_Some.
Qed.

Lemma unlock_read_held :
  read_mutex it = true → unlock_read k db = Ret tt (with_item k (set_read_mutex false it) db).
Proof.
  intros H. unfold unlock_read. rewrite (bind_Ret _ _ _ _ _ data_at_Some), H.
  apply data_modify_Some.
Qed.
End Primitives.

Section TransPrimitives.
Variables (db : Database) (tid : string) (t : Transaction).
Hypothesis Ht : transactions db !! tid = Some t.

Lemma trans_at_Some : trans_at tid db = Ret t db.
Proof. unfold trans_at. by rewrite Ht. Qed.

Lemma trans_modify_Some f : trans_modify tid f db = Ret tt (with_trans tid (f t) db).
Proof. unfold trans_modify. by rewrite (bind_Ret _ _ _ _ _ trans_at_Some). Qed.

Lemma lock_trans_free :
  trans_lock t = false → lock_trans tid db = Ret tt (with_trans tid (set_trans_lock true t) db).
Proof.
  intros H. unfold lock_trans. rewrite (bind_Ret _ _ _ _ _ trans_at_Some), H.
  apply trans_modify_Some.
Qed.

Lemma unlock_trans_held :
  trans_lock t = true → unlock_trans tid db = Ret tt (with_trans tid (set_trans_lock false t) db).
Proof. intros H. unfold unlock_trans. rewrite Ht, H. apply trans_modify_Some. Qed.

Lemma transactionHasKey_find k :
  transactionHasKey tid k db = Ret (negb (is_null (imap_find k (instructions t)))) db.
Proof.
  unfold transactionHasKey. rewrite (bind_Ret _ _ _ _ _ trans_at_Some). unfold ret.
  f_equal. by destruct (imap_find k (instructions t)).
Qed.

Lemma instruction_at_Some k inst :
  imap_find k (instructions t) = Some inst → instruction_at tid k db = Ret inst db.
Proof.
  intros H. unfold instruction_at. by rewrite (bind_Ret _ _ _ _ _ trans_at_Some), H.
Qed.
End TransPrimitives.

Lemma set_write_mutex_roundtrip it :
  write_mutex it = false → set_write_mutex false (set_write_mutex true it) = it.
Proof. destruct it; cbn; by intros ->. Qed.

Lemma set_read_mutex_roundtrip it :
  read_mutex it = false → set_read_mutex false (set_read_mutex true it) = it.
Proof. destruct it; cbn; by intros ->. Qed.

Lemma set_trans_lock_roundtrip t :
  trans_lock t = false → set_trans_lock false (set_trans_lock true t) = t.
Proof. destruct t; cbn; by intros ->. Qed.

(** [ScopeLock] on a free write mutex around a body that returns [a] and
    leaves the entry alone. *)
Lemma with_write_lock_Ret {A} (body : M A) k it db a :
  data db !! k = Some it → write_mutex it = false →
  body (with_item k (set_write_mutex true it) db) = Ret a (with_item k (set_write_mutex true it) db) →
  with_lock (lock_write k) (unlock_write k) body db = Ret a db.
Proof.
  intros Hit Hw Hbody. unfold with_lock.
  rewrite (bind_Ret _ _ _ _ _ (lock_write_free _ _ _ Hit Hw)).
  erewrite finally_Ret; [| exact Hbody | by apply unlock_write_held; [apply data_with_item |]].
  by rewrite with_item_twice, set_write_mutex_roundtrip, with_item_id.
Qed.

Lemma with_read_lock_Ret {A} (body : M A) k it db a :
  data db !! k = Some it → read_mutex it = false →
  body (with_item k (set_read_mutex true it) db) = Ret a (with_item k (set_read_mutex true it) db) →
  with_lock (lock_read k) (unlock_read k) body db = Ret a db.
Proof.
  intros Hit Hr Hbody. unfold with_lock.
  rewrite (bind_Ret _ _ _ _ _ (lock_read_free _ _ _ Hit Hr)).
  erewrite finally_Ret; [| exact Hbody | by apply unlock_read_held; [apply data_with_item |]].
  by rewrite with_item_twice, set_read_mutex_roundtrip, with_item_id.
Qed.

(** ** Auto-commit operations, equation by equation *)

Lemma get_dead k db : keyIsAlive k db = false → get k db = Ret None db.
Proof. intros H. unfold get. by rewrite bind_gets, H. Qed.

Lemma get_live k db it :
  data db !! k = Some it → alive it = true → read_mutex it = false →
  get k db = Ret (Some (value it)) db.
Proof.
  intros Hit Ha Hr. unfold get.
  rewrite bind_gets, (keyIsAlive_Some _ _ _ Hit), Ha.
  apply (with_read_lock_Ret _ _ _ _ _ Hit Hr).
  by rewrite (bind_Ret _ _ _ _ _ (data_at_Some _ _ _ (data_with_item _ _ _))).
Qed.

(** The check that ends [put], lines 167-169. *)
Lemma put_check_passes k v db it :
  data db !! k = Some it → write_mutex it = false → value it = v →
  with_lock (lock_write k) (unlock_write k)
    (it <- data_at k ;;
     if negb (String.eqb (value it) v) then throw WriteLost else ret tt) db = Ret tt db.
Proof.
  intros Hit Hw Hv. apply (with_write_lock_Ret _ _ _ _ _ Hit Hw).
  rewrite (bind_Ret _ _ _ _ _ (data_at_Some _ _ _ (data_with_item _ _ _))).
  cbn. by rewrite Hv, String.eqb_refl.
Qed.

Lemma put_absent k v db :
  data db !! k = None → put k v db = Ret tt (with_item k (newDataItem v) db).
Proof.
  intros Hk. unfold put.
  rewrite bind_gets, (dataHasKey_None _ _ Hk).
  erewrite bind_Ret; [| unfold data_emplace; by rewrite Hk].
  by apply (put_check_passes _ _ _ (newDataItem v)); [apply data_with_item | |].
Qed.

Lemma put_live k v db it :
  data db !! k = Some it → alive it = true →
  write_mutex it = false → read_mutex it = false →
  put k v db = Ret tt (with_item k (set_value v it) db).
Proof.
  intros Hit Ha Hw Hr. unfold put.
  rewrite bind_gets, (dataHasKey_Some _ _ _ Hit).
  erewrite bind_Ret; [apply (put_check_passes _ _ _ (set_value v it)); try done; apply data_with_item |].
  rewrite bind_gets, (keyIsAlive_Some _ _ _ Hit), Ha. cbn [negb].
  unfold with_lock.
  erewrite bind_Ret; cycle 1.
  { erewrite bind_Ret; [| by apply lock_write_free].
    apply lock_read_free; [apply data_with_item | done]. }
  rewrite with_item_twice.
  erewrite finally_Ret; [reflexivity | by apply data_modify_Some, data_with_item |].
  rewrite with_item_twice.
  erewrite bind_Ret; [| by apply unlock_read_held; [apply data_with_item |]].
  rewrite with_item_twice.
  erewrite unlock_write_held; [| apply data_with_item | by destruct it].
  rewrite with_item_twice. do 2 f_equal. destruct it; cbn in *; by subst.
Qed.

Lemma erase_dead k db : keyIsAlive k db = false → erase k db = Ret tt db.
Proof. intros H. unfold erase. by rewrite bind_gets, H. Qed.

Lemma erase_live k db it :
  data db !! k = Some it → alive it = true →
  write_mutex it = false → read_mutex it = false →
  erase k db = Ret tt (set_data (delete k (data db)) db).
Proof.
  intros Hit Ha Hw Hr. unfold erase.
  rewrite bind_gets, (keyIsAlive_Some _ _ _ Hit), Ha.
  erewrite bind_Ret; [| by apply lock_write_free].
  erewrite bind_Ret; [| by apply lock_read_free; [apply data_with_item |]].
  unfold data_erase, with_item, set_data. cbn. by rewrite !delete_insert_eq.
Qed.

(** ** The instruction map *)

Lemma imap_find_emplace_eq k i m :
  imap_find k m = None → imap_find k (imap_emplace k i m) = Some i.
Proof.
  induction m as [|[k' i'] m IH]; cbn.
  - by rewrite String.eqb_refl.
  - destruct (String.eqb k k') eqn:E; [done |]. intros H.
    destruct (String.ltb k k'); cbn.
    + by rewrite String.eqb_refl.
    + rewrite E. by apply IH.
Qed.

Lemma imap_find_emplace_ne k k' i m :
  k' ≠ k → imap_find k' (imap_emplace k i m) = imap_find k' m.
Proof.
  intros Hne. induction m as [|[k0 i0] m IH]; cbn.
  - by rewrite (proj2 (String.eqb_neq _ _) Hne).
  - destruct (String.eqb k k0) eqn:E; [done |].
    destruct (String.ltb k k0); cbn.
    + by rewrite (proj2 (String.eqb_neq _ _) Hne).
    + by rewrite IH.
Qed.

Lemma imap_find_update_eq k f m inst :
  imap_find k m = Some inst → imap_find k (imap_update k f m) = Some (f inst).
Proof.
  induction m as [|[k' i'] m IH]; cbn; [done |].
  destruct (String.eqb k k') eqn:E; cbn; rewrite E; [congruence | done].
Qed.

Lemma imap_find_update_ne k k' f m :
  k' ≠ k → imap_find k' (imap_update k f m) = imap_find k' m.
Proof.
  intros Hne. induction m as [|[k0 i0] m IH]; cbn; [done |].
  destruct (String.eqb k k0) eqn:E; cbn.
  - apply String.eqb_eq in E as <-. by rewrite (proj2 (String.eqb_neq _ _) Hne).
  - by rewrite IH.
Qed.

(** ** Transaction-scoped operations, equation by equation *)

(** [ScopeLock] on a free [trans_lock] around a body that leaves the
    transaction as [t'], still locked. *)
Lemma with_trans_lock_Ret {A} (body : M A) tid t t' db db' a :
  transactions db !! tid = Some t → trans_lock t = false →
  body (with_trans tid (set_trans_lock true t) db) = Ret a db' →
  transactions db' !! tid = Some t' → trans_lock t' = true →
  with_lock (lock_trans tid) (unlock_trans tid) body db
  = Ret a (with_trans tid (set_trans_lock false t') db').
Proof.
  intros Ht Hl Hbody Ht' Hl'. unfold with_lock.
  rewrite (bind_Ret _ _ _ _ _ (lock_trans_free _ _ _ Ht Hl)).
  by erewrite finally_Ret; [| exact Hbody | by apply unlock_trans_held].
Qed.

(** The same around a body that only reads. *)
Lemma with_trans_lock_read {A} (body : M A) tid t db a :
  transactions db !! tid = Some t → trans_lock t = false →
  body (with_trans tid (set_trans_lock true t) db)
  = Ret a (with_trans tid (set_trans_lock true t) db) →
  with_lock (lock_trans tid) (unlock_trans tid) body db = Ret a db.
Proof.
  intros Ht Hl Hbody.
  erewrite with_trans_lock_Ret; [| done | done | exact Hbody | apply transactions_with_trans | done].
  by rewrite with_trans_twice, set_trans_lock_roundtrip, with_trans_id.
Qed.

Section LiveTransaction.
Variables (db : Database) (tid : string) (t : Transaction).
Hypothesis Ht : transactions db !! tid = Some t.
Hypothesis Halive : trans_alive t = true.
Hypothesis Hfree : trans_lock t = false.

Let locked : Database := with_trans tid (set_trans_lock true t) db.

(** A key staged before: [get] answers from the instruction, whatever its
    [instruction_type]. *)
Lemma get_t_staged k inst :
  imap_find k (instructions t) = Some inst → get_t k tid db = Ret (final_value inst) db.
Proof.
  intros Hfind. unfold get_t.
  rewrite bind_gets, (transactionIsAlive_Some _ _ _ Ht), Halive.
  erewrite bind_Ret; cycle 1.
  { apply (with_trans_lock_read _ _ _ _ _ Ht Hfree).
    erewrite bind_Ret;
      [| apply (transactionHasKey_find _ _ _ (transactions_with_trans _ _ _))].
    cbn [instructions set_trans_lock]. rewrite Hfind. cbn [is_null negb].
    by erewrite bind_Ret;
      [| by apply (instruction_at_Some _ _ _ (transactions_with_trans _ _ _))]. }
  reflexivity.
Qed.

(** A key not staged: the call is [get]. *)
Lemma get_t_unstaged k :
  imap_find k (instructions t) = None → get_t k tid db = get k db.
Proof.
  intros Hfind. unfold get_t.
  rewrite bind_gets, (transactionIsAlive_Some _ _ _ Ht), Halive.
  erewrite bind_Ret; cycle 1.
  { apply (with_trans_lock_read _ _ _ _ _ Ht Hfree).
    erewrite bind_Ret;
      [| apply (transactionHasKey_find _ _ _ (transactions_with_trans _ _ _))].
    cbn [instructions set_trans_lock]. by rewrite Hfind. }
  reflexivity.
Qed.

(** First [put] of a key in the transaction: the snapshot is taken when
    [data] has the key, whether the entry is alive or not. *)
Lemma put_t_first k v :
  imap_find k (instructions t) = None →
  put_t k v tid db
  = Ret tt (with_trans tid
              (set_instructions
                 (imap_emplace k {| key := k; initial_value := value <$> data db !! k;
                                    final_value := Some v; instruction_type := Put |}
                    (instructions t)) t) db).
Proof.
  intros Hfind. unfold put_t.
  rewrite bind_gets, (transactionIsAlive_Some _ _ _ Ht), Halive.
  set (inst := {| key := k; initial_value := value <$> data db !! k;
                  final_value := Some v; instruction_type := Put |}).
  set (t' := set_instructions (imap_emplace k inst (instructions t)) (set_trans_lock true t)).
  rewrite (with_trans_lock_Ret _ tid t t' db (with_trans tid t' locked) tt Ht Hfree);
    [| | apply transactions_with_trans | done].
  - unfold locked. rewrite !with_trans_twice. do 2 f_equal.
    destruct t; cbn in *; by subst.
  - erewrite bind_Ret;
      [| apply (transactionHasKey_find _ _ _ (transactions_with_trans _ _ _))].
    cbn [instructions set_trans_lock]. rewrite Hfind. cbn [is_null negb].
    rewrite bind_gets. fold locked.
    destruct (data db !! k) as [it|] eqn:Hk.
    + rewrite (dataHasKey_Some k locked it) by done.
      erewrite bind_Ret; [| erewrite bind_Ret; [reflexivity | by apply data_at_Some]].
      by erewrite trans_modify_Some; [| apply transactions_with_trans].
    + rewrite (dataHasKey_None k locked) by done.
      erewrite bind_Ret; [| reflexivity].
      by erewrite trans_modify_Some; [| apply transactions_with_trans].
Qed.
End LiveTransaction.

Lemma lock_read_held db k it :
  data db !! k = Some it → read_mutex it = true →
  lock_read k db = Undefined (RelockOwned (ReadMutex k)).
Proof.
  intros Hit H. unfold lock_read. by rewrite (bind_Ret _ _ _ _ _ (data_at_Some _ _ _ Hit)), H.
Qed.

(** ** What the loops of commit may change *)

#[global] Instance only_entry_preorder k : PreOrder (only_entry k).
Proof.
  split.
  - by intros db.
  - intros x y z [Ht1 Hd1] [Ht2 Hd2]. split; [congruence |].
    intros k' Hne. by rewrite Hd2, Hd1.
Qed.

#[global] Instance same_contents_preorder : PreOrder same_contents.
Proof.
  split.
  - by intros db.
  - intros x y z [Ht1 Hd1] [Ht2 Hd2]. split; [congruence |].
    intros k. by rewrite Hd2, Hd1.
Qed.

#[global] Instance guards_of_preorder k : PreOrder (guards_of k).
Proof.
  split.
  - by intros db.
  - intros x y z [? ?] [? ?]. split; by etrans.
Qed.

#[global] Instance keeps_transactions_preorder : PreOrder keeps_transactions.
Proof.
  split.
  - by intros db.
  - intros x y z H1 H2. unfold keeps_transactions in *. congruence.
Qed.

Section Changes.
Context {A B : Type} (R : relation Database) `{!PreOrder R} (E : exception → Prop).

Lemma changes_ret (a : A) : changes R E (ret a).
Proof. intros db. cbn. reflexivity. Qed.

Lemma changes_gets (f : Database → A) : changes R E (gets f).
Proof. intros db. cbn. reflexivity. Qed.

Lemma changes_throw e : E e → changes R E (throw (A := A) e).
Proof. intros He db. cbn. split; [done | reflexivity]. Qed.

Lemma changes_undefined u : changes R E (undefined (A := A) u).
Proof. by intros db. Qed.

Lemma changes_bind (m : M A) (f : A → M B) :
  changes R E m → (∀ a, changes R E (f a)) → changes R E (x <- m ;; f x).
Proof.
  intros Hm Hf db. unfold bind. specialize (Hm db).
  destruct (m db) as [a db1 | e db1 | u]; [| done..].
  specialize (Hf a db1). destruct (f a db1) as [b db2 | e db2 | u]; [| | done].
  - by etrans.
  - destruct Hf. split; [done | by etrans].
Qed.

Lemma changes_finally (m : M A) (cleanup : M unit) :
  changes R E m → changes R E cleanup → changes R E (finally m cleanup).
Proof.
  intros Hm Hc db. unfold finally, bind, ret, throw. specialize (Hm db).
  destruct (m db) as [a db1 | e db1 | u]; [| | done];
    specialize (Hc db1); destruct (cleanup db1) as [[] db2 | e' db2 | u']; try done.
  - by etrans.
  - destruct Hc. split; [done | by etrans].
  - destruct Hm. split; [done | by etrans].
  - destruct Hm, Hc. split; [done | by etrans].
Qed.

Lemma changes_with_lock (acquire release : M unit) (body : M A) :
  changes R E acquire → changes R E release → changes R E body →
  changes R E (with_lock acquire release body).
Proof.
  intros Ha Hr Hb db. unfold with_lock, bind. specialize (Ha db).
  destruct (acquire db) as [[] db1 | e db1 | u]; [| done..].
  pose proof (changes_finally body release Hb Hr db1) as Hf.
  destruct (finally body release db1) as [a db2 | e db2 | u]; [| | done].
  - by etrans.
  - destruct Hf. split; [done | by etrans].
Qed.
End Changes.

Lemma changes_weaken {A} (R R' : relation Database) (E E' : exception → Prop) (m : M A) :
  (∀ x y, R x y → R' x y) → (∀ e, E e → E' e) → changes R E m → changes R' E' m.
Proof.
  intros HR HE Hm db. specialize (Hm db).
  destruct (m db); [auto | | done]. destruct Hm. auto.
Qed.

(** *** The entry primitives *)

Lemma with_item_guards_of k it it' db :
  data db !! k = Some it → content it' = content it → guards_of k db (with_item k it' db).
Proof.
  intros Hit Hc. split; (split; [done |]).
  - intros k' Hne. by apply data_with_item_ne.
  - intros k'. destruct (decide (k = k')) as [<- | Hne].
    + by rewrite data_with_item, Hit; cbn; rewrite Hc.
    + by rewrite data_with_item_ne.
Qed.

Lemma with_item_only_entry k it db : only_entry k db (with_item k it db).
Proof. split; [done |]. intros k' Hne. by apply data_with_item_ne. Qed.

Lemma data_at_changes R `{!PreOrder R} k : changes R (eq OutOfRange) (data_at k).
Proof. intros db. unfold data_at. by destruct (data db !! k). Qed.

Lemma data_modify_changes k f : changes (only_entry k) (eq OutOfRange) (data_modify k f).
Proof.
  intros db. destruct (data db !! k) as [it|] eqn:Hit.
  - rewrite (data_modify_Some _ _ _ Hit). apply with_item_only_entry.
  - unfold data_modify, bind, data_at. by rewrite Hit.
Qed.

Lemma data_emplace_changes k v E : changes (only_entry k) E (data_emplace k v).
Proof.
  intros db. unfold data_emplace. destruct (data db !! k); [done |].
  apply with_item_only_entry.
Qed.

Lemma data_erase_changes k E : changes (only_entry k) E (data_erase k).
Proof.
  intros db. unfold data_erase. split; [done |].
  intros k' Hne. by apply lookup_delete_ne.
Qed.

(** Locking and unlocking touch the mutexes of one entry. *)
Lemma guard_changes k (held : DataItem → bool) (f : DataItem → DataItem) (m : M unit) :
  (∀ it, content (f it) = content it) →
  (∀ db it, data db !! k = Some it →
     m db = Ret tt (with_item k (f it) db) ∨ ∃ u, m db = Undefined u) →
  (∀ db, data db !! k = None → m db = Throw OutOfRange db) →
  changes (guards_of k) (eq OutOfRange) m.
Proof.
  intros Hf HSome HNone db. destruct (data db !! k) as [it|] eqn:Hit.
  - destruct (HSome db it Hit) as [-> | [u ->]]; [| done].
    by apply (with_item_guards_of _ it).
  - by rewrite (HNone db Hit).
Qed.

Lemma primitive_absent {A} k (f : DataItem → M A) db :
  data db !! k = None → (it <- data_at k ;; f it) db = Throw OutOfRange db.
Proof. intros H. unfold bind, data_at. by rewrite H. Qed.

Lemma lock_write_changes k : changes (guards_of k) (eq OutOfRange) (lock_write k).
Proof.
  apply (guard_changes k write_mutex (set_write_mutex true)); [done | |].
  - intros db it Hit. destruct (write_mutex it) eqn:Hw.
    + right. eexists. by apply (lock_write_held _ _ it).
    + left. by apply lock_write_free.
  - intros db. apply primitive_absent.
Qed.

Lemma unlock_write_changes k : changes (guards_of k) (eq OutOfRange) (unlock_write k).
Proof.
  apply (guard_changes k write_mutex (set_write_mutex false)); [done | |].
  - intros db it Hit. destruct (write_mutex it) eqn:Hw.
    + left. by apply unlock_write_held.
    + right. eexists. by apply (unlock_write_free _ _ it).
  - intros db. apply primitive_absent.
Qed.

Lemma lock_read_changes k : changes (guards_of k) (eq OutOfRange) (lock_read k).
Proof.
  apply (guard_changes k read_mutex (set_read_mutex true)); [done | |].
  - intros db it Hit. destruct (read_mutex it) eqn:Hr.
    + right. eexists. by apply (lock_read_held _ _ it).
    + left. by apply lock_read_free.
  - intros db. apply primitive_absent.
Qed.

Lemma unlock_read_changes k : changes (guards_of k) (eq OutOfRange) (unlock_read k).
Proof.
  apply (guard_changes k read_mutex (set_read_mutex false)); [done | |].
  - intros db it Hit. destruct (read_mutex it) eqn:Hr.
    + left. by apply unlock_read_held.
    + right. eexists. unfold unlock_read.
      by rewrite (bind_Ret _ _ _ _ _ (data_at_Some _ _ _ Hit)), Hr.
  - intros db. apply primitive_absent.
Qed.

(** *** The loops *)

Lemma guards_of_only_entry k x y : guards_of k x y → only_entry k x y.
Proof. by intros [? ?]. Qed.

Lemma guards_of_same_contents k x y : guards_of k x y → same_contents x y.
Proof. by intros [? ?]. Qed.

Lemma only_entry_keeps_transactions k x y : only_entry k x y → keeps_transactions x y.
Proof. by intros [? ?]. Qed.

Lemma guards_of_keeps_transactions k x y : guards_of k x y → keeps_transactions x y.
Proof. by intros [[? ?] ?]. Qed.

Lemma same_contents_keeps_transactions x y : same_contents x y → keeps_transactions x y.
Proof. by intros [? ?]. Qed.

(** An executed instruction touches the entry of its own key, and throws
    nothing but [std::out_of_range]. *)
Lemma apply_instruction_changes inst :
  changes (only_entry (key inst)) (eq OutOfRange) (apply_instruction inst).
Proof.
  pose proof (changes_weaken _ _ _ _ _ (guards_of_only_entry (key inst)) (λ e H, H)
                (lock_read_changes (key inst))) as Hlock.
  pose proof (changes_weaken _ _ _ _ _ (guards_of_only_entry (key inst)) (λ e H, H)
                (unlock_read_changes (key inst))) as Hunlock.
  unfold apply_instruction. destruct (instruction_type inst).
  - apply changes_bind; [apply _ | apply changes_gets; apply _ |].
    intros [].
    + apply changes_with_lock; [apply _ | done | done |].
      destruct (final_value inst); [apply data_modify_changes | by apply changes_undefined].
    + destruct (final_value inst); [apply data_emplace_changes | by apply changes_undefined].
  - apply changes_with_lock; [apply _ | done | done | apply data_modify_changes].
Qed.

(** The lock loop takes write mutexes and nothing else, and never throws:
    the handler of its [try] block is dead code. *)
Lemma commit_lock_changes tid rollback l :
  changes same_contents (λ _, False) (commit_lock tid rollback l).
Proof.
  induction l as [|[k inst] l IH]; cbn [commit_lock].
  - apply changes_ret; apply _.
  - apply changes_bind; [apply _ | | done].
    intros db. unfold catch_out_of_range. rewrite bind_gets.
    destruct (data db !! key inst) as [it|] eqn:Hit.
    + rewrite (keyIsAlive_Some _ _ _ Hit). destruct (alive it); [| cbn; reflexivity].
      destruct (write_mutex it) eqn:Hw.
      * by rewrite (lock_write_held _ _ _ Hit Hw).
      * rewrite (lock_write_free _ _ _ Hit Hw).
        by apply (guards_of_same_contents (key inst)), (with_item_guards_of _ it).
    + rewrite (keyIsAlive_None _ _ Hit). cbn. reflexivity.
Qed.

Lemma commit_exec_changes l last_key :
  changes keeps_transactions (eq OutOfRange) (commit_exec l last_key).
Proof.
  revert last_key. induction l as [|[k inst] l IH]; intros last_key; cbn [commit_exec].
  - apply changes_ret; apply _.
  - apply changes_bind; [apply _ | apply changes_gets; apply _ |].
    intros []; [apply changes_ret; apply _ |].
    apply changes_bind; [apply _ | | done].
    apply (changes_weaken _ _ _ _ _ (only_entry_keeps_transactions (key inst)) (λ e H, H)).
    apply apply_instruction_changes.
Qed.

Lemma commit_release_changes rl :
  changes keeps_transactions (eq OutOfRange) (commit_release rl).
Proof.
  induction rl as [|[k inst] rl IH]; cbn [commit_release].
  - apply changes_ret; apply _.
  - apply changes_bind; [apply _ | | intros _; apply changes_bind; [apply _ | | done]].
    + apply (changes_weaken _ _ _ _ _ (guards_of_keeps_transactions (key inst)) (λ e H, H)).
      apply unlock_write_changes.
    + destruct (instruction_type inst); [apply changes_ret; apply _ |].
      apply (changes_weaken _ _ _ _ _ (only_entry_keeps_transactions (key inst)) (λ e H, H)).
      apply data_erase_changes.
Qed.

(** *** The test for a conflict *)

Lemma keyIsAlive_lookup k db : keyIsAlive k db = from_option alive false (data db !! k).
Proof.
  destruct (data db !! k) as [it|] eqn:Hit.
  - by rewrite (keyIsAlive_Some _ _ _ Hit).
  - by rewrite (keyIsAlive_None _ _ Hit).
Qed.

(** [tampered] reads the value and the liveness of one entry. *)
Lemma tampered_content inst db db' :
  content <$> data db' !! key inst = content <$> data db !! key inst →
  tampered inst db' = tampered inst db.
Proof.
  intros H. unfold tampered. rewrite !keyIsAlive_lookup.
  destruct (data db' !! key inst) as [[v' r' w' a']|],
           (data db !! key inst) as [[v r w a]|]; cbn in *; by simplify_eq.
Qed.

Lemma tampered_same_contents inst db db' :
  same_contents db db' → tampered inst db' = tampered inst db.
Proof. intros [_ H]. apply tampered_content, H. Qed.

Lemma tampered_only_entry inst k db db' :
  only_entry k db db' → key inst ≠ k → tampered inst db' = tampered inst db.
Proof. intros [_ H] Hne. apply tampered_content. by rewrite H. Qed.

(** [tampered] computes the three cases of the specification. *)
Lemma tampered_spec inst db : tampered inst db = true ↔ snapshot_conflict inst db.
Proof.
  unfold tampered, snapshot_conflict. rewrite !keyIsAlive_lookup.
  destruct (initial_value inst) as [v0|], (data db !! key inst) as [it|]; cbn;
    try destruct (alive it); cbn.
  - destruct (String.eqb_spec (value it) v0) as [Heq | Hne]; cbn.
    + split; [done |]. intros [[? ?] | [[? ?] | (? & ? & ? & ? & ? & ?)]]; by simplify_eq.
    + split; [| done]. intros _. right. right. by exists v0, it.
  - split; [| done]. intros _. right. left. by split; [eexists |].
  - split; [| done]. intros _. right. left. by split; [eexists |].
  - split; [| done]. intros _. by left.
  - split; [done |]. intros [[? ?] | [[[? ?] ?] | (? & ? & ? & ? & ? & ?)]]; by simplify_eq.
  - split; [done |]. intros [[? ?] | [[[? ?] ?] | (? & ? & ? & ? & ? & ?)]]; by simplify_eq.
Qed.

(** When the execution loop stops before the end, it stops on an instruction
    that is in conflict with the store as the commit found it. *)
Lemma commit_exec_stops l last_key db last_key' rest db' :
  distinct_keys l →
  commit_exec l last_key db = Ret (last_key', rest) db' → rest ≠ [] →
  ∃ k inst, (k, inst) ∈ l ∧ tampered inst db = true.
Proof.
  revert last_key db. induction l as [|[k inst] l IH]; intros last_key db Hnd; cbn [commit_exec].
  - intros [= <- <- <-] ?. done.
  - rewrite bind_gets. destruct (tampered inst db) eqn:Ht.
    + intros _ _. exists k, inst. split; [apply list_elem_of_here | done].
    + intros Hrun Hrest.
      pose proof (apply_instruction_changes inst db) as Hch.
      apply bind_inv in Hrun as [([] & db1 & Happ & Hrun) | [(e & db1 & _ & [=]) | (u & _ & [=])]].
      rewrite Happ in Hch.
      apply NoDup_cons in Hnd as [Hnotin Hnd].
      destruct (IH _ _ Hnd Hrun Hrest) as (k' & inst' & Hin & Ht').
      exists k', inst'. split; [by apply list_elem_of_further |].
      rewrite <- Ht'. symmetry. apply (tampered_only_entry _ _ _ _ Hch).
      intros Heq. apply Hnotin. cbn. rewrite <- Heq.
      apply (list_elem_of_fmap_2 (λ p, key p.2) l (k', inst')) in Hin. exact Hin.
Qed.

(** ** What a commit reports *)

Lemma finally_Throw_inv {A} (m : M A) (cleanup : M unit) db e db' :
  finally m cleanup db = Throw e db' →
  (∃ db1, m db = Throw e db1) ∨ (∃ db1, cleanup db1 = Throw e db').
Proof.
  unfold finally, bind, ret, throw.
  destruct (m db) as [a db1 | e1 db1 | u]; [| | done];
    destruct (cleanup db1) as [[] db2 | e2 db2 | u2] eqn:Hc; intros [=]; subst; eauto.
Qed.

Lemma finally_ext {A} (m m' : M A) (cleanup : M unit) db :
  m db = m' db → finally m cleanup db = finally m' cleanup db.
Proof. unfold finally. by intros ->. Qed.

Lemma unlock_trans_no_throw tid db e db' : unlock_trans tid db ≠ Throw e db'.
Proof.
  unfold unlock_trans. destruct (transactions db !! tid) as [t|] eqn:Ht; [| done].
  destruct (trans_lock t); [| done]. by rewrite (trans_modify_Some _ _ _ Ht).
Qed.

Lemma lock_trans_held db tid t :
  transactions db !! tid = Some t → trans_lock t = true →
  lock_trans tid db = Undefined (RelockOwned (TransLock tid)).
Proof.
  intros Ht H. unfold lock_trans. by rewrite (bind_Ret _ _ _ _ _ (trans_at_Some _ _ _ Ht)), H.
Qed.

(** The body of [commitTransaction], once the transaction [t] has been found
    alive and its lock taken. *)
Lemma commit_body tid db t :
  transactions db !! tid = Some t → trans_alive t = true → trans_lock t = false →
  commitTransaction tid db
  = finally
      (commit_lock tid (rollbackTransaction tid) (instructions t) ;;
       match instructions t with
       | [] => undefined DerefEnd
       | (_, first) :: _ =>
           stopped <- commit_exec (instructions t) (key first) ;;
           let '(last_key, rest) := stopped in
           match commit_step_back last_key (rev (instructions t)) with
           | None => undefined DerefEnd
           | Some rl =>
               commit_release rl ;;
               match rest with
               | _ :: _ => trans_erase tid ;; throw TransactionConflict
               | [] => trans_erase tid
               end
           end
       end)
      (unlock_trans tid)
      (with_trans tid (set_trans_lock true t) db).
Proof.
  intros Ht Hal Hl. unfold commitTransaction.
  rewrite bind_gets, (transactionIsAlive_Some _ _ _ Ht), Hal. cbn [negb].
  unfold with_lock. rewrite (bind_Ret _ _ _ _ _ (lock_trans_free _ _ _ Ht Hl)).
  apply finally_ext.
  rewrite bind_gets, (transactionIsAlive_Some _ _ _ (transactions_with_trans _ _ _)).
  cbn [trans_alive set_trans_lock]. rewrite Hal. cbn [negb].
  by rewrite (bind_Ret _ _ _ _ _ (trans_at_Some _ _ _ (transactions_with_trans _ _ _))).
Qed.

(** A commit that throws TransactionConflict has found a staged key in one of
    the three cases of a conflict, in the store as it was when the commit
    began. *)
Lemma conflict_reported_only_on_conflict tid db db' :
  (∀ t, transactions db !! tid = Some t → distinct_keys (instructions t)) →
  commitTransaction tid db = Throw TransactionConflict db' →
  ∃ t k inst,
    transactions db !! tid = Some t ∧ (k, inst) ∈ instructions t ∧ snapshot_conflict inst db.
Proof.
  intros Hwf Hrun.
  destruct (transactions db !! tid) as [t|] eqn:Ht; cycle 1.
  { unfold commitTransaction in Hrun.
    by rewrite bind_gets, (transactionIsAlive_None _ _ Ht) in Hrun. }
  destruct (trans_alive t) eqn:Hal; cycle 1.
  { unfold commitTransaction in Hrun.
    by rewrite bind_gets, (transactionIsAlive_Some _ _ _ Ht), Hal in Hrun. }
  destruct (trans_lock t) eqn:Hl.
  { unfold commitTransaction, with_lock in Hrun.
    rewrite bind_gets, (transactionIsAlive_Some _ _ _ Ht), Hal in Hrun. cbn [negb] in Hrun.
    by rewrite (bind_Undefined _ _ _ _ (lock_trans_held _ _ _ Ht Hl)) in Hrun. }
  specialize (Hwf t eq_refl).
  rewrite (commit_body _ _ _ Ht Hal Hl) in Hrun.
  apply finally_Throw_inv in Hrun as [[db1 Hbody] | [db1 Hc]];
    [| by apply unlock_trans_no_throw in Hc].
  set (dbL := with_trans tid (set_trans_lock true t) db) in Hbody.
  pose proof (commit_lock_changes tid (rollbackTransaction tid) (instructions t) dbL) as Hlock.
  apply bind_inv in Hbody as [([] & db2 & Hlk & Hbody) | [(e & db2 & Hlk & _) | (u & _ & [=])]];
    rewrite Hlk in Hlock; [| by destruct Hlock].
  destruct (instructions t) as [|[k0 first] l] eqn:Hinstr; [done |].
  pose proof (commit_exec_changes ((k0, first) :: l) (key first) db2) as Hexec.
  apply bind_inv in Hbody
    as [([last_key rest] & db3 & Hex & Hbody) | [(e & db3 & Hex & [=]) | (u & _ & [=])]];
    rewrite Hex in Hexec; [| by subst; destruct Hexec].
  destruct (commit_step_back last_key (rev ((k0, first) :: l))) as [rl|]; [| done].
  pose proof (commit_release_changes rl db3) as Hrel.
  apply bind_inv in Hbody as [([] & db4 & Hr & Hbody) | [(e & db4 & Hr & [=]) | (u & _ & [=])]];
    rewrite Hr in Hrel; [| by subst; destruct Hrel].
  destruct rest as [|r rest]; [done |].
  destruct (commit_exec_stops _ _ _ _ _ _ Hwf Hex) as (k & inst & Hin & Htamp); [done |].
  exists t, k, inst. split; [done |]. split; [by rewrite Hinstr |].
  apply tampered_spec. rewrite <- Htamp. symmetry.
  rewrite (tampered_same_contents inst dbL db2 Hlock).
  by apply tampered_content.
Qed.

(** ** A commit over live entries *)

Lemma apply_all_cons g p l d :
  apply_all g (p :: l) d = apply_all g l (partial_alter (λ o, o ≫= g p.2) (key p.2) d).
Proof. reflexivity. Qed.

Lemma apply_all_notin g l d k :
  k ∉ map (λ p, key p.2) l → apply_all g l d !! k = d !! k.
Proof.
  revert d. induction l as [|p l IH]; intros d Hk; [done |].
  cbn in Hk. apply not_elem_of_cons in Hk as [Hne Hk].
  rewrite apply_all_cons, IH by done. by apply lookup_partial_alter_ne.
Qed.

Lemma key_in_keys (l : InstructionMap) p : p ∈ l → key p.2 ∈ map (λ p, key p.2) l.
Proof. apply (list_elem_of_fmap_2 (λ p, key p.2)). Qed.

Lemma apply_all_in g l d p :
  distinct_keys l → p ∈ l → apply_all g l d !! key p.2 = d !! key p.2 ≫= g p.2.
Proof.
  revert d. induction l as [|q l IH]; intros d Hnd Hin; [by apply elem_of_nil in Hin |].
  apply NoDup_cons in Hnd as [Hq Hnd]. rewrite apply_all_cons.
  apply elem_of_cons in Hin as [-> | Hin].
  - rewrite apply_all_notin by done. apply lookup_partial_alter_eq.
  - rewrite IH by done. rewrite lookup_partial_alter_ne; [done |].
    intros Heq. apply Hq. rewrite Heq. by apply key_in_keys.
Qed.

Lemma elem_of_rev {A} (l : list A) x : x ∈ rev l ↔ x ∈ l.
Proof. rewrite !list_elem_of_In. symmetry. apply in_rev. Qed.

Lemma distinct_keys_rev l : distinct_keys l → distinct_keys (rev l).
Proof.
  unfold distinct_keys. rewrite map_rev, !NoDup_ListNoDup. apply NoDup_rev.
Qed.

Lemma commit_step_back_last l first :
  l ≠ [] → commit_step_back (last_key_of l first) (rev l) = Some (rev l).
Proof.
  destruct l as [|p l _] using rev_ind; [done |]. intros _.
  unfold last_key_of. rewrite foldl_app, rev_unit. cbn.
  destruct p as [k inst]. cbn. by rewrite String.eqb_refl.
Qed.

(** One step of a loop on an entry that is there. *)
Lemma apply_all_step g p l db it it' :
  data db !! key p.2 = Some it → g p.2 it = Some it' →
  apply_all g (p :: l) (data db) = apply_all g l (data (with_item (key p.2) it' db)).
Proof.
  intros Hit Hg. rewrite apply_all_cons. f_equal. cbn.
  apply partial_alter_ext. intros o. rewrite Hit. by intros <-.
Qed.

Lemma apply_all_step_erase g p l db it :
  data db !! key p.2 = Some it → g p.2 it = None →
  apply_all g (p :: l) (data db) = apply_all g l (delete (key p.2) (data db)).
Proof.
  intros Hit Hg. rewrite apply_all_cons. f_equal.
  apply partial_alter_ext. intros o. rewrite Hit. by intros <-.
Qed.

Section Loops.
Variables (tid : string) (rollback : M unit).

(** The lock loop over live entries whose write mutex is free. *)
Lemma commit_lock_live l db :
  distinct_keys l →
  (∀ p, p ∈ l → ∃ it, data db !! key p.2 = Some it ∧ alive it = true ∧ write_mutex it = false) →
  commit_lock tid rollback l db = Ret tt (set_data (apply_all locked_item l (data db)) db).
Proof.
  revert db. induction l as [|[k inst] l IH]; intros db Hnd Hlive.
  - by destruct db.
  - apply NoDup_cons in Hnd as [Hk Hnd].
    destruct (Hlive (k, inst)) as (it & Hit & Ha & Hw); [apply list_elem_of_here |].
    cbn [snd] in Hit. cbn [commit_lock]. erewrite bind_Ret; cycle 1.
    { unfold catch_out_of_range.
      rewrite bind_gets, (keyIsAlive_Some _ _ _ Hit), Ha.
      by rewrite (lock_write_free _ _ _ Hit Hw). }
    rewrite IH; [| done |].
    + by rewrite (apply_all_step locked_item (k, inst) l db it (set_write_mutex true it)).
    + intros p Hp. destruct (Hlive p) as (it' & Hit' & ?); [by apply list_elem_of_further |].
      exists it'. split; [| done]. rewrite data_with_item_ne; [done |].
      intros Heq. apply Hk. cbn [snd]. rewrite Heq. by apply key_in_keys.
Qed.
End Loops.

Lemma tampered_untouched inst db it :
  data db !! key inst = Some it → alive it = true → initial_value inst = Some (value it) →
  tampered inst db = false.
Proof.
  intros Hit Ha Hinit. unfold tampered.
  rewrite (keyIsAlive_Some _ _ _ Hit), Ha, Hit, Hinit. cbn.
  by rewrite String.eqb_refl.
Qed.

(** [ScopeLock] on a free read mutex around one assignment to the entry. *)
Lemma with_read_lock_modify k f db it :
  data db !! k = Some it → read_mutex it = false →
  (∀ x, read_mutex (f x) = read_mutex x) →
  (∀ x b, f (set_read_mutex b x) = set_read_mutex b (f x)) →
  with_lock (lock_read k) (unlock_read k) (data_modify k f) db
  = Ret tt (with_item k (f it) db).
Proof.
  intros Hit Hr Hkeep Hcomm. unfold with_lock.
  rewrite (bind_Ret _ _ _ _ _ (lock_read_free _ _ _ Hit Hr)).
  erewrite finally_Ret; [reflexivity | by apply data_modify_Some, data_with_item |].
  rewrite with_item_twice.
  rewrite (unlock_read_held _ _ _ (data_with_item _ _ _)), with_item_twice.
  - by rewrite Hcomm, set_read_mutex_roundtrip; [| rewrite Hkeep].
  - by rewrite Hkeep.
Qed.

(** An instruction executed on an entry that is there, read mutex free. *)
Lemma apply_instruction_live inst db it v :
  data db !! key inst = Some it → read_mutex it = false → final_value inst = Some v →
  ∃ it', executed_item inst it = Some it'
         ∧ apply_instruction inst db = Ret tt (with_item (key inst) it' db).
Proof.
  intros Hit Hr Hv. unfold apply_instruction, executed_item. rewrite Hv.
  destruct (instruction_type inst).
  - exists (set_value v it). split; [done |].
    rewrite bind_gets, (dataHasKey_Some _ _ _ Hit).
    by apply with_read_lock_modify.
  - exists (set_alive false it). split; [done |].
    by apply with_read_lock_modify.
Qed.

Lemma other_entry (l : InstructionMap) (k : string) p it db :
  k ∉ map (λ p, key p.2) l → p ∈ l →
  data (with_item k it db) !! key p.2 = data db !! key p.2.
Proof.
  intros Hk Hp. apply data_with_item_ne. intros Heq. apply Hk. rewrite Heq.
  by apply key_in_keys.
Qed.

(** The execution loop over live entries that still hold their snapshot:
    it runs to the end. *)
Lemma commit_exec_live l first db :
  distinct_keys l →
  (∀ p, p ∈ l → ∃ it v, data db !! key p.2 = Some it ∧ alive it = true
                         ∧ read_mutex it = false
                         ∧ initial_value p.2 = Some (value it) ∧ final_value p.2 = Some v) →
  commit_exec l first db
  = Ret (last_key_of l first, []) (set_data (apply_all executed_item l (data db)) db).
Proof.
  revert first db. induction l as [|[k inst] l IH]; intros first db Hnd Hlive.
  - by destruct db.
  - apply NoDup_cons in Hnd as [Hk Hnd].
    destruct (Hlive (k, inst)) as (it & v & Hit & Ha & Hr & Hinit & Hv);
      [apply list_elem_of_here |].
    cbn [snd] in *. cbn [commit_exec].
    rewrite bind_gets, (tampered_untouched _ _ _ Hit Ha Hinit).
    destruct (apply_instruction_live inst db it v Hit Hr Hv) as (it' & Hex & Happ).
    rewrite (bind_Ret _ _ _ _ _ Happ), IH; [| done |].
    + by rewrite (apply_all_step executed_item (k, inst) l db it it').
    + intros p Hp. rewrite (other_entry l); [| done..].
      apply Hlive. by apply list_elem_of_further.
Qed.

(** The release loop over entries whose write mutex is held. *)
Lemma commit_release_held rl db :
  distinct_keys rl →
  (∀ p, p ∈ rl → ∃ it, data db !! key p.2 = Some it ∧ write_mutex it = true) →
  commit_release rl db = Ret tt (set_data (apply_all released_item rl (data db)) db).
Proof.
  revert db. induction rl as [|[k inst] rl IH]; intros db Hnd Hheld.
  - by destruct db.
  - apply NoDup_cons in Hnd as [Hk Hnd].
    destruct (Hheld (k, inst)) as (it & Hit & Hw); [apply list_elem_of_here |].
    cbn [snd] in *. cbn [commit_release].
    rewrite (bind_Ret _ _ _ _ _ (unlock_write_held _ _ _ Hit Hw)).
    destruct (instruction_type inst) eqn:Hty.
    + erewrite bind_Ret; [| reflexivity]. rewrite IH; [| done |].
      * rewrite (apply_all_step released_item (k, inst) rl db it (set_write_mutex false it));
          [done.. |]. unfold released_item. cbn [snd]. by rewrite Hty.
      * intros p Hp. rewrite (other_entry rl); [| done..].
        apply Hheld. by apply list_elem_of_further.
    + erewrite bind_Ret; [| reflexivity]. rewrite IH; [| done |].
      * rewrite (apply_all_step_erase released_item (k, inst) rl db it);
          [| done | unfold released_item; cbn [snd]; by rewrite Hty].
        unfold with_item, set_data. cbn. by rewrite delete_insert_eq.
      * intros p Hp. cbn. rewrite lookup_delete_ne, lookup_insert_ne.
        -- apply Hheld. by apply list_elem_of_further.
        -- intros Heq. apply Hk. rewrite Heq. by apply key_in_keys.
        -- intros Heq. apply Hk. rewrite Heq. by apply key_in_keys.
Qed.

Section CommitLive.
Variables (db : Database) (tid : string) (t : Transaction).
Hypothesis Ht : transactions db !! tid = Some t.
Hypothesis Halive : trans_alive t = true.
Hypothesis Hfree : trans_lock t = false.
Hypothesis Hstaged : instructions t ≠ [].
Hypothesis Hdistinct : distinct_keys (instructions t).
Hypothesis Hlive : ∀ p, p ∈ instructions t → staged_on_live p.2 db.

Let l := instructions t.
Let d1 := apply_all locked_item l (data db).
Let d2 := apply_all executed_item l d1.
Let d3 := apply_all released_item (rev l) d2.

Lemma locked_entry p it :
  p ∈ l → data db !! key p.2 = Some it → d1 !! key p.2 = Some (set_write_mutex true it).
Proof. intros Hp Hit. unfold d1. by rewrite apply_all_in, Hit. Qed.

Lemma executed_entry p it :
  p ∈ l → data db !! key p.2 = Some it →
  d2 !! key p.2 = executed_item p.2 (set_write_mutex true it).
Proof. intros Hp Hit. unfold d2. by rewrite apply_all_in, (locked_entry p it). Qed.

Lemma released_entry p it :
  p ∈ l → data db !! key p.2 = Some it →
  d3 !! key p.2 = executed_item p.2 (set_write_mutex true it) ≫= released_item p.2.
Proof.
  intros Hp Hit. unfold d3.
  rewrite apply_all_in; [| by apply distinct_keys_rev | by apply elem_of_rev].
  by rewrite (executed_entry p it).
Qed.

(** The commit of a transaction whose staged keys are all live entries at
    rest, unchanged since they were staged: the three loops run to their
    end, the transaction is erased and the call returns. *)
Lemma commit_of_live_keys :
  commitTransaction tid db
  = Ret tt {| data := d3; transactions := delete tid (transactions db) |}.
Proof.
  rewrite (commit_body _ _ _ Ht Halive Hfree). fold l.
  set (dbL := with_trans tid (set_trans_lock true t) db).
  assert (Hlock : commit_lock tid (rollbackTransaction tid) l dbL = Ret tt (set_data d1 dbL)).
  { apply commit_lock_live; [done |]. intros p Hp.
    destruct (Hlive p Hp) as (it & v & Hit & Ha & [Hw Hr] & _). by exists it. }
  assert (Hexec : ∀ first, commit_exec l first (set_data d1 dbL)
                           = Ret (last_key_of l first, []) (set_data d2 dbL)).
  { intros first. rewrite commit_exec_live; [done | done |]. intros p Hp.
    destruct (Hlive p Hp) as (it & v & Hit & Ha & [Hw Hr] & Hinit & Hv).
    exists (set_write_mutex true it), v. split; [by apply locked_entry | done]. }
  assert (Hrel : commit_release (rev l) (set_data d2 dbL) = Ret tt (set_data d3 dbL)).
  { rewrite commit_release_held; [done | by apply distinct_keys_rev |]. intros p Hp.
    apply (proj1 (elem_of_rev _ _)) in Hp.
    destruct (Hlive p Hp) as (it & v & Hit & Ha & [Hw Hr] & Hinit & Hv).
    cbn [data set_data]. rewrite (executed_entry p it Hp Hit).
    unfold executed_item. rewrite Hv. destruct (instruction_type p.2); by eexists. }
  erewrite finally_Ret; [reflexivity | |].
  - rewrite (bind_Ret _ _ _ _ _ Hlock).
    destruct l as [|[k0 first] l'] eqn:Hl; [done |].
    rewrite (bind_Ret _ _ _ _ _ (Hexec (key first))).
    rewrite commit_step_back_last by done.
    rewrite (bind_Ret _ _ _ _ _ Hrel). reflexivity.
  - unfold unlock_trans. cbn. rewrite lookup_delete_eq. do 2 f_equal.
    by rewrite delete_insert_eq.
Qed.

(** What clients see after that commit: the staged values are published,
    the removed keys are gone, the other entries are as they were. *)
Lemma commit_publishes :
  ∃ db', commitTransaction tid db = Ret tt db'
         ∧ transactions db' !! tid = None
         ∧ (∀ p, p ∈ l →
              get (key p.2) db'
              = Ret (match instruction_type p.2 with
                     | Put => final_value p.2
                     | Erase => None
                     end) db')
         ∧ (∀ k, k ∉ map (λ p, key p.2) l → data db' !! k = data db !! k).
Proof.
  eexists. split; [apply commit_of_live_keys |]. split; [apply lookup_delete_eq |]. split.
  - intros p Hp. destruct (Hlive p Hp) as (it & v & Hit & Ha & [Hw Hr] & Hinit & Hv).
    pose proof (released_entry p it Hp Hit) as Hd3.
    unfold executed_item, released_item in Hd3. rewrite Hv in Hd3.
    destruct (instruction_type p.2); cbn in Hd3.
    + by rewrite (get_live _ {| data := d3; transactions := delete tid (transactions db) |}
                    _ Hd3), Hv.
    + by apply get_dead, keyIsAlive_None.
  - intros k Hk. cbn. unfold d3, d2, d1.
    rewrite !apply_all_notin; [done.. |].
    rewrite map_rev. intros Hin. apply Hk. by apply elem_of_rev.
Qed.
End CommitLive.

(** ** Where the code leaves the specification, in general *)

Lemma finally_Undefined {A} (m : M A) (cleanup : M unit) db u :
  m db = Undefined u → finally m cleanup db = Undefined u.
Proof. unfold finally. by intros ->. Qed.

(** A transaction without instructions cannot be committed. *)
Lemma commit_empty tid db t :
  transactions db !! tid = Some t → trans_alive t = true → trans_lock t = false →
  instructions t = [] →
  commitTransaction tid db = Undefined DerefEnd.
Proof.
  intros Ht Hal Hl Hnil. rewrite (commit_body _ _ _ Ht Hal Hl), Hnil.
  by apply finally_Undefined.
Qed.

(** The commit of a single new key unlocks a write mutex that was never
    locked. *)
Lemma commit_new_key tid db t k inst v :
  transactions db !! tid = Some t → trans_alive t = true → trans_lock t = false →
  instructions t = [(k, inst)] →
  instruction_type inst = Put → initial_value inst = None → final_value inst = Some v →
  data db !! key inst = None →
  commitTransaction tid db = Undefined (UnlockNotOwned (WriteMutex (key inst))).
Proof.
  intros Ht Hal Hl Hinstr Hty Hinit Hv Hk.
  rewrite (commit_body _ _ _ Ht Hal Hl), Hinstr.
  apply finally_Undefined.
  set (dbL := with_trans tid (set_trans_lock true t) db).
  assert (HkL : data dbL !! key inst = None) by done.
  erewrite bind_Ret; cycle 1.
  { cbn [commit_lock]. erewrite bind_Ret; [reflexivity |].
    unfold catch_out_of_range. by rewrite bind_gets, (keyIsAlive_None _ _ HkL). }
  erewrite bind_Ret; cycle 1.
  { cbn [commit_exec]. rewrite bind_gets.
    assert (tampered inst dbL = false) as ->.
    { unfold tampered. by rewrite Hinit, (keyIsAlive_None _ _ HkL). }
    erewrite bind_Ret; [reflexivity |].
    unfold apply_instruction. rewrite Hty, bind_gets, (dataHasKey_None _ _ HkL), Hv.
    unfold data_emplace. by rewrite HkL. }
  cbn [rev app commit_step_back]. rewrite String.eqb_refl. cbn [negb commit_release].
  do 2 apply bind_Undefined.
  by apply (unlock_write_free _ _ (newDataItem v)); [apply lookup_insert_eq |].
Qed.

(** With an id that names no transaction, four of the five operations throw
    NoSuchTransaction and [erase_t] returns. *)
Lemma unknown_transaction tid db k v :
  transactions db !! tid = None →
  put_t k v tid db = Throw NoSuchTransaction db
  ∧ get_t k tid db = Throw NoSuchTransaction db
  ∧ rollbackTransaction tid db = Throw NoSuchTransaction db
  ∧ commitTransaction tid db = Throw NoSuchTransaction db
  ∧ erase_t k tid db = Ret tt db.
Proof.
  intros Ht.
  unfold put_t, get_t, rollbackTransaction, commitTransaction, erase_t.
  by rewrite !bind_gets, (transactionIsAlive_None _ _ Ht), (transactionsHasId_None _ _ Ht).
Qed.

(** [erase_t] on a staged key marks the instruction and keeps its value. *)
Lemma erase_t_staged tid db t k inst :
  transactions db !! tid = Some t → imap_find k (instructions t) = Some inst →
  erase_t k tid db
  = Ret tt (with_trans tid
              (set_instructions
                 (imap_update k
                    (λ i, {| key := key i; initial_value := initial_value i;
                             final_value := final_value i; instruction_type := Erase |})
                    (instructions t)) t) db).
Proof.
  intros Ht Hfind. unfold erase_t.
  rewrite bind_gets, (transactionsHasId_Some _ _ _ Ht).
  rewrite (bind_Ret _ _ _ _ _ (transactionHasKey_find _ _ _ Ht k)), Hfind. cbn [is_null negb].
  unfold instruction_modify.
  rewrite (bind_Ret _ _ _ _ _ (instruction_at_Some _ _ _ Ht _ _ Hfind)).
  by rewrite (trans_modify_Some _ _ _ Ht).
Qed.

(** [get_t] after [erase_t] on a staged key: the staged value again. *)
Lemma get_t_after_erase_t tid db t k inst :
  transactions db !! tid = Some t → trans_alive t = true → trans_lock t = false →
  imap_find k (instructions t) = Some inst →
  ∃ db', erase_t k tid db = Ret tt db' ∧ get_t k tid db' = Ret (final_value inst) db'.
Proof.
  intros Ht Hal Hl Hfind. eexists. split; [by apply (erase_t_staged _ _ t _ inst) |].
  erewrite get_t_staged; [| apply transactions_with_trans | done | done |].
  2: { cbn [instructions set_instructions]. by apply imap_find_update_eq. }
  done.
Qed.

(** The snapshot taken by a first [put_t] on a tombstone. *)
Lemma put_t_first_on_tombstone tid db t k v it :
  transactions db !! tid = Some t → trans_alive t = true → trans_lock t = false →
  imap_find k (instructions t) = None →
  data db !! k = Some it → alive it = false →
  ∃ db' inst, put_t k v tid db = Ret tt db'
              ∧ instruction_at tid k db' = Ret inst db'
              ∧ initial_value inst = Some (value it)
              ∧ keyIsAlive k db' = false.
Proof.
  intros Ht Hal Hl Hfind Hit Ha. do 2 eexists.
  split; [by apply put_t_first |]. rewrite Hit. split.
  { apply (instruction_at_Some _ _ _ (transactions_with_trans _ _ _)).
    cbn [instructions set_instructions]. by apply imap_find_emplace_eq. }
  split; [done |]. by rewrite (keyIsAlive_Some k _ it).
Qed.

(** A commit in the good case, on a concrete store: "a" is overwritten and
    "b" removed. *)
Example commit_publishes_example :
  ∃ db db',
    (put "a" "1" ;; put "b" "2" ;; createTransaction "t" ;;
     put_t "a" "x" "t" ;; put_t "b" "y" "t" ;; erase_t "b" "t") emptyDatabase = Ret tt db
    ∧ commitTransaction "t" db = Ret tt db'
    ∧ get "a" db' = Ret (Some "x") db'
    ∧ get "b" db' = Ret None db'
    ∧ transactionsHasId "t" db' = false.
Proof.
  do 2 eexists.
  split; [vm_compute; reflexivity |].
  split; [vm_compute; reflexivity |].
  split; [vm_compute; reflexivity |].
  split; vm_compute; reflexivity.
Qed.

(** ** The order of the instruction map *)

Lemma compare_agree a b : String.compare a b = String_as_OT.compare a b.
Proof.
  revert b. induction a as [|c a IH]; intros [|c' b]; cbn; [done.. |].
  by rewrite IH.
Qed.

Lemma key_lt_lt a b : key_lt a b ↔ String_as_OT.lt a b.
Proof.
  unfold key_lt, String.ltb, String_as_OT.lt. rewrite compare_agree.
  by destruct (String_as_OT.compare a b).
Qed.

Lemma key_lt_irrefl a : ¬ key_lt a a.
Proof. rewrite key_lt_lt. apply (StrictOrder_Irreflexive (R := String_as_OT.lt)). Qed.

Lemma key_lt_trans a b c : key_lt a b → key_lt b c → key_lt a c.
Proof. rewrite !key_lt_lt. apply (StrictOrder_Transitive (R := String_as_OT.lt)). Qed.

Lemma key_lt_total a b : String.eqb a b = false → String.ltb a b = false → key_lt b a.
Proof.
  intros Hne Hlt. unfold key_lt, String.ltb in *.
  rewrite (String.compare_antisym b a).
  destruct (String.compare a b) eqn:Hc; cbn; try done.
  apply String.compare_eq_iff in Hc. by apply String.eqb_neq in Hne.
Qed.

Lemma imap_emplace_elem k i m p : p ∈ imap_emplace k i m → p = (k, i) ∨ p ∈ m.
Proof.
  induction m as [|[k' i'] m IH]; cbn.
  - intros ->%list_elem_of_singleton. by left.
  - destruct (String.eqb k k'); [by right |].
    destruct (String.ltb k k').
    + intros [-> | H]%elem_of_cons; [by left | by right].
    + intros [-> | H]%elem_of_cons; [right; apply list_elem_of_here |].
      destruct (IH H); [by left | right; by apply list_elem_of_further].
Qed.

(** [emplace] keeps the map ordered. *)
Lemma imap_emplace_ordered k i m :
  key i = k → ordered_instructions m → ordered_instructions (imap_emplace k i m).
Proof.
  intros Hkey [Hs Hf]. induction m as [|[k' i'] m IH]; cbn.
  - split; [| by repeat constructor]. by repeat constructor.
  - apply StronglySorted_inv in Hs as [Hs Hlt].
    apply Forall_cons in Hf as [Hk' Hf].
    destruct (String.eqb k k') eqn:Heq; [by split; [constructor | constructor] |].
    destruct (String.ltb k k') eqn:Hlt'.
    + split; [| by repeat constructor].
      constructor; [by constructor |].
      constructor; [done |].
      eapply Forall_impl; [exact Hlt |]. intros p Hp. by eapply key_lt_trans.
    + destruct (IH Hs Hf) as [Hs' Hf']. split; [| by constructor].
      constructor; [done |].
      apply Forall_forall. intros p [-> | Hp]%imap_emplace_elem.
      * by apply key_lt_total.
      * by apply (proj1 (Forall_forall _ _) Hlt).
Qed.

Lemma imap_update_keys k f m :
  (∀ i, key (f i) = key i) → (imap_update k f m).*1 = m.*1.
Proof.
  intros Hf. induction m as [|[k' i'] m IH]; cbn; [done |].
  destruct (String.eqb k k'); cbn; [done | by rewrite IH].
Qed.

(** Assignment to a member of an instruction keeps the map ordered. *)
Lemma imap_update_ordered k f m :
  (∀ i, key (f i) = key i) → ordered_instructions m → ordered_instructions (imap_update k f m).
Proof.
  intros Hf [Hs Hk]. induction m as [|[k' i'] m IH]; cbn; [done |].
  apply StronglySorted_inv in Hs as [Hs Hlt].
  apply Forall_cons in Hk as [Hk' Hk].
  destruct (String.eqb k k').
  - split; [by constructor | constructor; [cbn in *; by rewrite Hf | done]].
  - destruct (IH Hs Hk) as [Hs' Hk'']. split; [| by constructor].
    constructor; [done |].
    apply Forall_forall. intros p Hp.
    assert (p.1 ∈ (imap_update k f m).*1) as Hin by by apply list_elem_of_fmap_2.
    rewrite (imap_update_keys _ _ _ Hf) in Hin.
    apply list_elem_of_fmap in Hin as (q & Hq & Hin). cbn. rewrite Hq.
    by apply (proj1 (Forall_forall _ _) Hlt).
Qed.

(** In an ordered map no two instructions are for the same key. *)
Lemma ordered_distinct_keys l : ordered_instructions l → distinct_keys l.
Proof.
  intros [Hs Hk]. unfold distinct_keys.
  induction l as [|p l IH]; [constructor |].
  apply StronglySorted_inv in Hs as [Hs Hlt].
  apply Forall_cons in Hk as [Hp Hk].
  cbn. apply NoDup_cons. split; [| by apply IH].
  intros Hin. apply (list_elem_of_fmap (λ p, key p.2)) in Hin as (q & Hq & Hin).
  pose proof (proj1 (Forall_forall _ _) Hlt q Hin) as Hpq.
  pose proof (proj1 (Forall_forall _ _) Hk q Hin) as Hqk.
  cbn in Hpq. rewrite <- Hp, Hq, Hqk in Hpq. by apply key_lt_irrefl in Hpq.
Qed.

(** ** Every reachable store has ordered instruction maps *)

#[global] Instance keeps_well_staged_preorder : PreOrder keeps_well_staged.
Proof. split; unfold keeps_well_staged; [by intros x | intros x y z; auto]. Qed.

Lemma keeps_transactions_well_staged x y : keeps_transactions x y → keeps_well_staged x y.
Proof. intros H Hx tid t. unfold keeps_transactions in H. rewrite H. apply Hx. Qed.

(** A call that leaves the transactions alone. *)
Lemma entry_call_changes {A} (R : relation Database) (m : M A) :
  (∀ x y, R x y → keeps_transactions x y) →
  changes R (eq OutOfRange) m → changes keeps_transactions unrestricted m.
Proof. intros HR. by apply changes_weaken. Qed.

Lemma well_staged_call {A} (E : exception → Prop) (m : M A) :
  changes keeps_transactions E m → changes keeps_well_staged unrestricted m.
Proof. by apply changes_weaken; [apply keeps_transactions_well_staged |]. Qed.

Create HintDb changes.

Lemma lock_write_keeps k : changes keeps_transactions unrestricted (lock_write k).
Proof. apply (entry_call_changes _ _ (guards_of_keeps_transactions k)), lock_write_changes. Qed.
Lemma unlock_write_keeps k : changes keeps_transactions unrestricted (unlock_write k).
Proof. apply (entry_call_changes _ _ (guards_of_keeps_transactions k)), unlock_write_changes. Qed.
Lemma lock_read_keeps k : changes keeps_transactions unrestricted (lock_read k).
Proof. apply (entry_call_changes _ _ (guards_of_keeps_transactions k)), lock_read_changes. Qed.
Lemma unlock_read_keeps k : changes keeps_transactions unrestricted (unlock_read k).
Proof. apply (entry_call_changes _ _ (guards_of_keeps_transactions k)), unlock_read_changes. Qed.
Lemma data_at_keeps k : changes keeps_transactions unrestricted (data_at k).
Proof. apply (entry_call_changes keeps_transactions); [done | apply data_at_changes, _]. Qed.
Lemma data_modify_keeps k f : changes keeps_transactions unrestricted (data_modify k f).
Proof. apply (entry_call_changes _ _ (only_entry_keeps_transactions k)), data_modify_changes. Qed.
Lemma data_emplace_keeps k v : changes keeps_transactions unrestricted (data_emplace k v).
Proof. apply (entry_call_changes _ _ (only_entry_keeps_transactions k)), data_emplace_changes. Qed.
Lemma data_erase_keeps k : changes keeps_transactions unrestricted (data_erase k).
Proof. apply (entry_call_changes _ _ (only_entry_keeps_transactions k)), data_erase_changes. Qed.

#[global] Hint Resolve lock_write_keeps unlock_write_keeps lock_read_keeps unlock_read_keeps
  data_at_keeps data_modify_keeps data_emplace_keeps data_erase_keeps : changes.

(** Takes a call apart along its binds, scopes and tests. *)
Ltac changes_step :=
  lazymatch goal with
  | |- changes _ _ (bind _ _) => apply changes_bind; [apply _ | | intros ?]
  | |- changes _ _ (with_lock _ _ _) => apply changes_with_lock; [apply _ | | |]
  | |- changes _ _ (finally _ _) => apply changes_finally; [apply _ | |]
  | |- changes _ _ (gets _) => apply changes_gets; apply _
  | |- changes _ _ (ret _) => apply changes_ret; apply _
  | |- changes _ _ (throw _) => apply changes_throw; [apply _ | done]
  | |- changes _ _ (undefined _) => by apply changes_undefined
  | |- changes _ _ (if ?b then _ else _) => destruct b
  | |- changes _ _ (match ?x with _ => _ end) => destruct x
  end.

Ltac changes_auto := repeat changes_step; eauto with changes.

Lemma put_keeps k v : changes keeps_transactions unrestricted (put k v).
Proof. unfold put. changes_auto. Qed.

Lemma get_keeps k : changes keeps_transactions unrestricted (get k).
Proof. unfold get. changes_auto. Qed.

Lemma erase_keeps k : changes keeps_transactions unrestricted (erase k).
Proof. unfold erase. changes_auto. Qed.

Lemma trans_at_changes R `{!PreOrder R} tid : changes R unrestricted (trans_at tid).
Proof. intros db. unfold trans_at. by destruct (transactions db !! tid). Qed.

Lemma well_staged_insert tid t db :
  ordered_instructions (instructions t) → keeps_well_staged db (with_trans tid t db).
Proof.
  intros Ht Hdb tid' t'. cbn. destruct (decide (tid = tid')) as [<- | Hne].
  - rewrite lookup_insert_eq. by intros [= <-].
  - rewrite lookup_insert_ne by done. apply Hdb.
Qed.

(** Writing to a transaction in a way that keeps its instructions ordered. *)
Lemma trans_modify_changes tid f :
  (∀ t, ordered_instructions (instructions t) → ordered_instructions (instructions (f t))) →
  changes keeps_well_staged unrestricted (trans_modify tid f).
Proof.
  intros Hf db. destruct (transactions db !! tid) as [t|] eqn:Ht.
  - rewrite (trans_modify_Some _ _ _ Ht). intros Hdb.
    apply well_staged_insert; [| done]. apply Hf. by apply (Hdb tid).
  - unfold trans_modify, bind, trans_at. by rewrite Ht.
Qed.

Lemma trans_erase_changes tid : changes keeps_well_staged unrestricted (trans_erase tid).
Proof.
  intros db Hdb tid' t. cbn. intros [_ H]%lookup_delete_Some. by apply (Hdb tid').
Qed.

Lemma lock_trans_changes tid : changes keeps_well_staged unrestricted (lock_trans tid).
Proof.
  unfold lock_trans. apply changes_bind; [apply _ | apply trans_at_changes, _ |].
  intros t. destruct (trans_lock t); [by apply changes_undefined |].
  by apply trans_modify_changes.
Qed.

Lemma unlock_trans_changes tid : changes keeps_well_staged unrestricted (unlock_trans tid).
Proof.
  intros db. unfold unlock_trans. destruct (transactions db !! tid) as [t|] eqn:Ht; [| done].
  destruct (trans_lock t); [| done].
  by apply (trans_modify_changes tid (set_trans_lock false)).
Qed.

Lemma transactionHasKey_changes tid k :
  changes keeps_well_staged unrestricted (transactionHasKey tid k).
Proof.
  unfold transactionHasKey.
  apply changes_bind; [apply _ | apply trans_at_changes, _ | intros t; apply changes_ret, _].
Qed.

Lemma instruction_at_changes tid k :
  changes keeps_well_staged unrestricted (instruction_at tid k).
Proof.
  unfold instruction_at. apply changes_bind; [apply _ | apply trans_at_changes, _ |].
  intros t. destruct (imap_find k (instructions t));
    [apply changes_ret, _ | by apply changes_throw; [apply _ |]].
Qed.

Lemma instruction_modify_changes tid k f :
  (∀ i, key (f i) = key i) →
  changes keeps_well_staged unrestricted (instruction_modify tid k f).
Proof.
  intros Hf. unfold instruction_modify.
  apply changes_bind; [apply _ | apply instruction_at_changes | intros _].
  apply trans_modify_changes. intros t. by apply imap_update_ordered.
Qed.

Lemma entry_call_well_staged {A} (m : M A) :
  changes keeps_transactions unrestricted m → changes keeps_well_staged unrestricted m.
Proof. apply well_staged_call. Qed.

#[global] Hint Resolve trans_erase_changes lock_trans_changes unlock_trans_changes
  transactionHasKey_changes instruction_at_changes : changes.
#[global] Hint Extern 1 (changes keeps_well_staged _ (instruction_modify _ _ _)) =>
  apply instruction_modify_changes; done : changes.
#[global] Hint Extern 1 (changes keeps_well_staged _ (trans_modify _ (set_trans_alive _))) =>
  apply trans_modify_changes; done : changes.
#[global] Hint Extern 5 (changes keeps_well_staged _ _) =>
  apply entry_call_well_staged : changes.
#[global] Hint Resolve put_keeps get_keeps erase_keeps : changes.

(** Like [changes_bind], with what is known of the value handed on. *)
Lemma changes_bind_value {A B} (R : relation Database) `{!PreOrder R} E
    (Q : A → Prop) (m : M A) (f : A → M B) :
  (∀ db a db', m db = Ret a db' → Q a) →
  changes R E m → (∀ a, Q a → changes R E (f a)) → changes R E (x <- m ;; f x).
Proof.
  intros HQ Hm Hf db. unfold bind. specialize (Hm db). specialize (HQ db).
  destruct (m db) as [a db1 | e db1 | u]; [| done..].
  specialize (Hf a (HQ a db1 eq_refl) db1).
  destruct (f a db1) as [b db2 | e db2 | u]; [| | done].
  - by etrans.
  - destruct Hf. split; [done | by etrans].
Qed.

Lemma trans_at_well_staged tid : changes keeps_well_staged unrestricted (trans_at tid).
Proof. apply trans_at_changes, _. Qed.

Lemma commit_lock_well_staged tid rollback l :
  changes keeps_well_staged unrestricted (commit_lock tid rollback l).
Proof.
  apply entry_call_well_staged.
  by eapply changes_weaken;
    [apply same_contents_keeps_transactions | | apply commit_lock_changes].
Qed.

Lemma commit_exec_well_staged l last_key :
  changes keeps_well_staged unrestricted (commit_exec l last_key).
Proof.
  apply entry_call_well_staged.
  by eapply changes_weaken; [| | apply commit_exec_changes].
Qed.

Lemma commit_release_well_staged rl :
  changes keeps_well_staged unrestricted (commit_release rl).
Proof.
  apply entry_call_well_staged.
  by eapply changes_weaken; [| | apply commit_release_changes].
Qed.

#[global] Hint Resolve trans_at_well_staged commit_lock_well_staged commit_exec_well_staged
  commit_release_well_staged : changes.

Lemma put_t_well_staged k v tid : changes keeps_well_staged unrestricted (put_t k v tid).
Proof.
  unfold put_t.
  repeat first
    [ lazymatch goal with
      | |- changes _ _ (bind (if _ then _ else _) _) =>
          apply (changes_bind_value _ _ (λ i, key i = k)); [| | intros ? ?]
      end
    | changes_step ]; eauto with changes.
  - intros db i db'.
    lazymatch goal with |- (if ?b then _ else _) _ = _ → _ => destruct b end;
      [| by intros [= <-]].
    unfold bind, data_at, ret. destruct (data db !! k); by intros [= <- _].
  - apply trans_modify_changes. intros t. by apply imap_emplace_ordered.
Qed.

Lemma get_t_well_staged k tid : changes keeps_well_staged unrestricted (get_t k tid).
Proof. unfold get_t. changes_auto. Qed.

Lemma erase_t_well_staged k tid : changes keeps_well_staged unrestricted (erase_t k tid).
Proof. unfold erase_t. changes_auto. Qed.

Lemma createTransaction_well_staged tid :
  changes keeps_well_staged unrestricted (createTransaction tid).
Proof.
  unfold createTransaction. changes_auto.
  intros db. apply well_staged_insert. by split; constructor.
Qed.

Lemma rollbackTransaction_well_staged tid :
  changes keeps_well_staged unrestricted (rollbackTransaction tid).
Proof. unfold rollbackTransaction. changes_auto. Qed.

Lemma commitTransaction_well_staged tid :
  changes keeps_well_staged unrestricted (commitTransaction tid).
Proof. unfold commitTransaction. changes_auto. Qed.

Lemma run_call_well_staged c : changes keeps_well_staged unrestricted (run_call c).
Proof.
  destruct c; cbn [run_call];
    eauto using put_t_well_staged, get_t_well_staged, erase_t_well_staged,
      createTransaction_well_staged, rollbackTransaction_well_staged,
      commitTransaction_well_staged with changes.
  - changes_step; [eauto with changes | changes_auto].
  - changes_step; [apply get_t_well_staged | changes_auto].
Qed.

(** The instruction maps of a store that a client can get to are ordered by
    key, as those of a [std::map] are. *)
Lemma reachable_well_staged db : reachable db → well_staged db.
Proof.
  induction 1 as [| c db db' _ IH Hrun | c db e db' _ IH Hrun].
  - intros tid t. cbn. by rewrite lookup_empty.
  - pose proof (run_call_well_staged c db) as H. rewrite Hrun in H. by apply H.
  - pose proof (run_call_well_staged c db) as H. rewrite Hrun in H. by apply H.
Qed.

Lemma reachable_distinct_keys db tid t :
  reachable db → transactions db !! tid = Some t → distinct_keys (instructions t).
Proof.
  intros Hdb Ht. by apply ordered_distinct_keys, (reachable_well_staged db Hdb tid).
Qed.

(** * The claims *)

(** Closes a conjunction of equations between closed terms by running the
    model, left to right. *)
Ltac by_evaluation :=
  lazymatch goal with
  | |- _ ∧ _ => split; [vm_compute; reflexivity | by_evaluation]
  | |- _ => vm_compute; reflexivity
  end.

Lemma put_zombie k v db it :
  data db !! k = Some it → alive it = false → put k v db = Throw ZombieKey db.
Proof.
  intros Hit Ha. unfold put.
  rewrite bind_gets, (dataHasKey_Some _ _ _ Hit).
  apply bind_Throw. by rewrite bind_gets, (keyIsAlive_Some _ _ _ Hit), Ha.
Qed.

(** [put] on a live entry with a mutex held: the thread locks a mutex it
    holds already. *)
Lemma put_relock k v db it :
  data db !! k = Some it → alive it = true →
  guards_free it ∨ ∃ m, put k v db = Undefined (RelockOwned m).
Proof.
  intros Hit Ha.
  destruct (write_mutex it) eqn:Hw; [| destruct (read_mutex it) eqn:Hr; [| by left]].
  all: right; eexists; unfold put; rewrite bind_gets, (dataHasKey_Some _ _ _ Hit);
    apply bind_Undefined;
    rewrite bind_gets, (keyIsAlive_Some _ _ _ Hit), Ha; cbn [negb];
    unfold with_lock; apply bind_Undefined.
  - apply bind_Undefined. by apply (lock_write_held _ _ it).
  - erewrite bind_Ret; [| by apply lock_write_free].
    by apply (lock_read_held _ _ (set_write_mutex true it)); [apply data_with_item |].
Qed.

(** The check of lines 167-169 never fires when one thread runs the store:
    [put] returns, or stops before it for another reason. *)
Lemma put_never_WriteLost k v db db' : put k v db ≠ Throw WriteLost db'.
Proof.
  destruct (data db !! k) as [it|] eqn:Hit; [| by rewrite put_absent].
  destruct (alive it) eqn:Ha; [| by erewrite put_zombie].
  destruct (put_relock k v db it Hit Ha) as [[Hw Hr] | [m ->]]; [| done].
  by erewrite put_live.
Qed.

(** C7. The claim fails on the code.  "t" stages the live key "a" and the
    removal of "b", which the store does not have.  The commit locks the
    write mutex of "a", publishes the staged value, and is left by the
    [std::out_of_range] of [data->at("b")] before its release loop.  "a" is
    alive, its write mutex is held, and the next [put] on it by the same
    thread locks a mutex that the thread owns. *)
Theorem put_after_thrown_commit :
  ∃ db db',
    stage_live_and_missing emptyDatabase = Ret tt db
    ∧ commitTransaction "t" db = Throw OutOfRange db'
    ∧ get "a" db' = Ret (Some "x") db'
    ∧ write_mutex <$> data db' !! "a" = Some true
    ∧ put "a" "w" db' = Undefined (RelockOwned (WriteMutex "a")).
Proof.
  do 2 eexists. by_evaluation.
Qed.



(** C9. The claim fails on the code, on live keys.  On the store that the
    commit of C7 has left, [erase] of the live key "a" locks a write mutex
    that the thread owns.  And on a live key at rest, [erase] is
    [data->erase] on the store in which both mutexes of the entry are
    locked: the entry is destroyed with its mutexes held, which the comment
    of line 42 sets out to avoid. *)
Theorem erase_on_live_key :
  ∃ db db' db0 db1,
    stage_live_and_missing emptyDatabase = Ret tt db
    ∧ commitTransaction "t" db = Throw OutOfRange db'
    ∧ get "a" db' = Ret (Some "x") db'
    ∧ erase "a" db' = Undefined (RelockOwned (WriteMutex "a"))
    ∧ put "a" "1" emptyDatabase = Ret tt db0
    ∧ (lock_write "a" ;; lock_read "a") db0 = Ret tt db1
    ∧ write_mutex <$> data db1 !! "a" = Some true
    ∧ read_mutex <$> data db1 !! "a" = Some true
    ∧ erase "a" db0 = data_erase "a" db1.
Proof.
  do 4 eexists. by_evaluation.
Qed.

Lemma createTransaction_fresh tid db :
  transactions db !! tid = None →
  createTransaction tid db = Ret tt (with_trans tid newTransaction db).
Proof.
  intros H. unfold createTransaction. by rewrite bind_gets, (transactionsHasId_None _ _ H).
Qed.

(** C8. After [createTransaction tid] and [put_t k v tid] on a key absent
    from the store, [get_t k tid] returns [v] and [get k] returns absent; for
    every other key, which the transaction has not staged, [get_t] is
    [get]. *)
Theorem staged_write_isolated tid k v db :
  transactions db !! tid = None → data db !! k = None →
  ∃ db1 db2,
    createTransaction tid db = Ret tt db1
    ∧ put_t k v tid db1 = Ret tt db2
    ∧ get_t k tid db2 = Ret (Some v) db2
    ∧ get k db2 = Ret None db2
    ∧ ∀ k', k' ≠ k → get_t k' tid db2 = get k' db2.
Proof.
  intros Htid Hk.
  set (inst := {| key := k; initial_value := None; final_value := Some v; instruction_type := Put |}).
  set (t := set_instructions [(k, inst)] newTransaction).
  exists (with_trans tid newTransaction db), (with_trans tid t db).
  split; [by apply createTransaction_fresh |]. split; [| split; [| split]].
  - erewrite put_t_first; [| apply transactions_with_trans | done..].
    cbn [data with_trans set_transactions]. rewrite Hk. by rewrite with_trans_twice.
  - by rewrite (get_t_staged _ tid t (transactions_with_trans _ _ _) eq_refl eq_refl k inst);
      [| cbn; by rewrite String.eqb_refl].
  - by apply get_dead, keyIsAlive_None.
  - intros k' Hne.
    apply (get_t_unstaged _ tid t (transactions_with_trans _ _ _) eq_refl eq_refl).
    cbn. by rewrite (proj2 (String.eqb_neq _ _) Hne).
Qed.

Lemma staged_write_isolated_witness :
  ∃ db1 db2,
    createTransaction "abc" emptyDatabase = Ret tt db1
    ∧ put_t "a" "foo" "abc" db1 = Ret tt db2
    ∧ get_t "a" "abc" db2 = Ret (Some "foo") db2
    ∧ get "a" db2 = Ret None db2
    ∧ ∀ k', k' ≠ "a" → get_t k' "abc" db2 = get k' db2.
Proof.
  apply (staged_write_isolated "abc" "a" "foo" emptyDatabase); reflexivity.
Defined.

(** C1. The claim fails on the code.  With two live keys staged and the
    second one changed outside the transaction, the commit throws
    TransactionConflict after it has published the staged value of the first
    key: "a" held "1" before the commit and holds the staged "x" after it. *)
Theorem commit_conflict_keeps_staged_write :
  ∃ db db',
    conflict_on_second_key emptyDatabase = Ret tt db
    ∧ commitTransaction "t" db = Throw TransactionConflict db'
    ∧ get "a" db = Ret (Some "1") db
    ∧ get "a" db' = Ret (Some "x") db'.
Proof.
  do 2 eexists. by_evaluation.
Qed.

(** The same commit leaves the write mutex of "b" held: the release loop
    starts at the last executed key.  The next [put] on "b" by the same
    thread locks a mutex it holds. *)
Lemma commit_conflict_leaves_guard_held :
  ∃ db db',
    conflict_on_second_key emptyDatabase = Ret tt db
    ∧ commitTransaction "t" db = Throw TransactionConflict db'
    ∧ write_mutex <$> data db' !! "b" = Some true
    ∧ put "b" "w" db' = Undefined (RelockOwned (WriteMutex "b")).
Proof.
  do 2 eexists. by_evaluation.
Qed.

(** A staged removal that is in conflict on the first key is carried out all
    the same by the release loop: the commit throws TransactionConflict and
    "a", written outside the transaction, is gone. *)
Lemma commit_conflict_removes_key :
  ∃ db db',
    conflict_on_removed_key emptyDatabase = Ret tt db
    ∧ commitTransaction "t" db = Throw TransactionConflict db'
    ∧ get "a" db = Ret (Some "y") db
    ∧ get "a" db' = Ret None db'.
Proof.
  do 2 eexists. by_evaluation.
Qed.

(** C2. The claim fails on the code.  "t" staged "a" with snapshot "1" and
    "a" was erased afterwards: the snapshot is present and the key is not
    alive.  The execution loop stops on it, and the release loop then asks for
    [data->at("a")]: the commit throws [std::out_of_range], not
    TransactionConflict, and the transaction stays in the store. *)
Theorem commit_conflict_not_reported :
  ∃ db t inst db',
    staged_key_removed emptyDatabase = Ret tt db
    ∧ transactions db !! "t" = Some t
    ∧ instructions t = [("a", inst)]
    ∧ snapshot_conflict inst db
    ∧ commitTransaction "t" db = Throw OutOfRange db'
    ∧ transactionsHasId "t" db' = true.
Proof.
  do 4 eexists.
  split; [vm_compute; reflexivity |].
  split; [vm_compute; reflexivity |].
  split; [reflexivity |].
  split; [right; left; split; [by eexists | vm_compute; reflexivity] |].
  split; vm_compute; reflexivity.
Qed.

(** Without any conflict the commit can fail as well: a removal staged for a
    key that never existed makes the execution loop ask for [data->at] of
    it. *)
Lemma commit_without_conflict_throws :
  ∃ db t inst db',
    stage_then_remove emptyDatabase = Ret tt db
    ∧ transactions db !! "t" = Some t
    ∧ instructions t = [("k", inst)]
    ∧ tampered inst db = false
    ∧ commitTransaction "t" db = Throw OutOfRange db'.
Proof.
  do 4 eexists.
  split; [vm_compute; reflexivity |].
  split; [vm_compute; reflexivity |].
  split; [reflexivity |].
  split; vm_compute; reflexivity.
Qed.

(** C3. The claim fails on the code.  After [put_t "k" "v" "t"] and
    [erase_t "k" "t"] the instruction of "k" is an [Erase], and
    [get_t "k" "t"] returns "v": the answer is read from [final_value]
    without a look at [instruction_type]. *)
Theorem get_t_after_erase_t_returns_value :
  ∃ db inst,
    stage_then_remove emptyDatabase = Ret tt db
    ∧ instruction_at "t" "k" db = Ret inst db
    ∧ instruction_type inst = Erase
    ∧ get_t "k" "t" db = Ret (Some "v") db.
Proof.
  do 2 eexists. by_evaluation.
Qed.

(** C4. The claim fails on the code.  A commit that throws between its
    second and third loop leaves "a" in the store with [alive = false].  A
    first [put_t] of "a" by another transaction then records the value of
    that tombstone as [initial_value]. *)
Theorem put_t_snapshots_tombstone :
  ∃ db db1 db2 inst,
    remove_live_and_missing emptyDatabase = Ret tt db
    ∧ commitTransaction "t" db = Throw OutOfRange db1
    ∧ dataHasKey "a" db1 = true
    ∧ keyIsAlive "a" db1 = false
    ∧ (createTransaction "u" ;; put_t "a" "z" "u") db1 = Ret tt db2
    ∧ instruction_at "u" "a" db2 = Ret inst db2
    ∧ initial_value inst = Some "1".
Proof.
  do 4 eexists. by_evaluation.
Qed.

(** C5. The claim fails on the code.  With an id that names no transaction,
    [put_t], [get_t], [rollbackTransaction] and [commitTransaction] throw
    NoSuchTransaction, and so does [put_t] after a rollback; [erase_t]
    returns normally and changes nothing. *)
Theorem erase_t_unknown_transaction_returns :
  put_t "k" "v" "nope" emptyDatabase = Throw NoSuchTransaction emptyDatabase
  ∧ get_t "k" "nope" emptyDatabase = Throw NoSuchTransaction emptyDatabase
  ∧ rollbackTransaction "nope" emptyDatabase = Throw NoSuchTransaction emptyDatabase
  ∧ commitTransaction "nope" emptyDatabase = Throw NoSuchTransaction emptyDatabase
  ∧ (createTransaction "t" ;; put_t "k" "v" "t" ;; rollbackTransaction "t" ;;
     put_t "k" "w" "t") emptyDatabase = Throw NoSuchTransaction emptyDatabase
  ∧ erase_t "k" "nope" emptyDatabase = Ret tt emptyDatabase.
Proof.
  by_evaluation.
Qed.

(** C6. The claim fails on the code.  "xyz" stages a key that the store does
    not have.  The lock loop finds no live entry and acquires nothing, the
    execution loop creates the entry, and the release loop unlocks its write
    mutex, which nobody holds. *)
Theorem commit_releases_unacquired_guard :
  ∃ db,
    stage_new_key emptyDatabase = Ret tt db
    ∧ keyIsAlive "a" db = false
    ∧ commitTransaction "xyz" db = Undefined (UnlockNotOwned (WriteMutex "a")).
Proof.
  eexists. by_evaluation.
Qed.

(** The three loops of that commit, one by one. *)
Lemma commit_loops_on_new_key :
  ∃ db l db',
    stage_new_key emptyDatabase = Ret tt db
    ∧ instructions <$> transactions db !! "xyz" = Some l
    ∧ commit_lock "xyz" (rollbackTransaction "xyz") l db = Ret tt db
    ∧ commit_exec l "a" db = Ret ("a", []) db'
    ∧ data db' !! "a" = Some (newDataItem "bar")
    ∧ commit_release (rev l) db' = Undefined (UnlockNotOwned (WriteMutex "a")).
Proof.
  do 3 eexists. by_evaluation.
Qed.

(** C10. The claim fails on the code.  The commit of a transaction that was
    opened and never staged a key reads [begin()->second.key] of an empty
    map. *)
Theorem commit_of_empty_transaction :
  ∃ db,
    createTransaction "t" emptyDatabase = Ret tt db
    ∧ instructions <$> transactions db !! "t" = Some []
    ∧ commitTransaction "t" db = Undefined DerefEnd.
Proof.
  eexists. by_evaluation.
Qed.

(** The assertions of main.cpp up to its first commit hold in the model. *)
Example main_prefix_assertions :
  result_of (main_prefix emptyDatabase)
  = Some [Some "foo"; None; Some "foo"; None; Some "bar"].
Proof. vm_compute. reflexivity. Qed.

(** * Further properties of the code *)

(** ** Runs of calls *)

Lemma run_calls_reachable cs db db' :
  reachable db → run_calls cs db = Some db' → reachable db'.
Proof.
  revert db. induction cs as [|c cs IH]; intros db Hdb; cbn.
  - by intros [= <-].
  - destruct (run_call c db) as [[] db1 | e db1 | u] eqn:Hrun; [| | done].
    + apply IH. by eapply reachable_ret.
    + apply IH. by eapply reachable_throw.
Qed.

(** ** Equations for the remaining cases of the operations *)

Lemma get_read_held k db it :
  data db !! k = Some it → alive it = true → read_mutex it = true →
  get k db = Undefined (RelockOwned (ReadMutex k)).
Proof.
  intros Hit Ha Hr. unfold get, with_lock.
  rewrite bind_gets, (keyIsAlive_Some _ _ _ Hit), Ha.
  by apply bind_Undefined, (lock_read_held _ _ it).
Qed.

Lemma erase_relock k db it :
  data db !! k = Some it → alive it = true →
  guards_free it ∨ ∃ m, erase k db = Undefined (RelockOwned m).
Proof.
  intros Hit Ha.
  destruct (write_mutex it) eqn:Hw; [| destruct (read_mutex it) eqn:Hr; [| by left]].
  all: right; eexists; unfold erase;
    rewrite bind_gets, (keyIsAlive_Some _ _ _ Hit), Ha.
  - by apply bind_Undefined, (lock_write_held _ _ it).
  - rewrite (bind_Ret _ _ _ _ _ (lock_write_free _ _ _ Hit Hw)).
    by apply bind_Undefined, (lock_read_held _ _ (set_write_mutex true it));
      [apply data_with_item |].
Qed.

Lemma rollbackTransaction_unknown tid db :
  transactions db !! tid = None → rollbackTransaction tid db = Throw NoSuchTransaction db.
Proof.
  intros Ht. unfold rollbackTransaction.
  by rewrite bind_gets, (transactionsHasId_None _ _ Ht).
Qed.

Lemma rollbackTransaction_free tid db t :
  transactions db !! tid = Some t → trans_lock t = false →
  rollbackTransaction tid db = Ret tt (set_transactions (delete tid (transactions db)) db).
Proof.
  intros Ht Hl. unfold rollbackTransaction.
  rewrite bind_gets, (transactionsHasId_Some _ _ _ Ht). cbn [negb].
  erewrite bind_Ret; cycle 1.
  { eapply (with_trans_lock_Ret _ _ _ (set_trans_alive false (set_trans_lock true t))
              _ _ _ Ht Hl); [| apply transactions_with_trans | done].
    by apply trans_modify_Some, transactions_with_trans. }
  unfold trans_erase, with_trans, set_transactions. cbn. by rewrite !delete_insert_eq.
Qed.

Lemma rollbackTransaction_held tid db t :
  transactions db !! tid = Some t → trans_lock t = true →
  rollbackTransaction tid db = Undefined (RelockOwned (TransLock tid)).
Proof.
  intros Ht Hl. unfold rollbackTransaction, with_lock.
  rewrite bind_gets, (transactionsHasId_Some _ _ _ Ht). cbn [negb].
  by apply bind_Undefined, bind_Undefined, (lock_trans_held _ _ t).
Qed.

Lemma createTransaction_taken tid db t :
  transactions db !! tid = Some t → createTransaction tid db = Throw DuplicateTransaction db.
Proof.
  intros Ht. unfold createTransaction. by rewrite bind_gets, (transactionsHasId_Some _ _ _ Ht).
Qed.

Lemma imap_update_twice k f g m :
  imap_update k f (imap_update k g m) = imap_update k (f ∘ g) m.
Proof.
  induction m as [|[k' i] m IH]; cbn; [done |].
  destruct (String.eqb k k') eqn:E; cbn; rewrite E; [done | by rewrite IH].
Qed.

Lemma instruction_modify_Some tid db t k inst f :
  transactions db !! tid = Some t → imap_find k (instructions t) = Some inst →
  instruction_modify tid k f db
  = Ret tt (with_trans tid (set_instructions (imap_update k f (instructions t)) t) db).
Proof.
  intros Ht Hfind. unfold instruction_modify.
  rewrite (bind_Ret _ _ _ _ _ (instruction_at_Some _ _ _ Ht _ _ Hfind)).
  by rewrite (trans_modify_Some _ _ _ Ht).
Qed.

Section StagedTransaction.
Variables (db : Database) (tid : string) (t : Transaction).
Hypothesis Ht : transactions db !! tid = Some t.
Hypothesis Halive : trans_alive t = true.
Hypothesis Hfree : trans_lock t = false.

(** A second [put] of a key in the transaction. *)
Lemma put_t_again k v inst v0 :
  imap_find k (instructions t) = Some inst → final_value inst = Some v0 →
  put_t k v tid db
  = Ret tt (with_trans tid (set_instructions (imap_update k (restaged v) (instructions t)) t) db).
Proof.
  intros Hfind Hv0. unfold put_t.
  rewrite bind_gets, (transactionIsAlive_Some _ _ _ Ht), Halive.
  set (f1 := λ i, {| key := key i; initial_value := initial_value i;
                     final_value := Some v; instruction_type := instruction_type i |}).
  set (f2 := λ i, {| key := key i; initial_value := initial_value i;
                     final_value := final_value i; instruction_type := Put |}).
  set (tL := set_trans_lock true t).
  set (t1 := set_instructions (imap_update k f1 (instructions tL)) tL).
  set (t2 := set_instructions (imap_update k f2 (instructions t1)) t1).
  rewrite (with_trans_lock_Ret _ tid t t2 db
             (with_trans tid t2 (with_trans tid t1 (with_trans tid tL db))) tt Ht Hfree);
    [| | apply transactions_with_trans | done].
  - rewrite !with_trans_twice. do 2 f_equal. unfold t2, t1, tL. cbn.
    rewrite imap_update_twice. unfold set_instructions, set_trans_lock. cbn.
    by rewrite Hfree.
  - pose proof (transactions_with_trans tid tL db) as HtL.
    rewrite (bind_Ret _ _ _ _ _ (transactionHasKey_find _ _ _ HtL k)).
    cbn [instructions set_trans_lock tL]. rewrite Hfind. cbn [is_null negb].
    rewrite (bind_Ret _ _ _ _ _ (instruction_at_Some _ _ _ HtL _ _ Hfind)), Hv0.
    rewrite (bind_Ret _ _ _ _ _ (instruction_modify_Some tid _ tL k inst f1 HtL Hfind)).
    fold t1. rewrite (instruction_modify_Some tid _ t1 k (f1 inst) f2 (transactions_with_trans _ _ _));
      [done |].
    cbn [instructions set_instructions t1]. by apply imap_find_update_eq.
Qed.

Lemma put_t_null k v inst :
  imap_find k (instructions t) = Some inst → final_value inst = None →
  put_t k v tid db = Undefined DerefNull.
Proof.
  intros Hfind Hnull. unfold put_t, with_lock.
  rewrite bind_gets, (transactionIsAlive_Some _ _ _ Ht), Halive.
  rewrite (bind_Ret _ _ _ _ _ (lock_trans_free _ _ _ Ht Hfree)).
  apply finally_Undefined.
  pose proof (transactions_with_trans tid (set_trans_lock true t) db) as HtL.
  rewrite (bind_Ret _ _ _ _ _ (transactionHasKey_find _ _ _ HtL k)).
  cbn [instructions set_trans_lock]. rewrite Hfind. cbn [is_null negb].
  by rewrite (bind_Ret _ _ _ _ _ (instruction_at_Some _ _ _ HtL _ _ Hfind)), Hnull.
Qed.
End StagedTransaction.

Lemma transaction_call_held {A} (body : M A) tid db t :
  transactions db !! tid = Some t → trans_lock t = true →
  with_lock (lock_trans tid) (unlock_trans tid) body db
  = Undefined (RelockOwned (TransLock tid)).
Proof. intros Ht Hl. unfold with_lock. by apply bind_Undefined, (lock_trans_held _ _ t). Qed.

(** ** What a commit does to the map of transactions *)

Section CommitTransactions.
Variables (db : Database) (tid : string) (t : Transaction).
Hypothesis Ht : transactions db !! tid = Some t.
Hypothesis Halive : trans_alive t = true.
Hypothesis Hfree : trans_lock t = false.

Let locked : Database := with_trans tid (set_trans_lock true t) db.

Lemma unlock_trans_erased d :
  transactions d = delete tid (transactions locked) →
  unlock_trans tid d = Ret tt d ∧ transactions d = delete tid (transactions db).
Proof.
  intros Hd. unfold unlock_trans. rewrite Hd, lookup_delete_eq. split; [done |].
  unfold locked, with_trans. cbn. by rewrite delete_insert_eq.
Qed.

Lemma unlock_trans_kept d :
  transactions d = transactions locked →
  ∃ d', unlock_trans tid d = Ret tt d' ∧ transactions d' = transactions db ∧ data d' = data d.
Proof.
  intros Hd.
  assert (transactions d !! tid = Some (set_trans_lock true t)) as Hl
    by (rewrite Hd; apply transactions_with_trans).
  eexists. split; [by apply (unlock_trans_held _ _ _ Hl) |]. split; [| done].
  unfold with_trans, locked, with_trans. cbn. rewrite Hd. cbn.
  rewrite insert_insert_eq. apply insert_id. rewrite Ht. f_equal.
  destruct t; cbn in *; by subst.
Qed.

(** A commit that returns or reports a conflict has erased the transaction; a
    commit left by [std::out_of_range] has kept it, its lock free again. *)
Lemma commit_transactions :
  match commitTransaction tid db with
  | Ret _ db' => transactions db' = delete tid (transactions db)
  | Throw e db' =>
      (e = TransactionConflict ∧ transactions db' = delete tid (transactions db))
      ∨ (e = OutOfRange ∧ transactions db' = transactions db)
  | Undefined _ => True
  end.
Proof.
  rewrite (commit_body _ _ _ Ht Halive Hfree). fold locked. unfold finally.
  pose proof (commit_lock_changes tid (rollbackTransaction tid) (instructions t) locked) as Hlock.
  destruct (commit_lock tid (rollbackTransaction tid) (instructions t) locked)
    as [[] db2 | e db2 | u] eqn:Hlk; cycle 1.
  { by destruct Hlock. }
  { by rewrite (bind_Undefined _ _ _ _ Hlk). }
  rewrite (bind_Ret _ _ _ _ _ Hlk). destruct Hlock as [Hlock _].
  destruct (instructions t) as [|[k0 first] l]; [done |].
  pose proof (commit_exec_changes ((k0, first) :: l) (key first) db2) as Hexec.
  destruct (commit_exec ((k0, first) :: l) (key first) db2)
    as [[last_key rest] db3 | e db3 | u] eqn:Hex; cycle 1.
  { rewrite (bind_Throw _ _ _ _ _ Hex). destruct Hexec as [<- Hexec].
    destruct (unlock_trans_kept db3) as (d' & Hu & Hd' & _);
      [unfold keeps_transactions in *; congruence |].
    rewrite (bind_Ret _ _ _ _ _ Hu). cbn. by right. }
  { by rewrite (bind_Undefined _ _ _ _ Hex). }
  rewrite (bind_Ret _ _ _ _ _ Hex).
  destruct (commit_step_back last_key (rev ((k0, first) :: l))) as [rl|]; [| done].
  pose proof (commit_release_changes rl db3) as Hrel.
  destruct (commit_release rl db3) as [[] db4 | e db4 | u] eqn:Hr; cycle 1.
  { rewrite (bind_Throw _ _ _ _ _ Hr). destruct Hrel as [<- Hrel].
    destruct (unlock_trans_kept db4) as (d' & Hu & Hd' & _);
      [unfold keeps_transactions in *; congruence |].
    rewrite (bind_Ret _ _ _ _ _ Hu). cbn. by right. }
  { by rewrite (bind_Undefined _ _ _ _ Hr). }
  rewrite (bind_Ret _ _ _ _ _ Hr).
  set (db5 := set_transactions (delete tid (transactions db4)) db4).
  destruct (unlock_trans_erased db5) as [Hu Hd5].
  { unfold db5, keeps_transactions in *. cbn in *. congruence. }
  destruct rest as [|r rest].
  - change (trans_erase tid db4) with (Ret tt db5). cbv beta iota.
    by rewrite (bind_Ret _ _ _ _ _ Hu).
  - change ((trans_erase tid ;; throw TransactionConflict)%db db4)
      with (Throw (A := unit) TransactionConflict db5). cbv beta iota.
    rewrite (bind_Ret _ _ _ _ _ Hu). cbn. by left.
Qed.
End CommitTransactions.

(** ** The other cases of the transaction-scoped operations *)

Lemma dead_transaction tid db t k v :
  transactions db !! tid = Some t → trans_alive t = false →
  put_t k v tid db = Throw NoSuchTransaction db
  ∧ get_t k tid db = Throw NoSuchTransaction db
  ∧ commitTransaction tid db = Throw NoSuchTransaction db.
Proof.
  intros Ht Hal. unfold put_t, get_t, commitTransaction.
  by rewrite !bind_gets, (transactionIsAlive_Some _ _ _ Ht), Hal.
Qed.

Lemma held_transaction tid db t k v :
  transactions db !! tid = Some t → trans_alive t = true → trans_lock t = true →
  put_t k v tid db = Undefined (RelockOwned (TransLock tid))
  ∧ get_t k tid db = Undefined (RelockOwned (TransLock tid))
  ∧ commitTransaction tid db = Undefined (RelockOwned (TransLock tid)).
Proof.
  intros Ht Hal Hl. unfold put_t, get_t, commitTransaction.
  rewrite !bind_gets, (transactionIsAlive_Some _ _ _ Ht), Hal. cbn [negb].
  split; [| split]; [| apply bind_Undefined |]; by apply (transaction_call_held _ _ _ t).
Qed.

Lemma erase_t_unstaged tid db t k :
  transactions db !! tid = Some t → imap_find k (instructions t) = None →
  erase_t k tid db = Ret tt db.
Proof.
  intros Ht Hfind. unfold erase_t.
  rewrite bind_gets, (transactionsHasId_Some _ _ _ Ht).
  by rewrite (bind_Ret _ _ _ _ _ (transactionHasKey_find _ _ _ Ht k)), Hfind.
Qed.

Lemma erase_t_unknown tid db k :
  transactions db !! tid = None → erase_t k tid db = Ret tt db.
Proof. intros Ht. unfold erase_t. by rewrite bind_gets, (transactionsHasId_None _ _ Ht). Qed.

(** ** Instruction maps, entry by entry *)

Lemma imap_emplace_Forall (P : string * Instruction → Prop) k i m :
  P (k, i) → Forall P m → Forall P (imap_emplace k i m).
Proof.
  intros Hi. induction 1 as [|[k' i'] m Hp Hm IH]; cbn; [by repeat constructor |].
  destruct (String.eqb k k'); [by constructor |].
  destruct (String.ltb k k'); by repeat constructor.
Qed.

Lemma imap_update_Forall (P : string * Instruction → Prop) k f m :
  (∀ k' i, P (k', i) → P (k', f i)) → Forall P m → Forall P (imap_update k f m).
Proof.
  intros Hf. induction 1 as [|[k' i'] m Hp Hm IH]; cbn; [constructor |].
  destruct (String.eqb k k'); constructor; auto.
Qed.

Lemma imap_find_elem k m i : imap_find k m = Some i → (k, i) ∈ m.
Proof.
  induction m as [|[k' i'] m IH]; cbn; [done |].
  destruct (String.eqb_spec k k') as [-> | Hne].
  - intros [= ->]. apply list_elem_of_here.
  - intros H. by apply list_elem_of_further, IH.
Qed.

Lemma imap_find_Forall (P : string * Instruction → Prop) k m i :
  imap_find k m = Some i → Forall P m → P (k, i).
Proof. intros Hfind Hall. by apply (proj1 (Forall_forall P m) Hall), imap_find_elem. Qed.

(** ** Every transaction of a reachable store is settled *)

#[global] Instance keeps_settled_preorder : PreOrder keeps_settled.
Proof. split; unfold keeps_settled; [by intros x | intros x y z; auto]. Qed.

Lemma same_transactions_settled x y : transactions y = transactions x → keeps_settled x y.
Proof. intros H Hx tid t. rewrite H. apply Hx. Qed.

Lemma fewer_transactions_settled tid x y :
  transactions y = delete tid (transactions x) → keeps_settled x y.
Proof.
  intros H Hx tid' t. rewrite H. destruct (decide (tid' = tid)) as [-> | Hne].
  - by rewrite lookup_delete_eq.
  - rewrite lookup_delete_ne by done. apply Hx.
Qed.

Lemma with_trans_settled tid t db : settled t → keeps_settled db (with_trans tid t db).
Proof.
  intros Hnew Hdb tid' t'. unfold with_trans. cbn.
  destruct (decide (tid = tid')) as [-> | Hne].
  - rewrite lookup_insert_eq. by intros [= <-].
  - rewrite lookup_insert_ne by done. apply Hdb.
Qed.

Lemma settled_call {A} (E : exception → Prop) (m : M A) :
  changes keeps_transactions E m → changes keeps_settled unrestricted m.
Proof. by apply changes_weaken; [apply same_transactions_settled |]. Qed.

Lemma set_instructions_settled (t : Transaction) m :
  settled t → Forall (λ p, is_Some (final_value p.2)) m → settled (set_instructions m t).
Proof. intros (? & ? & _) ?. by repeat split. Qed.

Lemma put_t_settled k v tid : changes keeps_settled unrestricted (put_t k v tid).
Proof.
  intros db. destruct (transactions db !! tid) as [t|] eqn:Ht; cycle 1.
  { by rewrite (proj1 (unknown_transaction tid db k v Ht)). }
  destruct (trans_alive t) eqn:Hal; cycle 1.
  { by rewrite (proj1 (dead_transaction tid db t k v Ht Hal)). }
  destruct (trans_lock t) eqn:Hl.
  { by rewrite (proj1 (held_transaction tid db t k v Ht Hal Hl)). }
  destruct (imap_find k (instructions t)) as [inst|] eqn:Hfind.
  - destruct (final_value inst) as [v0|] eqn:Hv0;
      [| by rewrite (put_t_null _ _ _ Ht Hal Hl _ _ _ Hfind Hv0)].
    rewrite (put_t_again _ _ _ Ht Hal Hl _ v _ _ Hfind Hv0).
    intros Hdb. apply with_trans_settled; [| done].
    destruct (Hdb _ _ Ht) as (? & ? & Hall). apply set_instructions_settled; [by repeat split |].
    by apply imap_update_Forall.
  - rewrite (put_t_first _ _ _ Ht Hal Hl _ v Hfind).
    intros Hdb. apply with_trans_settled; [| done].
    destruct (Hdb _ _ Ht) as (? & ? & Hall). apply set_instructions_settled; [by repeat split |].
    by apply imap_emplace_Forall.
Qed.

Lemma get_t_settled k tid : changes keeps_settled unrestricted (get_t k tid).
Proof.
  intros db. destruct (transactions db !! tid) as [t|] eqn:Ht; cycle 1.
  { by rewrite (proj1 (proj2 (unknown_transaction tid db k k Ht))). }
  destruct (trans_alive t) eqn:Hal; cycle 1.
  { by rewrite (proj1 (proj2 (dead_transaction tid db t k k Ht Hal))). }
  destruct (trans_lock t) eqn:Hl.
  { by rewrite (proj1 (proj2 (held_transaction tid db t k k Ht Hal Hl))). }
  destruct (imap_find k (instructions t)) as [inst|] eqn:Hfind.
  - by rewrite (get_t_staged _ _ _ Ht Hal Hl _ _ Hfind).
  - rewrite (get_t_unstaged _ _ _ Ht Hal Hl _ Hfind).
    apply (settled_call _ _ (get_keeps k)).
Qed.

Lemma erase_t_settled k tid : changes keeps_settled unrestricted (erase_t k tid).
Proof.
  intros db. destruct (transactions db !! tid) as [t|] eqn:Ht;
    [| by rewrite (erase_t_unknown _ _ _ Ht)].
  destruct (imap_find k (instructions t)) as [inst|] eqn:Hfind;
    [| by rewrite (erase_t_unstaged _ _ _ _ Ht Hfind)].
  rewrite (erase_t_staged _ _ _ _ _ Ht Hfind).
  intros Hdb. apply with_trans_settled; [| done].
  destruct (Hdb _ _ Ht) as (? & ? & Hall). apply set_instructions_settled; [by repeat split |].
  by apply imap_update_Forall.
Qed.

Lemma createTransaction_settled tid : changes keeps_settled unrestricted (createTransaction tid).
Proof.
  intros db. destruct (transactions db !! tid) as [t|] eqn:Ht.
  - by rewrite (createTransaction_taken _ _ _ Ht).
  - unfold createTransaction. rewrite bind_gets, (transactionsHasId_None _ _ Ht). cbn.
    apply (with_trans_settled tid newTransaction db). by repeat split.
Qed.

Lemma rollbackTransaction_settled tid :
  changes keeps_settled unrestricted (rollbackTransaction tid).
Proof.
  intros db. destruct (transactions db !! tid) as [t|] eqn:Ht;
    [| by rewrite (rollbackTransaction_unknown _ _ Ht)].
  destruct (trans_lock t) eqn:Hl; [by rewrite (rollbackTransaction_held _ _ _ Ht Hl) |].
  rewrite (rollbackTransaction_free _ _ _ Ht Hl). by apply (fewer_transactions_settled tid).
Qed.

Lemma commitTransaction_settled tid :
  changes keeps_settled unrestricted (commitTransaction tid).
Proof.
  intros db. destruct (transactions db !! tid) as [t|] eqn:Ht; cycle 1.
  { by rewrite (proj1 (proj2 (proj2 (proj2 (unknown_transaction tid db tid tid Ht))))). }
  destruct (trans_alive t) eqn:Hal; cycle 1.
  { by rewrite (proj2 (proj2 (dead_transaction tid db t tid tid Ht Hal))). }
  destruct (trans_lock t) eqn:Hl.
  { by rewrite (proj2 (proj2 (held_transaction tid db t tid tid Ht Hal Hl))). }
  pose proof (commit_transactions db tid t Ht Hal Hl) as H.
  destruct (commitTransaction tid db) as [[] db' | e db' | u]; [| | done].
  - by apply (fewer_transactions_settled tid).
  - split; [done |]. destruct H as [[_ H] | [_ H]];
      [by apply (fewer_transactions_settled tid) | by apply same_transactions_settled].
Qed.

Lemma run_call_settled c : changes keeps_settled unrestricted (run_call c).
Proof.
  destruct c; cbn [run_call].
  - apply (settled_call _ _ (put_keeps k v)).
  - apply changes_bind; [apply _ | apply (settled_call _ _ (get_keeps k)) |].
    intros ?. apply changes_ret, _.
  - apply (settled_call _ _ (erase_keeps k)).
  - apply put_t_settled.
  - apply changes_bind; [apply _ | apply get_t_settled |].
    intros ?. apply changes_ret, _.
  - apply erase_t_settled.
  - apply createTransaction_settled.
  - apply rollbackTransaction_settled.
  - apply commitTransaction_settled.
Qed.

Lemma reachable_settled db : reachable db → transactions_settled db.
Proof.
  induction 1 as [| c db db' _ IH Hrun | c db e db' _ IH Hrun].
  - intros tid t. cbn. by rewrite lookup_empty.
  - pose proof (run_call_settled c db) as H. rewrite Hrun in H. by apply H.
  - pose proof (run_call_settled c db) as H. rewrite Hrun in H. by apply H.
Qed.

(** ** No read mutex is left held *)

#[global] Instance keeps_data_preorder : PreOrder keeps_data.
Proof. split; unfold keeps_data; [done | intros x y z; congruence]. Qed.

Section Mutexes.
Variable held : DataItem → mutex.

#[global] Instance keeps_free_preorder : PreOrder (keeps_free held).
Proof.
  split; unfold keeps_free.
  - intros x k it ? ?. by exists it.
  - intros x y z Hxy Hyz k it Hz Hr.
    destruct (Hyz k it Hz Hr) as (it' & Hy & Hr'). by apply (Hxy k it').
Qed.

Lemma keeps_data_free x y : keeps_data x y → keeps_free held x y.
Proof. intros H k it. rewrite H. intros ? ?. by exists it. Qed.

Lemma with_item_keeps_free k it' db :
  (held it' = true → ∃ it, data db !! k = Some it ∧ held it = true) →
  keeps_free held db (with_item k it' db).
Proof.
  intros Hk k' it. destruct (decide (k = k')) as [<- | Hne].
  - rewrite data_with_item. intros [= <-]. apply Hk.
  - rewrite data_with_item_ne by done. intros ? ?. by exists it.
Qed.

Lemma data_erase_keeps_free k db : keeps_free held db (set_data (delete k (data db)) db).
Proof.
  intros k' it. cbn. destruct (decide (k' = k)) as [-> | Hne].
  - by rewrite lookup_delete_eq.
  - rewrite lookup_delete_ne by done. intros ? ?. by exists it.
Qed.

Lemma data_call_free {A} (E : exception → Prop) (m : M A) :
  changes keeps_data E m → changes (keeps_free held) unrestricted m.
Proof. by apply changes_weaken; [apply keeps_data_free |]. Qed.

(** The auto-commit operations, for a mutex that a new entry has free and
    that an assignment to the value leaves alone. *)
Hypothesis held_new : ∀ v, held (newDataItem v) = false.
Hypothesis held_set_value : ∀ v it, held (set_value v it) = held it.

Lemma put_keeps_free k v : changes (keeps_free held) unrestricted (put k v).
Proof.
  intros db. destruct (data db !! k) as [it|] eqn:Hit.
  - destruct (alive it) eqn:Ha; [| by rewrite (put_zombie _ _ _ _ Hit Ha)].
    destruct (put_relock k v db it Hit Ha) as [[Hw Hr] | [m ->]]; [| done].
    rewrite (put_live _ _ _ _ Hit Ha Hw Hr). apply with_item_keeps_free.
    rewrite held_set_value. by exists it.
  - rewrite (put_absent _ _ _ Hit). apply with_item_keeps_free. by rewrite held_new.
Qed.

Lemma get_keeps_free k : changes (keeps_free held) unrestricted (get k).
Proof.
  intros db. destruct (data db !! k) as [it|] eqn:Hit.
  - destruct (alive it) eqn:Ha.
    + destruct (read_mutex it) eqn:Hr; [by rewrite (get_read_held _ _ _ Hit Ha Hr) |].
      by rewrite (get_live _ _ _ Hit Ha Hr).
    + by rewrite get_dead; [| rewrite (keyIsAlive_Some _ _ _ Hit)].
  - by rewrite get_dead; [| apply keyIsAlive_None].
Qed.

Lemma erase_keeps_free k : changes (keeps_free held) unrestricted (erase k).
Proof.
  intros db. destruct (data db !! k) as [it|] eqn:Hit.
  - destruct (alive it) eqn:Ha.
    + destruct (erase_relock k db it Hit Ha) as [[Hw Hr] | [m ->]]; [| done].
      rewrite (erase_live _ _ _ Hit Ha Hw Hr). apply data_erase_keeps_free.
    + by rewrite erase_dead; [| rewrite (keyIsAlive_Some _ _ _ Hit)].
  - by rewrite erase_dead; [| apply keyIsAlive_None].
Qed.
Lemma get_t_keeps_free k tid : changes (keeps_free held) unrestricted (get_t k tid).
Proof.
  intros db. destruct (transactions db !! tid) as [t|] eqn:Ht; cycle 1.
  { by rewrite (proj1 (proj2 (unknown_transaction tid db k k Ht))). }
  destruct (trans_alive t) eqn:Hal; cycle 1.
  { by rewrite (proj1 (proj2 (dead_transaction tid db t k k Ht Hal))). }
  destruct (trans_lock t) eqn:Hl.
  { by rewrite (proj1 (proj2 (held_transaction tid db t k k Ht Hal Hl))). }
  destruct (imap_find k (instructions t)) as [inst|] eqn:Hfind.
  - by rewrite (get_t_staged _ _ _ Ht Hal Hl _ _ Hfind).
  - rewrite (get_t_unstaged _ _ _ Ht Hal Hl _ Hfind). apply get_keeps_free.
Qed.
End Mutexes.

#[global] Instance keeps_reads_preorder : PreOrder keeps_reads := keeps_free_preorder read_mutex.
#[global] Instance keeps_writes_preorder : PreOrder keeps_writes := keeps_free_preorder write_mutex.

Lemma reads_free_kept x y : keeps_reads x y → reads_free x → reads_free y.
Proof.
  intros Hxy Hx k it Hit. destruct (read_mutex it) eqn:Hr; [| done].
  destruct (Hxy k it Hit Hr) as (it' & Hit' & Hr'). by rewrite (Hx k it' Hit') in Hr'.
Qed.

Lemma data_call_reads {A} (E : exception → Prop) (m : M A) :
  changes keeps_data E m → changes keeps_reads unrestricted m.
Proof. apply data_call_free. Qed.

Lemma changes_catch {A} (R : relation Database) `{!PreOrder R} E (m handler : M A) :
  changes R E m → changes R E handler → changes R E (catch_out_of_range m handler).
Proof.
  intros Hm Hh db. unfold catch_out_of_range. specialize (Hm db).
  destruct (m db) as [a db1 | e db1 | u]; [done | | done].
  destruct Hm as [He Hm]. destruct e; try done.
  specialize (Hh db1). destruct (handler db1) as [a db2 | e db2 | u]; [| | done].
  - by etrans.
  - destruct Hh. split; [done | by etrans].
Qed.

(** ** Calls that leave the entries alone *)

Create HintDb stores.

Lemma trans_at_keeps_data tid : changes keeps_data unrestricted (trans_at tid).
Proof. apply trans_at_changes, _. Qed.

Lemma data_at_keeps_data k : changes keeps_data unrestricted (data_at k).
Proof. by eapply changes_weaken; [| | apply (data_at_changes keeps_data)]. Qed.

Lemma trans_modify_keeps_data tid f : changes keeps_data unrestricted (trans_modify tid f).
Proof.
  apply changes_bind; [apply _ | apply trans_at_keeps_data |]. intros t db. cbn. reflexivity.
Qed.

Lemma trans_erase_keeps_data tid : changes keeps_data unrestricted (trans_erase tid).
Proof. intros db. cbn. reflexivity. Qed.

Lemma lock_trans_keeps_data tid : changes keeps_data unrestricted (lock_trans tid).
Proof.
  apply changes_bind; [apply _ | apply trans_at_keeps_data |].
  intros t. destruct (trans_lock t); [done | apply trans_modify_keeps_data].
Qed.

Lemma unlock_trans_keeps_data tid : changes keeps_data unrestricted (unlock_trans tid).
Proof.
  intros db. unfold unlock_trans. destruct (transactions db !! tid) as [t|] eqn:Ht; [| done].
  destruct (trans_lock t); [| done]. by rewrite (trans_modify_Some _ _ _ Ht).
Qed.

Lemma transactionHasKey_keeps_data tid k :
  changes keeps_data unrestricted (transactionHasKey tid k).
Proof.
  apply changes_bind; [apply _ | apply trans_at_keeps_data |]. intros t. apply changes_ret, _.
Qed.

Lemma instruction_at_keeps_data tid k : changes keeps_data unrestricted (instruction_at tid k).
Proof.
  apply changes_bind; [apply _ | apply trans_at_keeps_data |]. intros t.
  destruct (imap_find k (instructions t)); changes_step.
Qed.

Lemma instruction_modify_keeps_data tid k f :
  changes keeps_data unrestricted (instruction_modify tid k f).
Proof.
  apply changes_bind; [apply _ | apply instruction_at_keeps_data |].
  intros _. apply trans_modify_keeps_data.
Qed.

#[global] Hint Resolve trans_at_keeps_data data_at_keeps_data trans_modify_keeps_data
  trans_erase_keeps_data lock_trans_keeps_data unlock_trans_keeps_data
  transactionHasKey_keeps_data instruction_at_keeps_data instruction_modify_keeps_data : stores.

Lemma put_t_keeps_data k v tid : changes keeps_data unrestricted (put_t k v tid).
Proof. unfold put_t. repeat changes_step; eauto with stores. Qed.

Lemma erase_t_keeps_data k tid : changes keeps_data unrestricted (erase_t k tid).
Proof. unfold erase_t. repeat changes_step; eauto with stores. Qed.

Lemma createTransaction_keeps_data tid :
  changes keeps_data unrestricted (createTransaction tid).
Proof. unfold createTransaction. repeat changes_step. intros db. cbn. reflexivity. Qed.

Lemma rollbackTransaction_keeps_data tid :
  changes keeps_data unrestricted (rollbackTransaction tid).
Proof. unfold rollbackTransaction. repeat changes_step; eauto with stores. Qed.

(** ** The mutexes and the liveness of the entries over the calls *)

Section CallsAndMutexes.
Variable held : DataItem → mutex.
Hypothesis held_new : ∀ v, held (newDataItem v) = false.
Hypothesis held_set_value : ∀ v it, held (set_value v it) = held it.

(** Every call but a commit. *)
Lemma other_calls_keep_free c :
  (∀ tid, c ≠ CallCommit tid) → changes (keeps_free held) unrestricted (run_call c).
Proof.
  intros Hc. destruct c; cbn [run_call].
  - by apply put_keeps_free.
  - apply changes_bind; [apply _ | apply get_keeps_free |]. intros ?. apply changes_ret, _.
  - apply erase_keeps_free.
  - apply (data_call_free _ _ _ (put_t_keeps_data k v tid)).
  - apply changes_bind; [apply _ | apply get_t_keeps_free |]. intros ?. apply changes_ret, _.
  - apply (data_call_free _ _ _ (erase_t_keeps_data k tid)).
  - apply (data_call_free _ _ _ (createTransaction_keeps_data tid)).
  - apply (data_call_free _ _ _ (rollbackTransaction_keeps_data tid)).
  - by destruct (Hc tid).
Qed.

(** A [Put] of the execution loop. *)
Lemma apply_put_keeps_free inst :
  instruction_type inst = Put →
  changes (keeps_free held) unrestricted (apply_instruction inst).
Proof.
  intros Hty db. unfold apply_instruction. rewrite Hty, bind_gets.
  destruct (data db !! key inst) as [it|] eqn:Hit.
  - rewrite (dataHasKey_Some _ _ _ Hit).
    destruct (read_mutex it) eqn:Hr.
    { unfold with_lock. by rewrite (bind_Undefined _ _ _ _ (lock_read_held _ _ _ Hit Hr)). }
    destruct (final_value inst) as [v|].
    + rewrite (with_read_lock_modify _ _ _ _ Hit Hr) by done.
      apply with_item_keeps_free. rewrite held_set_value. by exists it.
    + unfold with_lock. rewrite (bind_Ret _ _ _ _ _ (lock_read_free _ _ _ Hit Hr)).
      by rewrite (finally_Undefined _ _ _ DerefNull eq_refl).
  - rewrite (dataHasKey_None _ _ Hit). destruct (final_value inst) as [v|]; [| done].
    unfold data_emplace. rewrite Hit.
    apply (with_item_keeps_free _ _ (newDataItem v)). by rewrite held_new.
Qed.

(** An [Erase] of the execution loop, for a mutex. *)
Lemma apply_instruction_keeps_free inst :
  (∀ b it, held (set_alive b it) = held it) →
  changes (keeps_free held) unrestricted (apply_instruction inst).
Proof.
  intros held_set_alive. destruct (instruction_type inst) eqn:Hty;
    [by apply apply_put_keeps_free |].
  intros db. unfold apply_instruction. rewrite Hty.
  destruct (data db !! key inst) as [it|] eqn:Hit.
  - destruct (read_mutex it) eqn:Hr.
    { unfold with_lock. by rewrite (bind_Undefined _ _ _ _ (lock_read_held _ _ _ Hit Hr)). }
    rewrite (with_read_lock_modify _ _ _ _ Hit Hr) by done.
    apply with_item_keeps_free. rewrite held_set_alive. by exists it.
  - unfold with_lock, lock_read, bind, data_at. by rewrite Hit.
Qed.

Lemma commit_exec_keeps_free l last_key :
  (∀ b it, held (set_alive b it) = held it) →
  changes (keeps_free held) unrestricted (commit_exec l last_key).
Proof.
  intros held_set_alive.
  revert last_key. induction l as [|[k inst] l IH]; intros last_key; cbn [commit_exec].
  - apply changes_ret, _.
  - apply changes_bind; [apply _ | apply changes_gets, _ |].
    intros []; [apply changes_ret, _ |].
    apply changes_bind; [apply _ | by apply apply_instruction_keeps_free | done].
Qed.

(** The two loops that lock and unlock, for anything but the write mutex. *)
Hypothesis held_set_write : ∀ b it, held (set_write_mutex b it) = held it.

Lemma lock_write_keeps_free k : changes (keeps_free held) unrestricted (lock_write k).
Proof.
  intros db. destruct (data db !! k) as [it|] eqn:Hit.
  - destruct (write_mutex it) eqn:Hw; [by rewrite (lock_write_held _ _ _ Hit Hw) |].
    rewrite (lock_write_free _ _ _ Hit Hw). apply with_item_keeps_free.
    rewrite held_set_write. by exists it.
  - unfold lock_write, bind, data_at. by rewrite Hit.
Qed.

Lemma unlock_write_keeps_free k : changes (keeps_free held) unrestricted (unlock_write k).
Proof.
  intros db. destruct (data db !! k) as [it|] eqn:Hit.
  - destruct (write_mutex it) eqn:Hw; [| by rewrite (unlock_write_free _ _ _ Hit Hw)].
    rewrite (unlock_write_held _ _ _ Hit Hw). apply with_item_keeps_free.
    rewrite held_set_write. by exists it.
  - unfold unlock_write, bind, data_at. by rewrite Hit.
Qed.

Lemma commit_lock_keeps_free tid l :
  changes (keeps_free held) unrestricted (commit_lock tid (rollbackTransaction tid) l).
Proof.
  induction l as [|[k inst] l IH]; cbn [commit_lock]; [apply changes_ret, _ |].
  apply changes_bind; [apply _ | | done].
  apply changes_catch; [apply _ | |].
  - apply changes_bind; [apply _ | apply changes_gets, _ |].
    intros []; [apply lock_write_keeps_free | apply changes_ret, _].
  - apply changes_bind; [apply _ | | intros _; changes_step].
    apply (data_call_free _ _ _ (rollbackTransaction_keeps_data tid)).
Qed.

Lemma commit_release_keeps_free rl :
  changes (keeps_free held) unrestricted (commit_release rl).
Proof.
  induction rl as [|[k inst] rl IH]; cbn [commit_release]; [apply changes_ret, _ |].
  apply changes_bind; [apply _ | apply unlock_write_keeps_free |]. intros _.
  apply changes_bind; [apply _ | | done].
  destruct (instruction_type inst); [apply changes_ret, _ |].
  intros db. apply data_erase_keeps_free.
Qed.
End CallsAndMutexes.

(** ** Every read mutex of a reachable store is free *)

Lemma commit_lock_keeps_reads tid l :
  changes keeps_reads unrestricted (commit_lock tid (rollbackTransaction tid) l).
Proof. by apply commit_lock_keeps_free. Qed.

Lemma commit_exec_keeps_reads l last_key :
  changes keeps_reads unrestricted (commit_exec l last_key).
Proof. by apply commit_exec_keeps_free. Qed.

Lemma commit_release_keeps_reads rl : changes keeps_reads unrestricted (commit_release rl).
Proof. by apply commit_release_keeps_free. Qed.

#[global] Hint Resolve commit_lock_keeps_reads commit_exec_keeps_reads
  commit_release_keeps_reads : stores.
#[global] Hint Extern 5 (changes keeps_reads _ _) =>
  eapply data_call_reads; eauto with stores : stores.

Lemma commitTransaction_keeps_reads tid :
  changes keeps_reads unrestricted (commitTransaction tid).
Proof. unfold commitTransaction. repeat changes_step; eauto with stores. Qed.

Lemma run_call_keeps_reads c : changes keeps_reads unrestricted (run_call c).
Proof.
  destruct c; try (by apply other_calls_keep_free).
  apply commitTransaction_keeps_reads.
Qed.

Lemma reachable_reads_free db : reachable db → reads_free db.
Proof.
  induction 1 as [| c db db' _ IH Hrun | c db e db' _ IH Hrun].
  - intros k it. cbn. by rewrite lookup_empty.
  - pose proof (run_call_keeps_reads c db) as H. rewrite Hrun in H.
    by apply (reads_free_kept db).
  - pose proof (run_call_keeps_reads c db) as H. rewrite Hrun in H.
    by apply (reads_free_kept db); [apply H |].
Qed.

Lemma store_after_reachable cs :
  is_Some (run_calls cs emptyDatabase) → reachable (store_after cs).
Proof.
  intros [db Hrun]. unfold store_after. rewrite Hrun. cbn.
  by apply (run_calls_reachable cs emptyDatabase db); [constructor |].
Qed.

Ltac session_reachable := apply store_after_reachable; vm_compute; by eexists.

(** * The auto-commit operations *)

Lemma get_reads_free k db : reads_free db → get k db = Ret (visible_value k db) db.
Proof.
  intros Hr. unfold visible_value. destruct (data db !! k) as [it|] eqn:Hit.
  - destruct (alive it) eqn:Ha.
    + by apply get_live; [| | apply (Hr k)].
    + apply get_dead. by rewrite (keyIsAlive_Some _ _ _ Hit).
  - by apply get_dead, keyIsAlive_None.
Qed.

(** X1. On every store that a client can get to, [get] returns: it leaves
    the store exactly as it found it and hands back the value of the entry
    when the key is there and alive, a null pointer otherwise.  This holds
    also after a commit has left write mutexes behind, as reads take the
    read mutex only. *)
Theorem get_on_reachable k db :
  reachable db → get k db = Ret (visible_value k db) db.
Proof. intros Hdb. by apply get_reads_free, reachable_reads_free. Qed.

Lemma get_on_reachable_witness :
  reachable (store_after conflict_session)
  ∧ get "a" (store_after conflict_session)
    = Ret (visible_value "a" (store_after conflict_session)) (store_after conflict_session).
Proof.
  assert (H : reachable (store_after conflict_session)) by session_reachable.
  split; [exact H | exact (get_on_reachable "a" _ H)].
Defined.

(** X2. [put] throws in one case only: the key is in the store and its
    entry is not alive.  The exception is then the zombie-key one, and the
    store is as it was. *)
Theorem put_throws_on_tombstone_only k v db e db' :
  put k v db = Throw e db'
  ↔ e = ZombieKey ∧ db' = db ∧ ∃ it, data db !! k = Some it ∧ alive it = false.
Proof.
  split.
  - destruct (data db !! k) as [it|] eqn:Hit; [| by rewrite (put_absent _ _ _ Hit)].
    destruct (alive it) eqn:Ha.
    + destruct (put_relock k v db it Hit Ha) as [[Hw Hr] | [m ->]]; [| done].
      by rewrite (put_live _ _ _ _ Hit Ha Hw Hr).
    + rewrite (put_zombie _ _ _ _ Hit Ha). intros [= <- <-]. eauto.
  - intros (-> & -> & it & Hit & Ha). by apply (put_zombie _ _ _ it).
Qed.

(** X3. [put] and [erase] touch the entry of their key and nothing else:
    whether the call returns or throws, every other entry and the whole map
    of transactions are as before. *)
Theorem put_erase_touch_one_entry k v :
  changes (only_entry k) unrestricted (put k v)
  ∧ changes (only_entry k) unrestricted (erase k).
Proof.
  split; intros db.
  - destruct (data db !! k) as [it|] eqn:Hit.
    + destruct (alive it) eqn:Ha; [| by rewrite (put_zombie _ _ _ _ Hit Ha)].
      destruct (put_relock k v db it Hit Ha) as [[Hw Hr] | [m ->]]; [| done].
      rewrite (put_live _ _ _ _ Hit Ha Hw Hr). apply with_item_only_entry.
    + rewrite (put_absent _ _ _ Hit). apply with_item_only_entry.
  - destruct (data db !! k) as [it|] eqn:Hit.
    + destruct (alive it) eqn:Ha.
      * destruct (erase_relock k db it Hit Ha) as [[Hw Hr] | [m ->]]; [| done].
        rewrite (erase_live _ _ _ Hit Ha Hw Hr).
        apply (data_erase_changes k unrestricted db).
      * by rewrite erase_dead; [| rewrite (keyIsAlive_Some _ _ _ Hit)].
    + by rewrite erase_dead; [| apply keyIsAlive_None].
Qed.

(** X4. The last [put] wins: on a key that is absent, or alive and at rest,
    two [put]s in a row return and leave the very store that the second one
    alone would have left. *)
Theorem put_last_write_wins k v1 v2 db :
  absent_or_live k db →
  ∃ db1 db2, put k v1 db = Ret tt db1 ∧ put k v2 db1 = Ret tt db2
             ∧ put k v2 db = Ret tt db2.
Proof.
  unfold absent_or_live. destruct (data db !! k) as [it|] eqn:Hit.
  - intros (Ha & Hw & Hr). do 2 eexists.
    split; [by apply put_live |].
    split; [by apply (put_live _ _ _ (set_value v1 it)); [apply data_with_item | ..] |].
    rewrite with_item_twice. exact (put_live _ _ _ _ Hit Ha Hw Hr).
  - intros _. do 2 eexists.
    split; [by apply put_absent |].
    split; [by apply (put_live _ _ _ (newDataItem v1)); [apply data_with_item | ..] |].
    rewrite with_item_twice. exact (put_absent _ _ _ Hit).
Qed.

Lemma put_last_write_wins_witness :
  absent_or_live "example" example_store
  ∧ ∃ db1 db2, put "example" "foo" example_store = Ret tt db1
               ∧ put "example" "baz" db1 = Ret tt db2
               ∧ put "example" "baz" example_store = Ret tt db2.
Proof.
  assert (H : absent_or_live "example" example_store) by (vm_compute; done).
  split; [exact H | exact (put_last_write_wins "example" "foo" "baz" example_store H)].
Defined.



(** * The transaction-scoped operations *)

Lemma get_never_throws k db e db' : get k db ≠ Throw e db'.
Proof.
  destruct (data db !! k) as [it|] eqn:Hit.
  - destruct (alive it) eqn:Ha.
    + destruct (read_mutex it) eqn:Hr; [by rewrite (get_read_held _ _ _ Hit Ha Hr) |].
      by rewrite (get_live _ _ _ Hit Ha Hr).
    + by rewrite get_dead; [| rewrite (keyIsAlive_Some _ _ _ Hit)].
  - by rewrite get_dead; [| apply keyIsAlive_None].
Qed.

(** X6. A transaction reads its own writes.  On a store that a client can
    get to, [put] in a transaction of the store returns, a [get] in the
    same transaction right after it returns the value just put, whether the
    key had been staged before or not, and the entries of the store are
    untouched. *)
Theorem put_t_then_get_t k v tid db t :
  reachable db → transactions db !! tid = Some t →
  ∃ db', put_t k v tid db = Ret tt db' ∧ get_t k tid db' = Ret (Some v) db'
         ∧ data db' = data db.
Proof.
  intros Hdb Ht. destruct (reachable_settled db Hdb tid t Ht) as (Hal & Hl & Hall).
  destruct (imap_find k (instructions t)) as [inst|] eqn:Hfind.
  - destruct (imap_find_Forall _ _ _ _ Hfind Hall) as [v0 Hv0]. cbn in Hv0.
    eexists. split; [by apply (put_t_again _ _ _ Ht Hal Hl _ v _ _ Hfind Hv0) |].
    split; [| done].
    set (t' := set_instructions (imap_update k (restaged v) (instructions t)) t).
    apply (get_t_staged _ tid t' (transactions_with_trans _ _ _) Hal Hl k (restaged v inst)).
    by apply imap_find_update_eq.
  - eexists. split; [by apply (put_t_first _ _ _ Ht Hal Hl _ v Hfind) |].
    split; [| done].
    set (inst := {| key := k; initial_value := value <$> data db !! k;
                    final_value := Some v; instruction_type := Put |}).
    set (t' := set_instructions (imap_emplace k inst (instructions t)) t).
    apply (get_t_staged _ tid t' (transactions_with_trans _ _ _) Hal Hl k inst).
    by apply imap_find_emplace_eq.
Qed.

Lemma put_t_then_get_t_witness :
  reachable (store_after staging_session)
  ∧ ∃ t, transactions (store_after staging_session) !! "t" = Some t
         ∧ ∃ db', put_t "a" "w" "t" (store_after staging_session) = Ret tt db'
                  ∧ get_t "a" "t" db' = Ret (Some "w") db'
                  ∧ data db' = data (store_after staging_session).
Proof.
  assert (H : reachable (store_after staging_session)) by session_reachable.
  split; [exact H |]. eexists. split; [vm_compute; reflexivity |].
  eapply (put_t_then_get_t "a" "w" "t" _ _ H). vm_compute. reflexivity.
Defined.

(** X7. A second [put] of a key in a transaction replaces the staged value
    and makes the instruction a [Put] again, also after an [erase] of the
    key in the transaction; the snapshot taken by the first [put] stays, and
    so do the instructions for the other keys. *)
Theorem put_t_again_keeps_snapshot k v tid db t inst :
  reachable db → transactions db !! tid = Some t →
  imap_find k (instructions t) = Some inst →
  ∃ db' t', put_t k v tid db = Ret tt db' ∧ transactions db' !! tid = Some t'
            ∧ imap_find k (instructions t')
              = Some {| key := key inst; initial_value := initial_value inst;
                        final_value := Some v; instruction_type := Put |}
            ∧ ∀ k', k' ≠ k → imap_find k' (instructions t') = imap_find k' (instructions t).
Proof.
  intros Hdb Ht Hfind. destruct (reachable_settled db Hdb tid t Ht) as (Hal & Hl & Hall).
  destruct (imap_find_Forall _ _ _ _ Hfind Hall) as [v0 Hv0]. cbn in Hv0.
  do 2 eexists. split; [by apply (put_t_again _ _ _ Ht Hal Hl _ v _ _ Hfind Hv0) |].
  split; [apply transactions_with_trans |]. cbn [instructions set_instructions]. split.
  - by rewrite (imap_find_update_eq _ _ _ _ Hfind).
  - intros k' Hne. by apply imap_find_update_ne.
Qed.

Lemma put_t_again_keeps_snapshot_witness :
  reachable (store_after staging_session)
  ∧ ∃ t inst, transactions (store_after staging_session) !! "t" = Some t
       ∧ imap_find "a" (instructions t) = Some inst
       ∧ ∃ db' t', put_t "a" "w" "t" (store_after staging_session) = Ret tt db'
            ∧ transactions db' !! "t" = Some t'
            ∧ imap_find "a" (instructions t')
              = Some {| key := key inst; initial_value := initial_value inst;
                        final_value := Some "w"; instruction_type := Put |}
            ∧ ∀ k', k' ≠ "a" → imap_find k' (instructions t') = imap_find k' (instructions t).
Proof.
  assert (H : reachable (store_after staging_session)) by session_reachable.
  split; [exact H |]. do 2 eexists.
  split; [vm_compute; reflexivity |]. split; [vm_compute; reflexivity |].
  eapply (put_t_again_keeps_snapshot "a" "w" "t" _ _ _ H); vm_compute; reflexivity.
Defined.

(** X8. [erase] in a transaction of a key that the transaction has not put
    is ignored: the call returns, nothing is staged and the store is as it
    was, so that [get] in the transaction goes on to answer with the entry
    of the store. *)
Theorem erase_t_untouched_key_ignored k tid db t :
  reachable db → transactions db !! tid = Some t →
  imap_find k (instructions t) = None →
  erase_t k tid db = Ret tt db ∧ get_t k tid db = Ret (visible_value k db) db.
Proof.
  intros Hdb Ht Hfind. destruct (reachable_settled db Hdb tid t Ht) as (Hal & Hl & _).
  split; [by apply (erase_t_unstaged _ _ t) |].
  rewrite (get_t_unstaged _ _ _ Ht Hal Hl _ Hfind).
  by apply get_reads_free, reachable_reads_free.
Qed.

Lemma erase_t_untouched_key_ignored_witness :
  reachable (store_after clean_session)
  ∧ ∃ t, transactions (store_after clean_session) !! "t" = Some t
         ∧ imap_find "c" (instructions t) = None
         ∧ erase_t "c" "t" (store_after clean_session) = Ret tt (store_after clean_session)
         ∧ get_t "c" "t" (store_after clean_session)
           = Ret (visible_value "c" (store_after clean_session)) (store_after clean_session).
Proof.
  assert (H : reachable (store_after clean_session)) by session_reachable.
  split; [exact H |]. eexists.
  split; [vm_compute; reflexivity |]. split; [vm_compute; reflexivity |].
  eapply (erase_t_untouched_key_ignored "c" "t" _ _ H); vm_compute; reflexivity.
Defined.

(** X9. Staging never writes to the store: whether they return or throw,
    [put] and [erase] in a transaction, [createTransaction] and
    [rollbackTransaction] leave every entry as it was, mutexes and all. *)
Theorem transaction_calls_keep_data k v tid :
  changes keeps_data unrestricted (put_t k v tid)
  ∧ changes keeps_data unrestricted (erase_t k tid)
  ∧ changes keeps_data unrestricted (createTransaction tid)
  ∧ changes keeps_data unrestricted (rollbackTransaction tid).
Proof.
  split; [apply put_t_keeps_data |]. split; [apply erase_t_keeps_data |].
  split; [apply createTransaction_keeps_data | apply rollbackTransaction_keeps_data].
Qed.

(** X10. [rollbackTransaction] invalidates the id.  On a store that a client
    can get to, the rollback of a transaction of the store returns; the
    transaction is gone from the map, the other ones and the entries are as
    they were, and [put], [get] and [commitTransaction] on the id throw the
    no-such-transaction exception from then on. *)
Theorem rollback_invalidates_id tid db t :
  reachable db → transactions db !! tid = Some t →
  ∃ db', rollbackTransaction tid db = Ret tt db'
         ∧ data db' = data db
         ∧ transactions db' = delete tid (transactions db)
         ∧ (∀ k v, put_t k v tid db' = Throw NoSuchTransaction db')
         ∧ (∀ k, get_t k tid db' = Throw NoSuchTransaction db')
         ∧ commitTransaction tid db' = Throw NoSuchTransaction db'.
Proof.
  intros Hdb Ht. destruct (reachable_settled db Hdb tid t Ht) as (Hal & Hl & _).
  eexists. split; [by apply (rollbackTransaction_free _ _ t) |].
  split; [done |]. split; [done |].
  set (db' := set_transactions (delete tid (transactions db)) db).
  assert (Hgone : transactions db' !! tid = None) by apply lookup_delete_eq.
  split; [| split]; [intros k v | intros k |];
    apply (unknown_transaction tid db' tid tid Hgone) ||
    apply (unknown_transaction tid db' k k Hgone) ||
    apply (unknown_transaction tid db' k v Hgone).
Qed.

Lemma rollback_invalidates_id_witness :
  reachable (store_after staging_session)
  ∧ ∃ t, transactions (store_after staging_session) !! "t" = Some t
    ∧ ∃ db', rollbackTransaction "t" (store_after staging_session) = Ret tt db'
         ∧ data db' = data (store_after staging_session)
         ∧ transactions db' = delete "t" (transactions (store_after staging_session))
         ∧ (∀ k v, put_t k v "t" db' = Throw NoSuchTransaction db')
         ∧ (∀ k, get_t k "t" db' = Throw NoSuchTransaction db')
         ∧ commitTransaction "t" db' = Throw NoSuchTransaction db'.
Proof.
  assert (H : reachable (store_after staging_session)) by session_reachable.
  split; [exact H |]. eexists. split; [vm_compute; reflexivity |].
  eapply (rollback_invalidates_id "t" _ _ H). vm_compute. reflexivity.
Defined.

(** X11. A transaction that is rolled back leaves no trace: on a store
    without the id, [createTransaction], a [put] in the transaction and
    [rollbackTransaction] return one after the other, and the store at the
    end is the store at the beginning. *)
Theorem rolled_back_put_leaves_no_trace tid k v db :
  transactions db !! tid = None →
  ∃ db1 db2, createTransaction tid db = Ret tt db1 ∧ put_t k v tid db1 = Ret tt db2
             ∧ rollbackTransaction tid db2 = Ret tt db.
Proof.
  intros Ht. do 2 eexists. split; [by apply createTransaction_fresh |].
  split; [by apply (put_t_first _ tid newTransaction (transactions_with_trans _ _ _)) |].
  rewrite with_trans_twice.
  erewrite rollbackTransaction_free; [| apply transactions_with_trans | done].
  f_equal. unfold with_trans, set_transactions. cbn. rewrite delete_insert_eq.
  destruct db as [d ts]. cbn in *. f_equal. by apply delete_id.
Qed.

Lemma rolled_back_put_leaves_no_trace_witness :
  transactions example_store !! "abc" = None
  ∧ ∃ db1 db2, createTransaction "abc" example_store = Ret tt db1
               ∧ put_t "a" "foo" "abc" db1 = Ret tt db2
               ∧ rollbackTransaction "abc" db2 = Ret tt example_store.
Proof.
  split; [reflexivity |].
  exact (rolled_back_put_leaves_no_trace "abc" "a" "foo" example_store eq_refl).
Defined.

(** X12. [put] and [get] in a transaction throw in one case only: the id is
    not that of a live transaction of the store.  The exception is then the
    no-such-transaction one, and the store is as it was. *)
Theorem put_t_get_t_throw_on_unknown_id_only k v tid db e db' :
  (put_t k v tid db = Throw e db'
   ↔ e = NoSuchTransaction ∧ db' = db ∧ transactionIsAlive tid db = false)
  ∧ (get_t k tid db = Throw e db'
     ↔ e = NoSuchTransaction ∧ db' = db ∧ transactionIsAlive tid db = false).
Proof.
  destruct (transactions db !! tid) as [t|] eqn:Ht; cycle 1.
  { destruct (unknown_transaction tid db k v Ht) as (-> & -> & _).
    rewrite (transactionIsAlive_None _ _ Ht). split; split; try by intros [= <- <-].
    all: by intros (-> & -> & _). }
  rewrite (transactionIsAlive_Some _ _ _ Ht).
  destruct (trans_alive t) eqn:Hal; cycle 1.
  { destruct (dead_transaction tid db t k v Ht Hal) as (-> & -> & _).
    split; split; try by intros [= <- <-]. all: by intros (-> & -> & _). }
  destruct (trans_lock t) eqn:Hl.
  { destruct (held_transaction tid db t k v Ht Hal Hl) as (-> & -> & _).
    split; split; try done. all: by intros (_ & _ & ?). }
  split; (split; [| by intros (_ & _ & ?)]).
  - destruct (imap_find k (instructions t)) as [inst|] eqn:Hfind.
    + destruct (final_value inst) as [v0|] eqn:Hv0.
      * by rewrite (put_t_again _ _ _ Ht Hal Hl _ v _ _ Hfind Hv0).
      * by rewrite (put_t_null _ _ _ Ht Hal Hl _ _ _ Hfind Hv0).
    + by rewrite (put_t_first _ _ _ Ht Hal Hl _ v Hfind).
  - destruct (imap_find k (instructions t)) as [inst|] eqn:Hfind.
    + by rewrite (get_t_staged _ _ _ Ht Hal Hl _ _ Hfind).
    + rewrite (get_t_unstaged _ _ _ Ht Hal Hl _ Hfind). intros H.
      by apply get_never_throws in H.
Qed.

(** X13. [createTransaction] throws exactly when the id is in the map of
    transactions, and [rollbackTransaction] exactly when it is not; the one
    throws the duplicate-transaction exception, the other the
    no-such-transaction one, and the store is as it was. *)
Theorem createTransaction_rollbackTransaction_throw tid db e db' :
  (createTransaction tid db = Throw e db'
   ↔ e = DuplicateTransaction ∧ db' = db ∧ is_Some (transactions db !! tid))
  ∧ (rollbackTransaction tid db = Throw e db'
     ↔ e = NoSuchTransaction ∧ db' = db ∧ transactions db !! tid = None).
Proof.
  destruct (transactions db !! tid) as [t|] eqn:Ht.
  - rewrite (createTransaction_taken _ _ _ Ht). split; split.
    + intros [= <- <-]. eauto.
    + by intros (-> & -> & _).
    + destruct (trans_lock t) eqn:Hl;
        [by rewrite (rollbackTransaction_held _ _ _ Ht Hl)
        | by rewrite (rollbackTransaction_free _ _ _ Ht Hl)].
    + by intros (_ & _ & ?).
  - rewrite (createTransaction_fresh _ _ Ht), (rollbackTransaction_unknown _ _ Ht).
    split; split.
    + done.
    + by intros (_ & _ & [? ?]).
    + by intros [= <- <-].
    + by intros (-> & -> & _).
Qed.

(** X14. [get], [erase] and [erase] in a transaction throw nothing: not for
    a key that is missing or dead, and not for an id that is unknown. *)
Theorem get_erase_never_throw k tid db e db' :
  get k db ≠ Throw e db' ∧ erase k db ≠ Throw e db' ∧ erase_t k tid db ≠ Throw e db'.
Proof.
  split; [apply get_never_throws |]. split.
  - destruct (data db !! k) as [it|] eqn:Hit.
    + destruct (alive it) eqn:Ha.
      * destruct (erase_relock k db it Hit Ha) as [[Hw Hr] | [m ->]]; [| done].
        by rewrite (erase_live _ _ _ Hit Ha Hw Hr).
      * by rewrite erase_dead; [| rewrite (keyIsAlive_Some _ _ _ Hit)].
    + by rewrite erase_dead; [| apply keyIsAlive_None].
  - destruct (transactions db !! tid) as [t|] eqn:Ht;
      [| by rewrite (erase_t_unknown _ _ _ Ht)].
    destruct (imap_find k (instructions t)) as [inst|] eqn:Hfind;
      [by rewrite (erase_t_staged _ _ _ _ _ Ht Hfind)
      | by rewrite (erase_t_unstaged _ _ _ _ Ht Hfind)].
Qed.

(** * Commit *)

(** ** The entries a commit may touch *)

#[global] Instance only_keys_preorder ks : PreOrder (only_keys ks).
Proof.
  split; unfold only_keys; [done |].
  intros x y z Hxy Hyz k Hk. by rewrite (Hyz k Hk), (Hxy k Hk).
Qed.

Lemma only_entry_only_keys k ks x y : k ∈ ks → only_entry k x y → only_keys ks x y.
Proof. intros Hk [_ H] k' Hk'. apply H. by intros ->. Qed.

Lemma keeps_data_only_keys ks x y : keeps_data x y → only_keys ks x y.
Proof. intros H k _. by rewrite H. Qed.

Lemma entry_call_only_keys {A} k ks (R : relation Database) (m : M A) :
  k ∈ ks → (∀ x y, R x y → only_entry k x y) →
  changes R (eq OutOfRange) m → changes (only_keys ks) unrestricted m.
Proof.
  intros Hk HR. apply changes_weaken; [| done].
  intros x y Hxy. by apply (only_entry_only_keys k), HR.
Qed.

Lemma data_call_only_keys {A} ks (m : M A) :
  changes keeps_data unrestricted m → changes (only_keys ks) unrestricted m.
Proof. by apply changes_weaken; [apply keeps_data_only_keys |]. Qed.

Section CommitFrame.
Variable ks : list string.

Lemma commit_lock_only_keys tid l :
  (∀ p, p ∈ l → key p.2 ∈ ks) →
  changes (only_keys ks) unrestricted (commit_lock tid (rollbackTransaction tid) l).
Proof.
  induction l as [|[k inst] l IH]; intros Hl; cbn [commit_lock]; [apply changes_ret, _ |].
  assert (Hk : key inst ∈ ks) by apply (Hl (k, inst)), list_elem_of_here.
  apply changes_bind; [apply _ | |].
  - apply changes_catch; [apply _ | |].
    + apply changes_bind; [apply _ | apply changes_gets, _ |].
      intros []; [| apply changes_ret, _].
      apply (entry_call_only_keys _ _ _ _ Hk (guards_of_only_entry (key inst))),
        lock_write_changes.
    + apply changes_bind; [apply _ | | intros _; changes_step].
      apply data_call_only_keys, rollbackTransaction_keeps_data.
  - intros _. apply IH. intros p Hp. by apply Hl, list_elem_of_further.
Qed.

Lemma commit_exec_only_keys l last_key :
  (∀ p, p ∈ l → key p.2 ∈ ks) →
  changes (only_keys ks) unrestricted (commit_exec l last_key).
Proof.
  revert last_key. induction l as [|[k inst] l IH]; intros last_key Hl; cbn [commit_exec].
  - apply changes_ret, _.
  - assert (Hk : key inst ∈ ks) by apply (Hl (k, inst)), list_elem_of_here.
    apply changes_bind; [apply _ | apply changes_gets, _ |].
    intros []; [apply changes_ret, _ |].
    apply changes_bind; [apply _ | |].
    + apply (entry_call_only_keys _ _ _ _ Hk (λ x y H, H)), apply_instruction_changes.
    + intros _. apply IH. intros p Hp. by apply Hl, list_elem_of_further.
Qed.

Lemma commit_release_only_keys rl :
  (∀ p, p ∈ rl → key p.2 ∈ ks) →
  changes (only_keys ks) unrestricted (commit_release rl).
Proof.
  induction rl as [|[k inst] rl IH]; intros Hl; cbn [commit_release]; [apply changes_ret, _ |].
  assert (Hk : key inst ∈ ks) by apply (Hl (k, inst)), list_elem_of_here.
  apply changes_bind; [apply _ | |].
  - apply (entry_call_only_keys _ _ _ _ Hk (guards_of_only_entry (key inst))),
      unlock_write_changes.
  - intros _. apply changes_bind; [apply _ | |].
    + destruct (instruction_type inst); [apply changes_ret, _ |].
      apply (entry_call_only_keys _ _ _ _ Hk (λ x y H, H)), data_erase_changes.
    + intros _. apply IH. intros p Hp. by apply Hl, list_elem_of_further.
Qed.
End CommitFrame.

Lemma commit_step_back_elem last_key rl rl' p :
  commit_step_back last_key rl = Some rl' → p ∈ rl' → p ∈ rl.
Proof.
  induction rl as [|[k inst] rl IH]; cbn; [done |].
  destruct (negb (String.eqb (key inst) last_key)).
  - intros H Hp. by apply list_elem_of_further, IH.
  - by intros [= <-].
Qed.

Lemma commit_only_keys tid db t :
  transactions db !! tid = Some t →
  match commitTransaction tid db with
  | Ret _ db' => only_keys (map (λ p, key p.2) (instructions t)) db db'
  | Throw _ db' => only_keys (map (λ p, key p.2) (instructions t)) db db'
  | Undefined _ => True
  end.
Proof.
  intros Ht. set (ks := map (λ p, key p.2) (instructions t)).
  destruct (trans_alive t) eqn:Hal; cycle 1.
  { by rewrite (proj2 (proj2 (dead_transaction tid db t tid tid Ht Hal))). }
  destruct (trans_lock t) eqn:Hl.
  { by rewrite (proj2 (proj2 (held_transaction tid db t tid tid Ht Hal Hl))). }
  rewrite (commit_body _ _ _ Ht Hal Hl).
  assert (Hks : ∀ p, p ∈ instructions t → key p.2 ∈ ks) by (intros p; apply key_in_keys).
  set (locked := with_trans tid (set_trans_lock true t) db).
  lazymatch goal with
  | |- context [finally ?body ?release locked] =>
      assert (changes (only_keys ks) unrestricted (finally body release)) as Hch
  end.
  { apply changes_finally; [apply _ | | apply data_call_only_keys, unlock_trans_keeps_data].
    apply changes_bind; [apply _ | by apply commit_lock_only_keys |]. intros _.
    destruct (instructions t) as [|[k0 first] l] eqn:Hinstr; [changes_step |].
    apply changes_bind; [apply _ | by apply commit_exec_only_keys |].
    intros [last_key rest].
    destruct (commit_step_back last_key (rev ((k0, first) :: l))) as [rl|] eqn:Hback;
      [| changes_step].
    apply changes_bind; [apply _ | |].
    - apply commit_release_only_keys. intros p Hp. apply Hks.
      apply elem_of_rev. by apply (commit_step_back_elem _ _ _ _ Hback).
    - intros _. destruct rest.
      + apply data_call_only_keys, trans_erase_keeps_data.
      + apply changes_bind; [apply _ | | intros _; changes_step].
        apply data_call_only_keys, trans_erase_keeps_data. }
  specialize (Hch locked).
  lazymatch goal with
  | |- context [finally ?body ?release locked] =>
      destruct (finally body release locked) as [a db' | e db' | u]
  end; [done | by destruct Hch | done].
Qed.

(** X15. The exceptions of [commitTransaction].  It throws the
    no-such-transaction exception exactly when the id is not that of a live
    transaction, and the store is then as it was.  Whatever it throws is that
    exception, the conflict exception, after which the transaction is
    erased, or the [std::out_of_range] of an [at] in one of the loops, after
    which the map of transactions is as it was.  The commit-failed exception
    of the locking loop is never thrown. *)
Theorem commit_throws tid db e db' :
  (commitTransaction tid db = Throw NoSuchTransaction db'
   ↔ db' = db ∧ transactionIsAlive tid db = false)
  ∧ (commitTransaction tid db = Throw e db' →
     e = NoSuchTransaction
     ∨ (e = TransactionConflict ∧ transactions db' = delete tid (transactions db))
     ∨ (e = OutOfRange ∧ transactions db' = transactions db)).
Proof.
  destruct (transactions db !! tid) as [t|] eqn:Ht; cycle 1.
  { rewrite (proj1 (proj2 (proj2 (proj2 (unknown_transaction tid db tid tid Ht))))),
      (transactionIsAlive_None _ _ Ht).
    split; [split; [by intros [= <-] | by intros [-> _]] | intros [= <- <-]; by left]. }
  rewrite (transactionIsAlive_Some _ _ _ Ht).
  destruct (trans_alive t) eqn:Hal; cycle 1.
  { rewrite (proj2 (proj2 (dead_transaction tid db t tid tid Ht Hal))).
    split; [split; [by intros [= <-] | by intros [-> _]] | intros [= <- <-]; by left]. }
  destruct (trans_lock t) eqn:Hl.
  { rewrite (proj2 (proj2 (held_transaction tid db t tid tid Ht Hal Hl))).
    split; [split; [done | by intros [_ ?]] | done]. }
  pose proof (commit_transactions db tid t Ht Hal Hl) as H.
  split; [split; [| by intros [_ ?]] |].
  - intros Hrun. rewrite Hrun in H. by destruct H as [[? _] | [? _]].
  - intros Hrun. rewrite Hrun in H. by right.
Qed.



(** X17. A commit touches the entries of the keys that its transaction has
    staged and no other: whether it returns or throws, the entry of every
    other key is as it was, mutexes and all. *)
Theorem commit_touches_staged_keys_only tid db t db' :
  transactions db !! tid = Some t →
  final_store (commitTransaction tid db) = Some db' →
  ∀ k, k ∉ map (λ p, key p.2) (instructions t) → data db' !! k = data db !! k.
Proof.
  intros Ht Hrun. pose proof (commit_only_keys tid db t Ht) as H.
  destruct (commitTransaction tid db) as [a db1 | e db1 | u]; cbn in Hrun; by simplify_eq.
Qed.

Lemma commit_touches_staged_keys_only_witness :
  ∃ t db', transactions (store_after staging_session) !! "t" = Some t
    ∧ final_store (commitTransaction "t" (store_after staging_session)) = Some db'
    ∧ ∀ k, k ∉ map (λ p, key p.2) (instructions t) →
           data db' !! k = data (store_after staging_session) !! k.
Proof.
  do 2 eexists. split; [vm_compute; reflexivity |]. split; [vm_compute; reflexivity |].
  apply (commit_touches_staged_keys_only "t" (store_after staging_session));
    vm_compute; reflexivity.
Defined.





(** * Stores between two calls *)

(** X20. What every call leaves behind.  On a store that a client can get
    to, no read mutex is held; every transaction is alive and its lock is
    free; every instruction has a value behind its [final_value], is filed
    under its own key, and the instructions of a transaction are in the
    strict order of their keys. *)
Theorem reachable_stores_are_settled db :
  reachable db → reads_free db ∧ transactions_settled db ∧ well_staged db.
Proof.
  intros Hdb. split; [by apply reachable_reads_free |].
  split; [by apply reachable_settled | by apply reachable_well_staged].
Qed.

Lemma reachable_stores_are_settled_witness :
  reachable (store_after conflict_session)
  ∧ reads_free (store_after conflict_session)
  ∧ transactions_settled (store_after conflict_session)
  ∧ well_staged (store_after conflict_session).
Proof.
  assert (H : reachable (store_after conflict_session)) by session_reachable.
  split; [exact H | exact (reachable_stores_are_settled _ H)].
Defined.

(** X21. Reads and staging have a defined behaviour on every store that a
    client can get to: [get], the three operations in a transaction,
    [createTransaction] and [rollbackTransaction] return or throw, and
    neither lock a mutex that the thread holds nor read through a null
    pointer, whatever the calls before them were. *)
Theorem reads_and_staging_defined k v tid db :
  reachable db →
  defined (get k db) ∧ defined (put_t k v tid db) ∧ defined (get_t k tid db)
  ∧ defined (erase_t k tid db) ∧ defined (createTransaction tid db)
  ∧ defined (rollbackTransaction tid db).
Proof.
  intros Hdb. pose proof (reachable_reads_free db Hdb) as Hr.
  assert (Hget : defined (get k db)) by (rewrite (get_reads_free _ _ Hr); by eexists).
  split; [done |].
  destruct (transactions db !! tid) as [t|] eqn:Ht; cycle 1.
  { destruct (unknown_transaction tid db k v Ht) as (-> & -> & -> & _ & ->).
    rewrite (createTransaction_fresh _ _ Ht). repeat split; by eexists. }
  destruct (reachable_settled db Hdb tid t Ht) as (Hal & Hl & Hall).
  rewrite (createTransaction_taken _ _ _ Ht), (rollbackTransaction_free _ _ _ Ht Hl).
  destruct (imap_find k (instructions t)) as [inst|] eqn:Hfind.
  - destruct (imap_find_Forall _ _ _ _ Hfind Hall) as [v0 Hv0]. cbn in Hv0.
    rewrite (put_t_again _ _ _ Ht Hal Hl _ v _ _ Hfind Hv0),
      (get_t_staged _ _ _ Ht Hal Hl _ _ Hfind), (erase_t_staged _ _ _ _ _ Ht Hfind).
    repeat split; by eexists.
  - rewrite (put_t_first _ _ _ Ht Hal Hl _ v Hfind),
      (get_t_unstaged _ _ _ Ht Hal Hl _ Hfind), (erase_t_unstaged _ _ _ _ Ht Hfind).
    repeat split; try done; by eexists.
Qed.

Lemma reads_and_staging_defined_witness :
  reachable (store_after conflict_session)
  ∧ defined (get "a" (store_after conflict_session))
  ∧ defined (put_t "a" "w" "t" (store_after conflict_session))
  ∧ defined (get_t "a" "t" (store_after conflict_session))
  ∧ defined (erase_t "a" "t" (store_after conflict_session))
  ∧ defined (createTransaction "t" (store_after conflict_session))
  ∧ defined (rollbackTransaction "t" (store_after conflict_session)).
Proof.
  assert (H : reachable (store_after conflict_session)) by session_reachable.
  split; [exact H | exact (reads_and_staging_defined "a" "w" "t" _ H)].
Defined.

(** * More on commits *)

(** X23. For one thread the [alive] flag of a transaction says nothing
    more than the presence of the id: on a store that a client can get to,
    [transactionIsAlive] and [transactionsHasId] agree, so that the
    operations that test the one and [erase], which tests the other, take
    the same ids for transactions. *)
Theorem transaction_alive_iff_known tid db :
  reachable db → transactionIsAlive tid db = transactionsHasId tid db.
Proof.
  intros Hdb. destruct (transactions db !! tid) as [t|] eqn:Ht.
  - destruct (reachable_settled db Hdb tid t Ht) as (Hal & _).
    by rewrite (transactionIsAlive_Some _ _ _ Ht), (transactionsHasId_Some _ _ _ Ht).
  - by rewrite (transactionIsAlive_None _ _ Ht), (transactionsHasId_None _ _ Ht).
Qed.

Lemma transaction_alive_iff_known_witness :
  reachable (store_after staging_session)
  ∧ transactionIsAlive "t" (store_after staging_session)
    = transactionsHasId "t" (store_after staging_session).
Proof.
  assert (H : reachable (store_after staging_session)) by session_reachable.
  split; [exact H | exact (transaction_alive_iff_known "t" _ H)].
Defined.

Lemma finally_Throw {A} (m : M A) (cleanup : M unit) db e db' db'' :
  m db = Throw e db' → cleanup db' = Ret tt db'' → finally m cleanup db = Throw e db''.
Proof. unfold finally, bind, throw. by intros -> ->. Qed.



(** ** What a commit that returns leaves behind *)

Lemma finally_Ret_inv {A} (m : M A) (cleanup : M unit) db a db'' :
  finally m cleanup db = Ret a db'' →
  ∃ db', m db = Ret a db' ∧ cleanup db' = Ret tt db''.
Proof.
  unfold finally, bind, ret, throw.
  destruct (m db) as [a1 db1 | e1 db1 | u]; [| | done];
    destruct (cleanup db1) as [[] db2 | e2 db2 | u2] eqn:Hc; intros [=]; subst; eauto.
Qed.

(** The execution loop that runs to the end hands on the key of the last
    instruction. *)
Lemma commit_exec_all l last_key db last_key' db' :
  commit_exec l last_key db = Ret (last_key', []) db' → last_key' = last_key_of l last_key.
Proof.
  revert last_key db. induction l as [|[k inst] l IH]; intros last_key db; cbn [commit_exec].
  - by intros [= <- <-].
  - rewrite bind_gets. destruct (tampered inst db); [by intros [=] |].
    intros Hrun.
    apply bind_inv in Hrun as [([] & db1 & _ & Hrun) | [(e & db1 & _ & [=]) | (u & _ & [=])]].
    by apply IH in Hrun.
Qed.

(** The three loops of a commit that returns: each of them has run over all
    the instructions. *)
Lemma commit_Ret_inv tid db db' :
  commitTransaction tid db = Ret tt db' →
  ∃ t first last_key db2 db3 db4,
    transactions db !! tid = Some t
    ∧ commit_lock tid (rollbackTransaction tid) (instructions t)
        (with_trans tid (set_trans_lock true t) db) = Ret tt db2
    ∧ commit_exec (instructions t) first db2 = Ret (last_key, []) db3
    ∧ commit_release (rev (instructions t)) db3 = Ret tt db4
    ∧ data db' = data db4.
Proof.
  intros Hrun. destruct (transactions db !! tid) as [t|] eqn:Ht; cycle 1.
  { by rewrite (proj1 (proj2 (proj2 (proj2 (unknown_transaction tid db tid tid Ht)))))
      in Hrun. }
  destruct (trans_alive t) eqn:Hal; cycle 1.
  { by rewrite (proj2 (proj2 (dead_transaction tid db t tid tid Ht Hal))) in Hrun. }
  destruct (trans_lock t) eqn:Hl.
  { by rewrite (proj2 (proj2 (held_transaction tid db t tid tid Ht Hal Hl))) in Hrun. }
  rewrite (commit_body _ _ _ Ht Hal Hl) in Hrun.
  apply finally_Ret_inv in Hrun as (db5 & Hbody & Hunlock).
  pose proof (unlock_trans_keeps_data tid db5) as Hdata. rewrite Hunlock in Hdata.
  apply bind_inv in Hbody as [([] & db2 & Hlk & Hbody) | [(e & db2 & _ & [=]) | (u & _ & [=])]].
  destruct (instructions t) as [|[k0 first] l] eqn:Hinstr; [done |].
  apply bind_inv in Hbody
    as [([last_key rest] & db3 & Hex & Hbody) | [(e & db3 & _ & [=]) | (u & _ & [=])]].
  destruct (commit_step_back last_key (rev ((k0, first) :: l))) as [rl|] eqn:Hback; [| done].
  apply bind_inv in Hbody as [([] & db4 & Hr & Hbody) | [(e & db4 & _ & [=]) | (u & _ & [=])]].
  destruct rest as [|r rest]; [| done].
  injection Hbody as <-.
  pose proof (commit_exec_all _ _ _ _ _ Hex) as Hlast. rewrite Hlast in Hback.
  rewrite commit_step_back_last in Hback by done. injection Hback as <-.
  exists t, (key first), last_key, db2, db3, db4. rewrite Hinstr.
  do 4 (split; [done |]). exact Hdata.
Qed.

(** The release loop that runs to the end leaves the write mutex of each of
    its keys free. *)
Lemma commit_release_frees rl db db' :
  commit_release rl db = Ret tt db' →
  ∀ k, k ∈ map (λ p, key p.2) rl → ∀ it', data db' !! k = Some it' → write_mutex it' = false.
Proof.
  revert db. induction rl as [|[k0 inst] rl IH]; intros db; cbn [commit_release].
  { intros _ k Hk. by apply elem_of_nil in Hk. }
  intros Hrun k Hk it' Hit'.
  apply bind_inv in Hrun as [([] & db1 & Hu & Hrun) | [(e & db1 & _ & [=]) | (u & _ & [=])]].
  apply bind_inv in Hrun as [([] & db2 & Hs & Hrun) | [(e & db2 & _ & [=]) | (u & _ & [=])]].
  destruct (decide (k ∈ map (λ p, key p.2) rl)) as [Hin | Hnotin];
    [by apply (IH db2 Hrun k Hin it') |].
  cbn in Hk. apply elem_of_cons in Hk as [-> | Hk]; [| done].
  pose proof (commit_release_only_keys (map (λ p, key p.2) rl) rl
                (λ p Hp, key_in_keys rl p Hp) db2) as Hfr.
  rewrite Hrun in Hfr. rewrite (Hfr _ Hnotin) in Hit'.
  destruct (data db !! key inst) as [it|] eqn:Hit;
    [| by unfold unlock_write, bind, data_at in Hu; rewrite Hit in Hu].
  destruct (write_mutex it) eqn:Hw; [| by rewrite (unlock_write_free _ _ _ Hit Hw) in Hu].
  rewrite (unlock_write_held _ _ _ Hit Hw) in Hu. injection Hu as <-.
  destruct (instruction_type inst).
  - injection Hs as <-. rewrite data_with_item in Hit'. by injection Hit' as <-.
  - injection Hs as <-. cbn in Hit'. by rewrite lookup_delete_eq in Hit'.
Qed.

Lemma commit_Ret_writes tid db db' :
  commitTransaction tid db = Ret tt db' → keeps_writes db db'.
Proof.
  intros Hrun.
  destruct (commit_Ret_inv _ _ _ Hrun)
    as (t & first & last_key & db2 & db3 & db4 & Ht & _ & _ & Hr & Hdata).
  pose proof (commit_only_keys tid db t Ht) as Hframe. rewrite Hrun in Hframe.
  intros k it' Hit' Hw.
  destruct (decide (k ∈ map (λ p, key p.2) (instructions t))) as [Hin | Hnotin].
  - rewrite Hdata in Hit'.
    rewrite (commit_release_frees _ _ _ Hr k) in Hw; [done | | done].
    rewrite map_rev. by apply elem_of_rev.
  - exists it'. by rewrite <- (Hframe k Hnotin).
Qed.

(** The release loop makes no entry. *)
Lemma commit_release_absent rl db db' k :
  commit_release rl db = Ret tt db' → data db !! k = None → data db' !! k = None.
Proof.
  revert db. induction rl as [|[k0 inst] rl IH]; intros db; cbn [commit_release].
  { by intros [= <-]. }
  intros Hrun Hk.
  apply bind_inv in Hrun as [([] & db1 & Hu & Hrun) | [(e & db1 & _ & [=]) | (u & _ & [=])]].
  apply bind_inv in Hrun as [([] & db2 & Hs & Hrun) | [(e & db2 & _ & [=]) | (u & _ & [=])]].
  apply (IH db2 Hrun).
  pose proof (unlock_write_changes (key inst) db) as Hsame. rewrite Hu in Hsame.
  destruct Hsame as [_ [_ Hsame]]. specialize (Hsame k).
  rewrite Hk in Hsame. destruct (data db1 !! k) as [it1|] eqn:Hk1; [done |].
  destruct (instruction_type inst).
  - by injection Hs as <-.
  - injection Hs as <-. cbn. destruct (decide (k = key inst)) as [-> | Hne].
    + apply lookup_delete_eq.
    + by rewrite lookup_delete_ne.
Qed.

(** The release loop that runs to the end has erased the entry of each of
    its [Erase] instructions. *)
Lemma commit_release_erases rl db db' p :
  commit_release rl db = Ret tt db' → p ∈ rl → instruction_type p.2 = Erase →
  data db' !! key p.2 = None.
Proof.
  revert db. induction rl as [|[k0 inst] rl IH]; intros db; cbn [commit_release].
  { intros _ Hp. by apply elem_of_nil in Hp. }
  intros Hrun Hp Hty.
  apply bind_inv in Hrun as [([] & db1 & Hu & Hrun) | [(e & db1 & _ & [=]) | (u & _ & [=])]].
  apply bind_inv in Hrun as [([] & db2 & Hs & Hrun) | [(e & db2 & _ & [=]) | (u & _ & [=])]].
  apply elem_of_cons in Hp as [-> | Hp]; [| by apply (IH db2)].
  cbn [snd] in *. rewrite Hty in Hs. injection Hs as <-.
  apply (commit_release_absent _ _ _ _ Hrun). cbn. apply lookup_delete_eq.
Qed.

(** An entry that is dead after the execution loop was dead before it, or
    the loop has run an [Erase] of its key. *)
Lemma commit_exec_dead l last_key db last_key' rest db' k it' :
  commit_exec l last_key db = Ret (last_key', rest) db' →
  data db' !! k = Some it' → dead it' = true →
  (∃ it, data db !! k = Some it ∧ dead it = true)
  ∨ ∃ p, p ∈ l ∧ key p.2 = k ∧ instruction_type p.2 = Erase.
Proof.
  revert last_key db. induction l as [|[k0 inst] l IH]; intros last_key db; cbn [commit_exec].
  { intros [= <- <- <-] ? ?. left. by exists it'. }
  rewrite bind_gets. destruct (tampered inst db).
  { intros [= <- <- <-] ? ?. left. by exists it'. }
  intros Hrun Hit' Hdead.
  apply bind_inv in Hrun as [([] & db1 & Happ & Hrun) | [(e & db1 & _ & [=]) | (u & _ & [=])]].
  destruct (IH _ _ Hrun Hit' Hdead) as [(it1 & Hit1 & Hdead1) | (p & Hp & Hkey & Hty)];
    [| right; exists p; split; [by apply list_elem_of_further | done]].
  destruct (instruction_type inst) eqn:Hty.
  - left. pose proof (apply_put_keeps_free dead (λ _, eq_refl) (λ _ _, eq_refl) inst Hty db) as H.
    rewrite Happ in H. by apply (H k it1).
  - destruct (decide (k = key inst)) as [-> | Hne].
    + right. exists (k0, inst). split; [apply list_elem_of_here | done].
    + left. exists it1. split; [| done].
      pose proof (apply_instruction_changes inst db) as H. rewrite Happ in H.
      destruct H as [_ H]. by rewrite <- (H k Hne).
Qed.

Lemma commit_Ret_alive tid db db' :
  commitTransaction tid db = Ret tt db' → keeps_alive db db'.
Proof.
  intros Hrun.
  destruct (commit_Ret_inv _ _ _ Hrun)
    as (t & first & last_key & db2 & db3 & db4 & Ht & Hlk & Hex & Hr & Hdata).
  intros k it' Hit' Hdead. rewrite Hdata in Hit'.
  pose proof (commit_release_keeps_free dead (λ _ _, eq_refl) (rev (instructions t)) db3) as H3.
  rewrite Hr in H3. destruct (H3 k it' Hit' Hdead) as (it3 & Hit3 & Hdead3).
  destruct (commit_exec_dead _ _ _ _ _ _ _ _ Hex Hit3 Hdead3)
    as [(it2 & Hit2 & Hdead2) | (p & Hp & <- & Hty)].
  - pose proof (commit_lock_keeps_free dead (λ _ _, eq_refl) tid (instructions t)
                  (with_trans tid (set_trans_lock true t) db)) as H2.
    rewrite Hlk in H2. by apply (H2 k it2).
  - rewrite (commit_release_erases _ _ _ p Hr) in Hit'; [done | by apply elem_of_rev | done].
Qed.

Lemma returning_call_keeps_free (held : DataItem → mutex) c db db' :
  (∀ v, held (newDataItem v) = false) → (∀ v it, held (set_value v it) = held it) →
  (∀ tid, commitTransaction tid db = Ret tt db' → keeps_free held db db') →
  run_call c db = Ret tt db' → keeps_free held db db'.
Proof.
  intros Hnew Hvalue Hcommit Hrun.
  destruct c; [.. | by apply (Hcommit tid)].
  all: lazymatch type of Hrun with
       | run_call ?c _ = _ =>
           assert (∀ tid, c ≠ CallCommit tid) as Hother by (intros ?; discriminate);
           pose proof (other_calls_keep_free held Hnew Hvalue c Hother db) as H;
           by rewrite Hrun in H
       end.
Qed.

(** X25. A call that returns leaves no write mutex held that was free
    before it, a commit on its way through the three loops included.  The
    write mutexes that are held between two calls have all been left there
    by commits that threw. *)
Theorem returning_calls_release_write_mutexes c db db' :
  run_call c db = Ret tt db' → keeps_writes db db'.
Proof.
  apply (returning_call_keeps_free write_mutex); [done.. |].
  intros tid. apply commit_Ret_writes.
Qed.

Lemma returning_calls_release_write_mutexes_witness :
  ∃ db', run_call (CallCommit "t") (store_after clean_session) = Ret tt db'
         ∧ keeps_writes (store_after clean_session) db'.
Proof.
  eexists. split; [vm_compute; reflexivity |].
  apply (returning_calls_release_write_mutexes (CallCommit "t")). vm_compute. reflexivity.
Defined.

(** X26. A call that returns leaves no dead entry that was not there before
    it: the entries that a commit marks as not alive in its execution loop
    are erased in its release loop.  The dead entries that are found between
    two calls have all been left there by commits that threw. *)
Theorem returning_calls_leave_no_dead_entry c db db' :
  run_call c db = Ret tt db' → keeps_alive db db'.
Proof.
  apply (returning_call_keeps_free dead); [done.. |].
  intros tid. apply commit_Ret_alive.
Qed.

Lemma returning_calls_leave_no_dead_entry_witness :
  ∃ db', run_call (CallCommit "t") (store_after removal_session) = Ret tt db'
         ∧ keeps_alive (store_after removal_session) db'.
Proof.
  eexists. split; [vm_compute; reflexivity |].
  apply (returning_calls_leave_no_dead_entry (CallCommit "t")). vm_compute. reflexivity.
Defined.

(** ** Stores that no commit has disturbed *)

Lemma undisturbed_reachable db : undisturbed db → reachable db.
Proof.
  induction 1 as [| c db db' _ IH Hrun | c db e db' _ IH _ Hrun].
  - constructor.
  - by apply (reachable_ret c db).
  - by apply (reachable_throw c db e).
Qed.

Lemma undisturbed_free (held : DataItem → mutex) db :
  (∀ v, held (newDataItem v) = false) → (∀ v it, held (set_value v it) = held it) →
  (∀ tid d d', commitTransaction tid d = Ret tt d' → keeps_free held d d') →
  undisturbed db → ∀ k it, data db !! k = Some it → held it = false.
Proof.
  intros Hnew Hvalue Hcommit.
  induction 1 as [| c db db' _ IH Hrun | c db e db' _ IH Hother Hrun]; intros k it Hit.
  - cbn in Hit. by rewrite lookup_empty in Hit.
  - destruct (held it) eqn:Hheld; [| done].
    destruct (returning_call_keeps_free held c db db' Hnew Hvalue
                (λ tid, Hcommit tid db db') Hrun k it Hit Hheld) as (it0 & Hit0 & Hheld0).
    by rewrite (IH k it0 Hit0) in Hheld0.
  - destruct (held it) eqn:Hheld; [| done].
    pose proof (other_calls_keep_free held Hnew Hvalue c Hother db) as H.
    rewrite Hrun in H. destruct H as [_ H].
    destruct (H k it Hit Hheld) as (it0 & Hit0 & Hheld0).
    by rewrite (IH k it0 Hit0) in Hheld0.
Qed.

(** X27. As long as no commit has thrown, the store is at rest: on every
    store that a client can get to by calls that returned and by calls
    other than a commit that threw, every entry is alive and both of its
    mutexes are free; [put] then returns on every key, and a [get] right
    after it returns the value. *)
Theorem undisturbed_stores_are_at_rest db :
  undisturbed db →
  entries_at_rest db
  ∧ ∀ k v, ∃ db', put k v db = Ret tt db' ∧ get k db' = Ret (Some v) db'.
Proof.
  intros Hdb.
  assert (entries_at_rest db) as Hrest.
  { intros k it Hit.
    pose proof (undisturbed_free dead db (λ _, eq_refl) (λ _ _, eq_refl)
                  commit_Ret_alive Hdb k it Hit) as Halive.
    pose proof (undisturbed_free write_mutex db (λ _, eq_refl) (λ _ _, eq_refl)
                  commit_Ret_writes Hdb k it Hit) as Hw.
    pose proof (reachable_reads_free db (undisturbed_reachable db Hdb) k it Hit) as Hr.
    unfold dead in Halive. by apply negb_false_iff in Halive. }
  split; [done |]. intros k v.
  destruct (data db !! k) as [it|] eqn:Hit.
  - destruct (Hrest k it Hit) as (Ha & Hw & Hr).
    eexists. split; [by apply put_live |].
    by rewrite (get_live _ _ (set_value v it)); [| apply data_with_item | |].
  - eexists. split; [by apply put_absent |].
    by rewrite (get_live _ _ (newDataItem v)); [| apply data_with_item | |].
Qed.

Lemma undisturbed_stores_are_at_rest_witness :
  undisturbed (store_after staging_session)
  ∧ entries_at_rest (store_after staging_session)
  ∧ ∀ k v, ∃ db', put k v (store_after staging_session) = Ret tt db'
                  ∧ get k db' = Ret (Some v) db'.
Proof.
  assert (H : undisturbed (store_after staging_session)).
  { apply (undisturbed_ret (CallPut "b" "z")
             (store_after [CallPut "a" "1"; CallPut "b" "2"; CallCreate "t";
                           CallPutT "a" "x" "t"; CallPutT "b" "y" "t"]));
      [| vm_compute; reflexivity].
    apply (undisturbed_ret (CallPutT "b" "y" "t")
             (store_after [CallPut "a" "1"; CallPut "b" "2"; CallCreate "t";
                           CallPutT "a" "x" "t"])); [| vm_compute; reflexivity].
    apply (undisturbed_ret (CallPutT "a" "x" "t")
             (store_after [CallPut "a" "1"; CallPut "b" "2"; CallCreate "t"]));
      [| vm_compute; reflexivity].
    apply (undisturbed_ret (CallCreate "t") (store_after [CallPut "a" "1"; CallPut "b" "2"]));
      [| vm_compute; reflexivity].
    apply (undisturbed_ret (CallPut "b" "2") (store_after [CallPut "a" "1"]));
      [| vm_compute; reflexivity].
    apply (undisturbed_ret (CallPut "a" "1") emptyDatabase); [| vm_compute; reflexivity].
    constructor. }
  split; [exact H | exact (undisturbed_stores_are_at_rest _ H)].
Defined.

(** X28. What a write mutex left behind costs: on a live entry whose write
    mutex is held, [put] and [erase] lock a mutex that the thread owns
    already, which is undefined behaviour. *)
Theorem put_erase_on_held_write_mutex k v db it :
  data db !! k = Some it → alive it = true → write_mutex it = true →
  put k v db = Undefined (RelockOwned (WriteMutex k))
  ∧ erase k db = Undefined (RelockOwned (WriteMutex k)).
Proof.
  intros Hit Ha Hw. split.
  - unfold put. rewrite bind_gets, (dataHasKey_Some _ _ _ Hit).
    apply bind_Undefined. rewrite bind_gets, (keyIsAlive_Some _ _ _ Hit), Ha. cbn [negb].
    unfold with_lock. by apply bind_Undefined, bind_Undefined, (lock_write_held _ _ it).
  - unfold erase. rewrite bind_gets, (keyIsAlive_Some _ _ _ Hit), Ha.
    by apply bind_Undefined, (lock_write_held _ _ it).
Qed.

Lemma put_erase_on_held_write_mutex_witness :
  reachable (store_after conflict_session)
  ∧ ∃ it, data (store_after conflict_session) !! "b" = Some it
          ∧ alive it = true ∧ write_mutex it = true
          ∧ put "b" "w" (store_after conflict_session)
            = Undefined (RelockOwned (WriteMutex "b"))
          ∧ erase "b" (store_after conflict_session)
            = Undefined (RelockOwned (WriteMutex "b")).
Proof.
  split; [session_reachable |].
  set (it := {| value := "z"; read_mutex := false; write_mutex := true; alive := true |}).
  assert (Hit : data (store_after conflict_session) !! "b" = Some it)
    by (vm_compute; reflexivity).
  exists it. do 3 (split; [done |]).
  exact (put_erase_on_held_write_mutex "b" "w" _ it Hit eq_refl eq_refl).
Defined.
